(** * Fudicia client: the wizard page, its stream handlers and helpers

    A shallow embedding of the TypeScript sources of the client
    (SourcingAgent, FundMandate, AgentThinkingAccordion) together with
    the properties of its step gating, stream handling, normalisers,
    event aggregation, file validation and CSV export.

    Layout: the JavaScript value layer ([Js]), the component state and its
    handlers ([SourcingAgent], [FundMandate], [AgentThinkingAccordion]),
    then the theorems. *)

From Stdlib Require Import ZArith NArith List String Ascii Bool Lia PrimFloat.
From stdpp Require Import base gmap sets list.
Import ListNotations.

Set Default Proof Using "Type".
#[local] Set Warnings "-register-all,-clear-no-such-hyp".

(** ** JavaScript values *)

Module Js.

(** A JavaScript string is a sequence of UTF-16 code units. *)
Definition jstring := list N.

(** An ASCII literal of the source as code units. *)
Definition lit (s : string) : jstring := map N_of_ascii (list_ascii_of_string s).

Definition str_eqb (s t : jstring) : bool := bool_decide (s = t).

(** Builtins of the host whose tables are not part of the program: number
    formatting ([Number::toString]), Unicode upper-casing
    ([String.prototype.toUpperCase]) and numeric parsing of a string
    ([StringToNumber]).  The development is parametric in them. *)
Class Runtime := {
  Number_toString : float -> jstring;
  String_toUpperCase : jstring -> jstring;
  StringToNumber : jstring -> float
}.

(** Values as [JSON.parse] produces them, plus [undefined]. An object is
    the list of its own properties in enumeration order. *)
Inductive JsVal :=
| JUndefined
| JNull
| JBool (b : bool)
| JNum (x : float)
| JStr (s : jstring)
| JArr (elems : list JsVal)
| JObj (props : list (jstring * JsVal)).

Inductive JsError := TypeError | SyntaxError.

(** The outcome of evaluating an expression that may throw. *)
Inductive Res (A : Type) :=
| Ok (a : A)
| Throw (e : JsError).
Arguments Ok {A} a.
Arguments Throw {A} e.

(** *** Character classes of the regular expressions ([\w], [\d], [\s]) *)

Definition in_range (lo hi c : N) : bool := ((lo <=? c) && (c <=? hi))%N.

Definition is_digit (c : N) : bool := in_range 48 57 c.

Definition is_word (c : N) : bool :=
  in_range 48 57 c || in_range 65 90 c || (c =? 95)%N || in_range 97 122 c.

(** [\s], which is also what [trim] strips: white space and line
    terminators. *)
Definition is_space (c : N) : bool :=
  in_range 9 13 c || (c =? 32)%N || (c =? 160)%N || (c =? 5760)%N
  || in_range 8192 8202 c || (c =? 8232)%N || (c =? 8233)%N
  || (c =? 8239)%N || (c =? 8287)%N || (c =? 12288)%N || (c =? 65279)%N.

(** [toUpperCase] on one code unit of [\w]. *)
Definition upper_ascii (c : N) : N :=
  if in_range 97 122 c then (c - 32)%N else c.

Fixpoint drop_while (p : N -> bool) (s : jstring) : jstring :=
  match s with
  | [] => []
  | c :: rest => if p c then drop_while p rest else s
  end.

Fixpoint take_while (p : N -> bool) (s : jstring) : jstring :=
  match s with
  | [] => []
  | c :: rest => if p c then c :: take_while p rest else []
  end.

(** [s.trim()] *)
Definition trim (s : jstring) : jstring :=
  rev (drop_while is_space (rev (drop_while is_space s))).

(** [s.includes(c)] for a one-unit needle. *)
Definition includes (c : N) (s : jstring) : bool := existsb (N.eqb c) s.

(** *** Truthiness and the short-circuit operators *)

Definition truthy (v : JsVal) : bool :=
  match v with
  | JUndefined | JNull => false
  | JBool b => b
  | JNum x => negb (PrimFloat.eqb x 0 || PrimFloat.is_nan x)
  | JStr s => negb (str_eqb s [])
  | JArr _ | JObj _ => true
  end.

Definition is_nullish (v : JsVal) : bool :=
  match v with JUndefined | JNull => true | _ => false end.

(** [a || b], [a && b] and [a ?? b] for operands whose evaluation cannot
    throw. *)
Definition js_or (a b : JsVal) : JsVal := if truthy a then a else b.
Definition js_and (a b : JsVal) : JsVal := if truthy a then b else a.
Definition js_coalesce (a b : JsVal) : JsVal := if is_nullish a then b else a.

Definition is_string (v : JsVal) : bool :=
  match v with JStr _ => true | _ => false end.

Definition isArray (v : JsVal) : bool :=
  match v with JArr _ => true | _ => false end.

(** [v === 'literal'] *)
Definition strict_eq_str (v : JsVal) (s : jstring) : bool :=
  match v with JStr t => str_eqb t s | _ => false end.

(** *** Property access *)

Definition digits_of_uint : Decimal.uint -> jstring :=
  fix go (u : Decimal.uint) : jstring :=
    match u with
    | Decimal.Nil => []
    | Decimal.D0 r => 48%N :: go r
    | Decimal.D1 r => 49%N :: go r
    | Decimal.D2 r => 50%N :: go r
    | Decimal.D3 r => 51%N :: go r
    | Decimal.D4 r => 52%N :: go r
    | Decimal.D5 r => 53%N :: go r
    | Decimal.D6 r => 54%N :: go r
    | Decimal.D7 r => 55%N :: go r
    | Decimal.D8 r => 56%N :: go r
    | Decimal.D9 r => 57%N :: go r
    end.

(** The property name of array index [i]. *)
Definition index_key (i : nat) : jstring := digits_of_uint (Nat.to_uint i).

(** The array index a property name denotes, if it is a canonical one. *)
Definition parse_index (k : jstring) : option nat :=
  let n := N.to_nat (fold_left (fun acc c => (acc * 10 + (c - 48))%N) k 0%N) in
  if forallb is_digit k && str_eqb (index_key n) k then Some n else None.

Fixpoint assoc (k : jstring) (props : list (jstring * JsVal)) : JsVal :=
  match props with
  | [] => JUndefined
  | (k', v) :: rest => if str_eqb k' k then v else assoc k rest
  end.

(** [{...obj, k: v}]: an existing property keeps its place. *)
Fixpoint set_prop (k : jstring) (v : JsVal) (props : list (jstring * JsVal))
  : list (jstring * JsVal) :=
  match props with
  | [] => [(k, v)]
  | (k', v') :: rest =>
      if str_eqb k' k then (k, v) :: rest else (k', v') :: set_prop k v rest
  end.

Fixpoint float_of_nat (n : nat) : float :=
  match n with
  | O => 0%float
  | S k => (float_of_nat k + 1)%float
  end.

(** [v.k] for a receiver that is neither [null] nor [undefined]. Exact for
    every name that is not an inherited prototype member; of those the
    program reads only [length]. *)
Definition prop (v : JsVal) (k : jstring) : JsVal :=
  match v with
  | JObj props => assoc k props
  | JArr l =>
      if str_eqb k (lit "length") then JNum (float_of_nat (length l))
      else match parse_index k with
           | Some i => nth i l JUndefined
           | None => JUndefined
           end
  | JStr s =>
      if str_eqb k (lit "length") then JNum (float_of_nat (length s))
      else match parse_index k with
           | Some i => match nth_error s i with
                       | Some c => JStr [c]
                       | None => JUndefined
                       end
           | None => JUndefined
           end
  | _ => JUndefined
  end.

(** [v.k]: a [TypeError] on [null] and [undefined]. *)
Definition get (v : JsVal) (k : jstring) : Res JsVal :=
  if is_nullish v then Throw TypeError else Ok (prop v k).

(** [v?.k] *)
Definition get_opt (v : JsVal) (k : jstring) : JsVal :=
  if is_nullish v then JUndefined else prop v k.

Fixpoint indexed {A B : Type} (f : nat -> A -> B) (i : nat) (l : list A) : list B :=
  match l with
  | [] => []
  | x :: rest => f i x :: indexed f (S i) rest
  end.

(** [Object.entries(v)] for a value that is neither [null] nor
    [undefined]. *)
Definition Object_entries (v : JsVal) : list (jstring * JsVal) :=
  match v with
  | JObj props => props
  | JArr l => indexed (fun i x => (index_key i, x)) 0 l
  | JStr s => indexed (fun i c => (index_key i, JStr [c])) 0 s
  | _ => []
  end.

(** [{...v}] *)
Definition spread (v : JsVal) : list (jstring * JsVal) :=
  if is_nullish v then [] else Object_entries v.

(** [Object.hasOwn(obj, k)] for the properties of an object. *)
Definition has_own (k : jstring) (props : list (jstring * JsVal)) : bool :=
  existsb (fun kv => str_eqb (fst kv) k) props.

(** Whether [String(v)] returns. An object has the [toString] of
    [Object.prototype] unless it has a property of that name of its
    own, which in a value made by [JSON.parse] is never a function:
    the conversion then finds no method that returns a primitive and
    throws. An array joins its elements, converting all of them but
    [null] and [undefined]. *)
Fixpoint stringable (v : JsVal) : bool :=
  match v with
  | JArr l =>
      (fix all (l : list JsVal) : bool :=
         match l with
         | [] => true
         | v :: rest => (is_nullish v || stringable v) && all rest
         end) l
  | JObj props => negb (has_own (lit "toString") props)
  | _ => true
  end.

Section WithRuntime.
Context `{Runtime}.

(** [String(v)], which is also the conversion of a template literal,
    on the values that have one. *)
Fixpoint string_of (v : JsVal) : jstring :=
  match v with
  | JUndefined => lit "undefined"
  | JNull => lit "null"
  | JBool b => if b then lit "true" else lit "false"
  | JNum x => Number_toString x
  | JStr s => s
  | JArr l =>
      (fix join (l : list JsVal) : jstring :=
         match l with
         | [] => []
         | v :: rest =>
             (if is_nullish v then [] else string_of v)
               ++ match rest with [] => [] | _ :: _ => 44%N :: join rest end
         end) l
  | JObj _ => lit "[object Object]"
  end.

(** [String(v)]: a [TypeError] on a value that has no conversion. *)
Definition ToString (v : JsVal) : Res jstring :=
  if stringable v then Ok (string_of v) else Throw TypeError.

(** [Number(v)], as a comparison applies it: an object or an array is
    converted by way of its string, and throws where that does. *)
Definition ToNumber (v : JsVal) : Res float :=
  match v with
  | JUndefined => Ok nan
  | JNull => Ok 0%float
  | JBool b => Ok (if b then 1%float else 0%float)
  | JNum x => Ok x
  | JStr s => Ok (StringToNumber s)
  | JArr _ | JObj _ =>
      match ToString v with
      | Ok s => Ok (StringToNumber s)
      | Throw e => Throw e
      end
  end.

(** [v > 0] *)
Definition gt_zero (v : JsVal) : Res bool :=
  match ToNumber v with
  | Ok x => Ok (PrimFloat.ltb 0 x)
  | Throw e => Throw e
  end.

(** [v.length > 0] for a receiver that is neither [null] nor
    [undefined]. The length of an array or a string is a natural
    number and is compared as one. *)
Definition length_gt_zero (v : JsVal) : Res bool :=
  match v with
  | JArr l => Ok (negb (Nat.eqb (length l) 0))
  | JStr s => Ok (negb (Nat.eqb (length s) 0))
  | JObj props => gt_zero (assoc (lit "length") props)
  | _ => Ok false
  end.
End WithRuntime.

(** A runtime to evaluate closed examples with. Its upper-casing is exact
    on ASCII text; no example shows a number it formatted or parsed. *)
Definition example_runtime : Runtime := {|
  Number_toString := fun _ => lit "NaN";
  String_toUpperCase := map upper_ascii;
  StringToNumber := fun _ => nan
|}.

End Js.
Import Js.

(** ** The addresses of the server *)

Module API.

(** [API.BASE_URL()] *)
Definition BASE_URL : jstring := lit "http://localhost:8000".

(** [s.startsWith(p)] *)
Fixpoint startsWith (p s : jstring) : bool :=
  match p, s with
  | [], _ => true
  | _ :: _, [] => false
  | a :: p', b :: s' => (a =? b)%N && startsWith p' s'
  end.

(** [base.replace(/^https?:\/\//, '')]: the optional [s] is tried
    first, and without it the expression cannot match a base that
    has it. *)
Definition strip_scheme (base : jstring) : jstring :=
  if startsWith (lit "https://") base then drop 8 base
  else if startsWith (lit "http://") base then drop 7 base
  else base.

(** [makeUrl] and [wsUrl], for a base address [base]. *)
Definition makeUrl_from (base path : jstring) : jstring := base ++ path.

Definition wsUrl_from (base path : jstring) : jstring :=
  let host := strip_scheme base in
  let protocol := if startsWith (lit "https") base then lit "wss:" else lit "ws:" in
  protocol ++ lit "//" ++ host ++ path.

Definition makeUrl (path : jstring) : jstring := makeUrl_from BASE_URL path.
Definition wsUrl (path : jstring) : jstring := wsUrl_from BASE_URL path.

End API.

(** ** The SourcingAgent page *)

Module SourcingAgent.

(** The parameter lists the page derives from [location.state]. *)
Record Params := {
  sourcingList : list JsVal;
  screeningList : list JsVal;
  riskAnalysisList : list JsVal
}.

(** An entry of [aggregatedThinkingByStep]: [{ type, content }]. *)
Record ThinkingItem := {
  item_type : JsVal;
  item_content : jstring
}.

(** The component state ([useState] and [useRef] cells), and what the
    handlers of the four sockets share with it: which steps' sockets the
    client has closed, and the [agentThinkingSteps] array local to
    [handleScreenCompanies]. Steps are numbered 0 (sourcing), 1
    (screening), 2 (risk analysis), 3 (reporting). *)
Record State := {
  currentStep : Z;
  completedSteps : gset Z;
  isSubmitting : bool;
  filterResponse : JsVal;
  screeningResponse : JsVal;
  riskAnalysisResponse : JsVal;
  reportResponse : JsVal;
  reportFilePath : JsVal;
  selectedCompanies : gmap Z bool;
  expandedScreeningResults : gmap Z bool;
  streamedEventsByStep : gmap Z (list JsVal);
  showStreamingPanel : bool;
  showAccordionStep : option Z;
  aggregatedThinkingByStep : gmap Z (list ThinkingItem);
  lastProcessedStreamingCountByStep : gmap Z nat;
  closedSockets : gset Z;
  agentThinkingSteps : list jstring
}.

Definition no_events : gmap Z (list JsVal) :=
  <[0%Z := []]> (<[1%Z := []]> (<[2%Z := []]> (<[3%Z := []]> ∅))).

(** The state of a freshly mounted page. *)
Definition initial_state : State := {|
  currentStep := 0;
  completedSteps := ∅;
  isSubmitting := false;
  filterResponse := JNull;
  screeningResponse := JNull;
  riskAnalysisResponse := JNull;
  reportResponse := JNull;
  reportFilePath := JNull;
  selectedCompanies := ∅;
  expandedScreeningResults := ∅;
  streamedEventsByStep := no_events;
  showStreamingPanel := false;
  showAccordionStep := None;
  aggregatedThinkingByStep :=
    <[0%Z := []]> (<[1%Z := []]> (<[2%Z := []]> (<[3%Z := []]> ∅)));
  lastProcessedStreamingCountByStep :=
    <[0%Z := 0%nat]> (<[1%Z := 0%nat]> (<[2%Z := 0%nat]> (<[3%Z := 0%nat]> ∅)));
  closedSockets := ∅;
  agentThinkingSteps := []
|}.

(** Field updates. *)
Definition with_currentStep (f : Z -> Z) (st : State) : State :=
  {| currentStep := f (currentStep st); completedSteps := completedSteps st;
     isSubmitting := isSubmitting st; filterResponse := filterResponse st;
     screeningResponse := screeningResponse st;
     riskAnalysisResponse := riskAnalysisResponse st;
     reportResponse := reportResponse st; reportFilePath := reportFilePath st;
     selectedCompanies := selectedCompanies st;
     expandedScreeningResults := expandedScreeningResults st;
     streamedEventsByStep := streamedEventsByStep st;
     showStreamingPanel := showStreamingPanel st;
     showAccordionStep := showAccordionStep st;
     aggregatedThinkingByStep := aggregatedThinkingByStep st;
     lastProcessedStreamingCountByStep := lastProcessedStreamingCountByStep st;
     closedSockets := closedSockets st;
     agentThinkingSteps := agentThinkingSteps st |}.
Definition with_completedSteps (f : gset Z -> gset Z) (st : State) : State :=
  {| currentStep := currentStep st; completedSteps := f (completedSteps st);
     isSubmitting := isSubmitting st; filterResponse := filterResponse st;
     screeningResponse := screeningResponse st;
     riskAnalysisResponse := riskAnalysisResponse st;
     reportResponse := reportResponse st; reportFilePath := reportFilePath st;
     selectedCompanies := selectedCompanies st;
     expandedScreeningResults := expandedScreeningResults st;
     streamedEventsByStep := streamedEventsByStep st;
     showStreamingPanel := showStreamingPanel st;
     showAccordionStep := showAccordionStep st;
     aggregatedThinkingByStep := aggregatedThinkingByStep st;
     lastProcessedStreamingCountByStep := lastProcessedStreamingCountByStep st;
     closedSockets := closedSockets st;
     agentThinkingSteps := agentThinkingSteps st |}.
Definition with_isSubmitting (f : bool -> bool) (st : State) : State :=
  {| currentStep := currentStep st; completedSteps := completedSteps st;
     isSubmitting := f (isSubmitting st); filterResponse := filterResponse st;
     screeningResponse := screeningResponse st;
     riskAnalysisResponse := riskAnalysisResponse st;
     reportResponse := reportResponse st; reportFilePath := reportFilePath st;
     selectedCompanies := selectedCompanies st;
     expandedScreeningResults := expandedScreeningResults st;
     streamedEventsByStep := streamedEventsByStep st;
     showStreamingPanel := showStreamingPanel st;
     showAccordionStep := showAccordionStep st;
     aggregatedThinkingByStep := aggregatedThinkingByStep st;
     lastProcessedStreamingCountByStep := lastProcessedStreamingCountByStep st;
     closedSockets := closedSockets st;
     agentThinkingSteps := agentThinkingSteps st |}.
Definition with_filterResponse (f : JsVal -> JsVal) (st : State) : State :=
  {| currentStep := currentStep st; completedSteps := completedSteps st;
     isSubmitting := isSubmitting st; filterResponse := f (filterResponse st);
     screeningResponse := screeningResponse st;
     riskAnalysisResponse := riskAnalysisResponse st;
     reportResponse := reportResponse st; reportFilePath := reportFilePath st;
     selectedCompanies := selectedCompanies st;
     expandedScreeningResults := expandedScreeningResults st;
     streamedEventsByStep := streamedEventsByStep st;
     showStreamingPanel := showStreamingPanel st;
     showAccordionStep := showAccordionStep st;
     aggregatedThinkingByStep := aggregatedThinkingByStep st;
     lastProcessedStreamingCountByStep := lastProcessedStreamingCountByStep st;
     closedSockets := closedSockets st;
     agentThinkingSteps := agentThinkingSteps st |}.
Definition with_screeningResponse (f : JsVal -> JsVal) (st : State) : State :=
  {| currentStep := currentStep st; completedSteps := completedSteps st;
     isSubmitting := isSubmitting st; filterResponse := filterResponse st;
     screeningResponse := f (screeningResponse st);
     riskAnalysisResponse := riskAnalysisResponse st;
     reportResponse := reportResponse st; reportFilePath := reportFilePath st;
     selectedCompanies := selectedCompanies st;
     expandedScreeningResults := expandedScreeningResults st;
     streamedEventsByStep := streamedEventsByStep st;
     showStreamingPanel := showStreamingPanel st;
     showAccordionStep := showAccordionStep st;
     aggregatedThinkingByStep := aggregatedThinkingByStep st;
     lastProcessedStreamingCountByStep := lastProcessedStreamingCountByStep st;
     closedSockets := closedSockets st;
     agentThinkingSteps := agentThinkingSteps st |}.
Definition with_riskAnalysisResponse (f : JsVal -> JsVal) (st : State) : State :=
  {| currentStep := currentStep st; completedSteps := completedSteps st;
     isSubmitting := isSubmitting st; filterResponse := filterResponse st;
     screeningResponse := screeningResponse st;
     riskAnalysisResponse := f (riskAnalysisResponse st);
     reportResponse := reportResponse st; reportFilePath := reportFilePath st;
     selectedCompanies := selectedCompanies st;
     expandedScreeningResults := expandedScreeningResults st;
     streamedEventsByStep := streamedEventsByStep st;
     showStreamingPanel := showStreamingPanel st;
     showAccordionStep := showAccordionStep st;
     aggregatedThinkingByStep := aggregatedThinkingByStep st;
     lastProcessedStreamingCountByStep := lastProcessedStreamingCountByStep st;
     closedSockets := closedSockets st;
     agentThinkingSteps := agentThinkingSteps st |}.
Definition with_reportResponse (f : JsVal -> JsVal) (st : State) : State :=
  {| currentStep := currentStep st; completedSteps := completedSteps st;
     isSubmitting := isSubmitting st; filterResponse := filterResponse st;
     screeningResponse := screeningResponse st;
     riskAnalysisResponse := riskAnalysisResponse st;
     reportResponse := f (reportResponse st);
     reportFilePath := reportFilePath st;
     selectedCompanies := selectedCompanies st;
     expandedScreeningResults := expandedScreeningResults st;
     streamedEventsByStep := streamedEventsByStep st;
     showStreamingPanel := showStreamingPanel st;
     showAccordionStep := showAccordionStep st;
     aggregatedThinkingByStep := aggregatedThinkingByStep st;
     lastProcessedStreamingCountByStep := lastProcessedStreamingCountByStep st;
     closedSockets := closedSockets st;
     agentThinkingSteps := agentThinkingSteps st |}.
Definition with_reportFilePath (f : JsVal -> JsVal) (st : State) : State :=
  {| currentStep := currentStep st; completedSteps := completedSteps st;
     isSubmitting := isSubmitting st; filterResponse := filterResponse st;
     screeningResponse := screeningResponse st;
     riskAnalysisResponse := riskAnalysisResponse st;
     reportResponse := reportResponse st;
     reportFilePath := f (reportFilePath st);
     selectedCompanies := selectedCompanies st;
     expandedScreeningResults := expandedScreeningResults st;
     streamedEventsByStep := streamedEventsByStep st;
     showStreamingPanel := showStreamingPanel st;
     showAccordionStep := showAccordionStep st;
     aggregatedThinkingByStep := aggregatedThinkingByStep st;
     lastProcessedStreamingCountByStep := lastProcessedStreamingCountByStep st;
     closedSockets := closedSockets st;
     agentThinkingSteps := agentThinkingSteps st |}.
Definition with_selectedCompanies (f : gmap Z bool -> gmap Z bool) (st : State) : State :=
  {| currentStep := currentStep st; completedSteps := completedSteps st;
     isSubmitting := isSubmitting st; filterResponse := filterResponse st;
     screeningResponse := screeningResponse st;
     riskAnalysisResponse := riskAnalysisResponse st;
     reportResponse := reportResponse st; reportFilePath := reportFilePath st;
     selectedCompanies := f (selectedCompanies st);
     expandedScreeningResults := expandedScreeningResults st;
     streamedEventsByStep := streamedEventsByStep st;
     showStreamingPanel := showStreamingPanel st;
     showAccordionStep := showAccordionStep st;
     aggregatedThinkingByStep := aggregatedThinkingByStep st;
     lastProcessedStreamingCountByStep := lastProcessedStreamingCountByStep st;
     closedSockets := closedSockets st;
     agentThinkingSteps := agentThinkingSteps st |}.
Definition with_expandedScreeningResults (f : gmap Z bool -> gmap Z bool) (st : State) : State :=
  {| currentStep := currentStep st; completedSteps := completedSteps st;
     isSubmitting := isSubmitting st; filterResponse := filterResponse st;
     screeningResponse := screeningResponse st;
     riskAnalysisResponse := riskAnalysisResponse st;
     reportResponse := reportResponse st; reportFilePath := reportFilePath st;
     selectedCompanies := selectedCompanies st;
     expandedScreeningResults := f (expandedScreeningResults st);
     streamedEventsByStep := streamedEventsByStep st;
     showStreamingPanel := showStreamingPanel st;
     showAccordionStep := showAccordionStep st;
     aggregatedThinkingByStep := aggregatedThinkingByStep st;
     lastProcessedStreamingCountByStep := lastProcessedStreamingCountByStep st;
     closedSockets := closedSockets st;
     agentThinkingSteps := agentThinkingSteps st |}.
Definition with_streamedEventsByStep (f : gmap Z (list JsVal) -> gmap Z (list JsVal)) (st : State) : State :=
  {| currentStep := currentStep st; completedSteps := completedSteps st;
     isSubmitting := isSubmitting st; filterResponse := filterResponse st;
     screeningResponse := screeningResponse st;
     riskAnalysisResponse := riskAnalysisResponse st;
     reportResponse := reportResponse st; reportFilePath := reportFilePath st;
     selectedCompanies := selectedCompanies st;
     expandedScreeningResults := expandedScreeningResults st;
     streamedEventsByStep := f (streamedEventsByStep st);
     showStreamingPanel := showStreamingPanel st;
     showAccordionStep := showAccordionStep st;
     aggregatedThinkingByStep := aggregatedThinkingByStep st;
     lastProcessedStreamingCountByStep := lastProcessedStreamingCountByStep st;
     closedSockets := closedSockets st;
     agentThinkingSteps := agentThinkingSteps st |}.
Definition with_showStreamingPanel (f : bool -> bool) (st : State) : State :=
  {| currentStep := currentStep st; completedSteps := completedSteps st;
     isSubmitting := isSubmitting st; filterResponse := filterResponse st;
     screeningResponse := screeningResponse st;
     riskAnalysisResponse := riskAnalysisResponse st;
     reportResponse := reportResponse st; reportFilePath := reportFilePath st;
     selectedCompanies := selectedCompanies st;
     expandedScreeningResults := expandedScreeningResults st;
     streamedEventsByStep := streamedEventsByStep st;
     showStreamingPanel := f (showStreamingPanel st);
     showAccordionStep := showAccordionStep st;
     aggregatedThinkingByStep := aggregatedThinkingByStep st;
     lastProcessedStreamingCountByStep := lastProcessedStreamingCountByStep st;
     closedSockets := closedSockets st;
     agentThinkingSteps := agentThinkingSteps st |}.
Definition with_showAccordionStep (f : option Z -> option Z) (st : State) : State :=
  {| currentStep := currentStep st; completedSteps := completedSteps st;
     isSubmitting := isSubmitting st; filterResponse := filterResponse st;
     screeningResponse := screeningResponse st;
     riskAnalysisResponse := riskAnalysisResponse st;
     reportResponse := reportResponse st; reportFilePath := reportFilePath st;
     selectedCompanies := selectedCompanies st;
     expandedScreeningResults := expandedScreeningResults st;
     streamedEventsByStep := streamedEventsByStep st;
     showStreamingPanel := showStreamingPanel st;
     showAccordionStep := f (showAccordionStep st);
     aggregatedThinkingByStep := aggregatedThinkingByStep st;
     lastProcessedStreamingCountByStep := lastProcessedStreamingCountByStep st;
     closedSockets := closedSockets st;
     agentThinkingSteps := agentThinkingSteps st |}.
Definition with_aggregatedThinkingByStep (f : gmap Z (list ThinkingItem) -> gmap Z (list ThinkingItem)) (st : State) : State :=
  {| currentStep := currentStep st; completedSteps := completedSteps st;
     isSubmitting := isSubmitting st; filterResponse := filterResponse st;
     screeningResponse := screeningResponse st;
     riskAnalysisResponse := riskAnalysisResponse st;
     reportResponse := reportResponse st; reportFilePath := reportFilePath st;
     selectedCompanies := selectedCompanies st;
     expandedScreeningResults := expandedScreeningResults st;
     streamedEventsByStep := streamedEventsByStep st;
     showStreamingPanel := showStreamingPanel st;
     showAccordionStep := showAccordionStep st;
     aggregatedThinkingByStep := f (aggregatedThinkingByStep st);
     lastProcessedStreamingCountByStep := lastProcessedStreamingCountByStep st;
     closedSockets := closedSockets st;
     agentThinkingSteps := agentThinkingSteps st |}.
Definition with_lastProcessedStreamingCountByStep (f : gmap Z nat -> gmap Z nat) (st : State) : State :=
  {| currentStep := currentStep st; completedSteps := completedSteps st;
     isSubmitting := isSubmitting st; filterResponse := filterResponse st;
     screeningResponse := screeningResponse st;
     riskAnalysisResponse := riskAnalysisResponse st;
     reportResponse := reportResponse st; reportFilePath := reportFilePath st;
     selectedCompanies := selectedCompanies st;
     expandedScreeningResults := expandedScreeningResults st;
     streamedEventsByStep := streamedEventsByStep st;
     showStreamingPanel := showStreamingPanel st;
     showAccordionStep := showAccordionStep st;
     aggregatedThinkingByStep := aggregatedThinkingByStep st;
     lastProcessedStreamingCountByStep := f (lastProcessedStreamingCountByStep st);
     closedSockets := closedSockets st;
     agentThinkingSteps := agentThinkingSteps st |}.
Definition with_closedSockets (f : gset Z -> gset Z) (st : State) : State :=
  {| currentStep := currentStep st; completedSteps := completedSteps st;
     isSubmitting := isSubmitting st; filterResponse := filterResponse st;
     screeningResponse := screeningResponse st;
     riskAnalysisResponse := riskAnalysisResponse st;
     reportResponse := reportResponse st; reportFilePath := reportFilePath st;
     selectedCompanies := selectedCompanies st;
     expandedScreeningResults := expandedScreeningResults st;
     streamedEventsByStep := streamedEventsByStep st;
     showStreamingPanel := showStreamingPanel st;
     showAccordionStep := showAccordionStep st;
     aggregatedThinkingByStep := aggregatedThinkingByStep st;
     lastProcessedStreamingCountByStep := lastProcessedStreamingCountByStep st;
     closedSockets := f (closedSockets st);
     agentThinkingSteps := agentThinkingSteps st |}.
Definition with_agentThinkingSteps (f : list jstring -> list jstring) (st : State) : State :=
  {| currentStep := currentStep st; completedSteps := completedSteps st;
     isSubmitting := isSubmitting st; filterResponse := filterResponse st;
     screeningResponse := screeningResponse st;
     riskAnalysisResponse := riskAnalysisResponse st;
     reportResponse := reportResponse st; reportFilePath := reportFilePath st;
     selectedCompanies := selectedCompanies st;
     expandedScreeningResults := expandedScreeningResults st;
     streamedEventsByStep := streamedEventsByStep st;
     showStreamingPanel := showStreamingPanel st;
     showAccordionStep := showAccordionStep st;
     aggregatedThinkingByStep := aggregatedThinkingByStep st;
     lastProcessedStreamingCountByStep := lastProcessedStreamingCountByStep st;
     closedSockets := closedSockets st;
     agentThinkingSteps := f (agentThinkingSteps st) |}.

(** *** Handlers as state transformers that may throw

    A state update made before a later statement throws is kept, as React
    keeps an update that was queued before the handler failed. *)

Definition M (A : Type) : Type := State -> State * Res A.

#[global] Instance M_ret : MRet M := fun A a st => (st, Ok a).

#[global] Instance M_bind : MBind M := fun A B f m st =>
  match m st with
  | (st', Ok a) => f a st'
  | (st', Throw e) => (st', Throw e)
  end.

Definition lift {A : Type} (r : Res A) : M A := fun st => (st, r).

Definition update (f : State -> State) : M unit := fun st => (f st, Ok tt).

Definition read {A : Type} (f : State -> A) : M A := fun st => (st, Ok (f st)).

Definition skip : M unit := mret tt.

(** [try { body } catch (e) { handler }] *)
Definition try_catch (body : M unit) (handler : JsError -> M unit) : M unit :=
  fun st =>
    match body st with
    | (st', Ok tt) => (st', Ok tt)
    | (st', Throw e) => handler e st'
    end.

(** The state a handler leaves behind. *)
Definition run (m : M unit) (st : State) : State := fst (m st).

(** The [useState] setters, by value and by updater function. *)
Definition setCurrentStep (v : Z) := update (with_currentStep (fun _ => v)).
Definition setCompletedSteps (f : gset Z -> gset Z) := update (with_completedSteps f).
Definition setIsSubmitting (v : bool) := update (with_isSubmitting (fun _ => v)).
Definition setFilterResponse (v : JsVal) := update (with_filterResponse (fun _ => v)).
Definition setScreeningResponse (v : JsVal) := update (with_screeningResponse (fun _ => v)).
Definition setRiskAnalysisResponse (v : JsVal) :=
  update (with_riskAnalysisResponse (fun _ => v)).
Definition setReportResponse (v : JsVal) := update (with_reportResponse (fun _ => v)).
Definition setReportFilePath (v : JsVal) := update (with_reportFilePath (fun _ => v)).
Definition setSelectedCompanies (v : gmap Z bool) :=
  update (with_selectedCompanies (fun _ => v)).
Definition setExpandedScreeningResults (v : gmap Z bool) :=
  update (with_expandedScreeningResults (fun _ => v)).
Definition setStreamedEventsByStep (f : gmap Z (list JsVal) -> gmap Z (list JsVal)) :=
  update (with_streamedEventsByStep f).
Definition setShowStreamingPanel (v : bool) :=
  update (with_showStreamingPanel (fun _ => v)).
Definition setShowAccordionStep (v : option Z) :=
  update (with_showAccordionStep (fun _ => v)).
Definition setAggregatedThinkingByStep
  (f : gmap Z (list ThinkingItem) -> gmap Z (list ThinkingItem)) :=
  update (with_aggregatedThinkingByStep f).

(** [ws.close()] on the socket of step [k]. *)
Definition ws_close (k : Z) : M unit := update (with_closedSockets (fun s => s ∪ {[k]})).

(** [prev[k] || []] *)
Definition events_of (prev : gmap Z (list JsVal)) (k : Z) : list JsVal :=
  default [] (prev !! k).

(** [{ ...prev, k: [...(prev[k] || []), eventData] }] *)
Definition append_event (k : Z) (eventData : JsVal)
  (prev : gmap Z (list JsVal)) : gmap Z (list JsVal) :=
  <[k := events_of prev k ++ [eventData]]> prev.

(** A message event, identified with what [JSON.parse(event.data)] yields:
    the parsed value, or the [SyntaxError] it throws. *)
Definition MessageEvent : Type := Res JsVal.

Definition JSON_parse (event : MessageEvent) : M JsVal := lift event.

(** *** Text clean-up of streamed content *)

(** [/^STEP/i]: the four letters in either case. *)
Definition strip_step_word (s : jstring) : option jstring :=
  match s with
  | c1 :: c2 :: c3 :: c4 :: rest =>
      if ((upper_ascii c1 =? 83) && (upper_ascii c2 =? 84)
          && (upper_ascii c3 =? 69) && (upper_ascii c4 =? 80))%N
      then Some rest else None
  | _ => None
  end.

(** [\d+:\s*] at the head of [s]: what follows the match. *)
Definition strip_number_colon (s : jstring) : option jstring :=
  match take_while is_digit s, drop_while is_digit s with
  | _ :: _, c :: rest => if (c =? 58)%N then Some (drop_while is_space rest) else None
  | _, _ => None
  end.

(** [.replace(/^STEP\s*\d+:\s*/i, '')] *)
Definition strip_step_label (s : jstring) : jstring :=
  match strip_step_word s with
  | Some rest =>
      match strip_number_colon (drop_while is_space rest) with
      | Some rest' => rest'
      | None => s
      end
  | None => s
  end.

(** [.replace(/^STEP \d+:\s*/i, '')]: exactly one space after the word. *)
Definition strip_step_label_space (s : jstring) : jstring :=
  match strip_step_word s with
  | Some (c :: rest) =>
      if (c =? 32)%N then
        match strip_number_colon rest with
        | Some rest' => rest'
        | None => s
        end
      else s
  | _ => s
  end.

(** [.replace(/^[^\w\s]*\s*/g, '')] *)
Definition strip_leading_symbols (s : jstring) : jstring :=
  drop_while is_space (drop_while (fun c => negb (is_word c) && negb (is_space c)) s).

Definition is_high_surrogate (c : N) : bool := in_range 55296 56319 c.
Definition is_low_surrogate (c : N) : bool := in_range 56320 57343 c.

(** The code point of a surrogate pair. *)
Definition code_point (hi lo : N) : N :=
  (65536 + (hi - 55296) * 1024 + (lo - 56320))%N.

(** The character class of the emoji expression:
    U+1F300-1F9FF, U+2600-26FF, U+2700-27BF, U+1F600-1F64F, U+1F680-1F6FF. *)
Definition is_emoji (cp : N) : bool :=
  in_range 127744 129535 cp || in_range 9728 9983 cp || in_range 9984 10175 cp
  || in_range 128512 128591 cp || in_range 128640 128767 cp.

(** [.replace(/[...]/gu, '')]: with the [u] flag a surrogate pair is one
    character. *)
Fixpoint remove_emoji (s : jstring) : jstring :=
  match s with
  | [] => []
  | c :: rest =>
      match rest with
      | d :: rest' =>
          if is_high_surrogate c && is_low_surrogate d then
            if is_emoji (code_point c d) then remove_emoji rest'
            else c :: d :: remove_emoji rest'
          else if is_emoji c then remove_emoji rest else c :: remove_emoji rest
      | [] => if is_emoji c then [] else [c]
      end
  end.

(** The chain of replacements both aggregation effects apply to a string
    content. *)
Definition clean_text (content : jstring) : jstring :=
  trim (remove_emoji (strip_step_label (strip_leading_symbols content))).

(** The character class of the screening handler's first expression, as
    the source file spells it. *)
Definition is_prefix_mark (c : N) : bool :=
  existsb (N.eqb c)
    [226; 339; 8230; 240; 376; 8217; 173; 8221; 167; 353; 8482; 239; 184;
     143; 168; 8220; 8249; 179; 352; 164; 8211]%N.

(** [.replace(/^[...]\s*/g, '')]: one character of the class, then white
    space. *)
Definition strip_prefix_mark (s : jstring) : jstring :=
  match s with
  | c :: rest => if is_prefix_mark c then drop_while is_space rest else s
  | [] => s
  end.

(** *** The WebSocket handlers *)

Section Handlers.
Context `{Runtime}.

(** [handleSourceCompanies]: [ws.onmessage] *)
Definition sourcing_onmessage (event : MessageEvent) : M unit :=
  eventData ← JSON_parse event;
  setStreamedEventsByStep (append_event 0 eventData);;
  type ← lift (get eventData (lit "type"));
  if strict_eq_str type (lit "analysis_complete")
     && truthy (prop eventData (lit "result"))
  then
    let result := prop eventData (lit "result") in
    let transformedResponse :=
      JObj [(lit "companies",
             JObj [(lit "qualified", js_or (prop result (lit "qualified")) (JArr []));
                   (lit "tokens",
                    JObj [(lit "totals",
                           JObj [(lit "total_tokens",
                                  js_or (get_opt (get_opt (prop eventData (lit "tokens_used"))
                                                    (lit "totals"))
                                           (lit "total_tokens"))
                                        (JNum 0))])])])] in
    setFilterResponse transformedResponse;;
    setCompletedSteps (fun prev => prev ∪ {[0%Z]});;
    setShowStreamingPanel false;;
    toast ← lift (ToString (js_or (get_opt (prop result (lit "qualified")) (lit "length"))
                                  (JNum 0)));
    ws_close 0
  else skip.

(** The block of the screening handler that collects agent thinking:
    a string content is cleaned and pushed to [agentThinkingSteps]. *)
Definition collect_agent_thinking (eventData type : JsVal) : M unit :=
  if truthy type && truthy (prop eventData (lit "content")) then
    match js_or (prop eventData (lit "content")) (JStr []) with
    | JStr content =>
        let cleanContent := trim (strip_step_label_space (strip_prefix_mark content)) in
        if truthy (JStr content) && truthy (JStr cleanContent)
        then update (with_agentThinkingSteps (fun steps => steps ++ [cleanContent]))
        else skip
    | _ => skip
    end
  else skip.

(** [handleScreenCompanies]: [ws.onmessage] *)
Definition screening_onmessage (event : MessageEvent) : M unit :=
  eventData ← JSON_parse event;
  setStreamedEventsByStep (append_event 1 eventData);;
  type ← lift (get eventData (lit "type"));
  collect_agent_thinking eventData type;;
  if strict_eq_str type (lit "final_result")
     && truthy (prop eventData (lit "content"))
  then
    let content := prop eventData (lit "content") in
    steps ← read agentThinkingSteps;
    let responseWithThinking :=
      JObj (set_prop (lit "tokens_used")
              (js_or (get_opt (get_opt (prop content (lit "tokens_used")) (lit "totals"))
                        (lit "total_tokens"))
                     (JNum 0))
              (set_prop (lit "agent_thinking") (JArr (map JStr steps))
                 (spread content))) in
    setScreeningResponse responseWithThinking;;
    setExpandedScreeningResults {[0%Z := true]};;
    setCompletedSteps (fun prev => prev ∪ {[1%Z]});;
    setShowStreamingPanel false;;
    ws_close 1
  else skip.

(** The callback of [rawResults.filter]:
    [String(c.overall_result || c.overall_status || '').toUpperCase() === 'SAFE'] *)
Definition is_safe (c : JsVal) : Res bool :=
  if is_nullish c then Throw TypeError
  else match ToString (js_or (js_or (prop c (lit "overall_result"))
                                    (prop c (lit "overall_status")))
                             (JStr [])) with
       | Throw e => Throw e
       | Ok text => Ok (str_eqb (String_toUpperCase text) (lit "SAFE"))
       end.

(** [l.filter(cb).length], stopping at the first callback that throws. *)
Fixpoint count_safe (l : list JsVal) : Res nat :=
  match l with
  | [] => Ok 0%nat
  | c :: rest =>
      match is_safe c with
      | Throw e => Throw e
      | Ok b =>
          match count_safe rest with
          | Throw e => Throw e
          | Ok n => Ok (if b then S n else n)
          end
      end
  end.

(** [rawResults.filter(...).length]: calling [filter] on a value that
    is not an array is a [TypeError]. *)
Definition passed_count (rawResults : JsVal) : Res nat :=
  match rawResults with
  | JArr l => count_safe l
  | _ => Throw TypeError
  end.

(** [handleAnalyzeRisk]: [ws.onmessage] *)
Definition risk_onmessage (event : MessageEvent) : M unit :=
  try_catch
    (eventData ← JSON_parse event;
     setStreamedEventsByStep (append_event 2 eventData);;
     type ← lift (get eventData (lit "type"));
     if strict_eq_str type (lit "session_complete")
        && truthy (prop eventData (lit "results"))
     then
       try_catch
         (let rawResults := js_or (prop eventData (lit "results")) (JArr []) in
          let riskTokens :=
            js_or (get_opt (prop eventData (lit "token_usage")) (lit "completion_tokens"))
                  (JNum 0) in
          let total := prop rawResults (lit "length") in
          passed ← lift (passed_count rawResults);
          let finalResponse :=
            JObj [(lit "all_companies", rawResults);
                  (lit "summary",
                   JObj [(lit "total", total);
                         (lit "passed", JNum (float_of_nat passed))]);
                  (lit "tokens_used", riskTokens)] in
          setRiskAnalysisResponse finalResponse;;
          setCompletedSteps (fun prev => prev ∪ {[2%Z]});;
          setShowStreamingPanel false;;
          ws_close 2)
         (fun _ => skip)
     else skip)
    (fun _ => skip).

(** [handleGenerateReport]: [ws.onmessage] *)
Definition report_onmessage (event : MessageEvent) : M unit :=
  try_catch
    (eventData ← JSON_parse event;
     setStreamedEventsByStep (append_event 3 eventData);;
     type ← lift (get eventData (lit "type"));
     if strict_eq_str type (lit "report_complete") then
       setReportResponse eventData;;
       setReportFilePath (js_or (prop eventData (lit "file_path")) JNull);;
       setCompletedSteps (fun prev => prev ∪ {[3%Z]});;
       setIsSubmitting false;;
       ws_close 3
     else skip)
    (fun _ => skip).
End Handlers.

(** [ws.onerror] of the four handlers. Logging and toasts leave the
    state alone. *)
Definition sourcing_onerror : M unit := setShowStreamingPanel false.
Definition screening_onerror : M unit := setShowStreamingPanel false.
Definition risk_onerror : M unit := skip.
Definition report_onerror : M unit :=
  setIsSubmitting false;;
  setShowStreamingPanel false.

(** [ws.onclose] of the handlers. *)
Definition sourcing_onclose : M unit :=
  setShowStreamingPanel false;;
  setIsSubmitting false.
Definition screening_onclose : M unit :=
  setShowStreamingPanel false;;
  setIsSubmitting false.
Definition risk_onclose : M unit :=
  setShowStreamingPanel false;;
  setIsSubmitting false.
Definition report_onclose : M unit :=
  setShowStreamingPanel false;;
  setIsSubmitting false.

(** The four steps of the workflow and their sockets. *)
Inductive Step := Sourcing | Screening | RiskAnalysis | Reporting.

#[global] Instance Step_eq_dec : EqDecision Step.
Proof. solve_decision. Defined.

Definition step_index (s : Step) : Z :=
  match s with Sourcing => 0 | Screening => 1 | RiskAnalysis => 2 | Reporting => 3 end.

Definition onmessage `{Runtime} (s : Step) : MessageEvent -> M unit :=
  match s with
  | Sourcing => sourcing_onmessage
  | Screening => screening_onmessage
  | RiskAnalysis => risk_onmessage
  | Reporting => report_onmessage
  end.

Definition onerror (s : Step) : M unit :=
  match s with
  | Sourcing => sourcing_onerror
  | Screening => screening_onerror
  | RiskAnalysis => risk_onerror
  | Reporting => report_onerror
  end.

Definition onclose (s : Step) : M unit :=
  match s with
  | Sourcing => sourcing_onclose
  | Screening => screening_onclose
  | RiskAnalysis => risk_onclose
  | Reporting => report_onclose
  end.

(** What each [handle...] function does to the state once its guards
    have passed and before it opens the socket of step [k]. *)
Definition start_stream (s : Step) : M unit :=
  let k := step_index s in
  setIsSubmitting true;;
  match s with
  | Sourcing => setFilterResponse JNull
  | Screening => setScreeningResponse JNull
  | RiskAnalysis => setRiskAnalysisResponse JNull
  | Reporting => setReportResponse JNull
  end;;
  setStreamedEventsByStep (fun prev => <[k := []]> prev);;
  setShowStreamingPanel true;;
  setShowAccordionStep (Some k);;
  match s with
  | Screening => update (with_agentThinkingSteps (fun _ => []))
  | _ => skip
  end;;
  update (with_closedSockets (fun c => c ∖ {[k]})).

(** *** Step gating *)

Section Gating.
Context `{Runtime}.

(** [guard && list.length > 0]: the comparison is evaluated, and can
    throw, only when the guard is truthy. *)
Definition and_length_gt_zero (guard list : JsVal) : Res JsVal :=
  if truthy guard then
    match length_gt_zero list with
    | Ok b => Ok (JBool b)
    | Throw e => Throw e
    end
  else Ok guard.

Definition canProceedStep (st : State) : Res JsVal :=
  if (currentStep st =? 0)%Z then
    let r := filterResponse st in
    and_length_gt_zero
      (js_and (js_and r (prop r (lit "companies")))
              (prop (prop r (lit "companies")) (lit "qualified")))
      (prop (prop r (lit "companies")) (lit "qualified"))
  else if (currentStep st =? 1)%Z then
    let r := screeningResponse st in
    and_length_gt_zero (js_and r (prop r (lit "company_details")))
      (prop r (lit "company_details"))
  else if (currentStep st =? 2)%Z then
    let r := riskAnalysisResponse st in
    and_length_gt_zero (js_and r (prop r (lit "all_companies")))
      (prop r (lit "all_companies"))
  else if (currentStep st =? 3)%Z then Ok (JBool true)
  else Ok (JBool false).

(** An exception of [canProceedStep] leaves the handler before it sets
    anything. *)
Definition nextStep (st : State) : State :=
  match canProceedStep st with
  | Ok proceed =>
      if truthy proceed && (currentStep st <? 3)%Z then
        run (setShowStreamingPanel false;; setCurrentStep (currentStep st + 1)) st
      else st
  | Throw _ => st
  end.
End Gating.

Definition prevStep (st : State) : State :=
  if (0 <? currentStep st)%Z then
    run (setShowStreamingPanel false;; setCurrentStep (currentStep st - 1)) st
  else st.

Definition nonempty (l : list JsVal) : bool := negb (Nat.eqb (length l) 0).

Definition canNavigateToStep (p : Params) (st : State) (index : Z) : JsVal :=
  if (index =? 0)%Z then JBool true
  else if (index =? 1)%Z then
    js_and (JBool (nonempty (sourcingList p)))
           (get_opt (get_opt (filterResponse st) (lit "companies")) (lit "qualified"))
  else if (index =? 2)%Z then
    js_and (JBool (nonempty (screeningList p)))
           (get_opt (screeningResponse st) (lit "company_details"))
  else if (index =? 3)%Z then
    js_and (JBool (nonempty (riskAnalysisList p)))
           (get_opt (riskAnalysisResponse st) (lit "all_companies"))
  else JBool false.

Definition resetScreening : M unit :=
  setScreeningResponse JNull;;
  setExpandedScreeningResults ∅;;
  setSelectedCompanies ∅.

Definition resetRiskAnalysis : M unit := setRiskAnalysisResponse JNull.

Definition handleResetStep (index : Z) : M unit :=
  (if (index =? 0)%Z then
     setFilterResponse JNull;;
     setScreeningResponse JNull;;
     setRiskAnalysisResponse JNull;;
     setReportResponse JNull;;
     setReportFilePath JNull;;
     setIsSubmitting false;;
     setShowStreamingPanel false;;
     setStreamedEventsByStep (fun _ => no_events);;
     setSelectedCompanies ∅;;
     setExpandedScreeningResults ∅;;
     setCompletedSteps (fun prev => prev ∖ {[0%Z]} ∖ {[1%Z]} ∖ {[2%Z]} ∖ {[3%Z]})
   else if (index =? 1)%Z then
     resetScreening;;
     setRiskAnalysisResponse JNull;;
     setReportResponse JNull;;
     setReportFilePath JNull;;
     setShowStreamingPanel false;;
     setStreamedEventsByStep (fun prev => <[1%Z := []]> (<[2%Z := []]> (<[3%Z := []]> prev)));;
     setCompletedSteps (fun prev => prev ∖ {[1%Z]} ∖ {[2%Z]} ∖ {[3%Z]})
   else if (index =? 2)%Z then
     resetRiskAnalysis;;
     setReportResponse JNull;;
     setReportFilePath JNull;;
     setShowStreamingPanel false;;
     setStreamedEventsByStep (fun prev => <[2%Z := []]> (<[3%Z := []]> prev));;
     setCompletedSteps (fun prev => prev ∖ {[2%Z]} ∖ {[3%Z]})
   else skip);;
  setCurrentStep index;;
  setShowAccordionStep None.

(** *** Normalisers of the risk payload *)

(** [val?.a ?? val?.b ?? val?.c ?? ''] *)
Definition pick3 (val : JsVal) (a b c : jstring) : JsVal :=
  js_coalesce (js_coalesce (js_coalesce (get_opt val a) (get_opt val b)) (get_opt val c))
              (JStr []).

Definition risk_record (entry : jstring * JsVal) : JsVal :=
  let '(category, val) := entry in
  JObj [(lit "category", JStr category);
        (lit "status", pick3 val (lit "status") (lit "Status") (lit "status_text"));
        (lit "reason", pick3 val (lit "reason") (lit "Reason") (lit "reason_text"))].

(** [Array.isArray(v) && v.length > 0] *)
Definition is_nonempty_array (v : JsVal) : bool :=
  match v with JArr l => nonempty l | _ => false end.

Definition getRiskScores (company : JsVal) : JsVal :=
  if negb (truthy company) then JArr []
  else if is_nonempty_array (prop company (lit "risk_scores"))
  then prop company (lit "risk_scores")
  else
    let pa := js_or (js_or (prop company (lit "parameter_analysis"))
                           (prop company (lit "parameterAnalysis")))
                    (JObj []) in
    JArr (map risk_record (Object_entries (js_or pa (JObj [])))).

Definition getOverall (company : JsVal) : JsVal :=
  js_or (js_or (js_or (js_or (js_or (get_opt company (lit "overall_result"))
                                    (get_opt company (lit "overallResult")))
                             (get_opt company (lit "overall_status")))
                      (get_opt company (lit "overallStatus")))
               (get_opt company (lit "overall")))
        (JStr []).

(** *** CSV export *)

Definition comma : N := 44.
Definition dquote : N := 34.
Definition newline : N := 10.

(** The [replace] of [escapeCSV]: every double quote becomes two. *)
Fixpoint double_quotes (value : jstring) : jstring :=
  match value with
  | [] => []
  | c :: rest =>
      if (c =? dquote)%N then dquote :: dquote :: double_quotes rest
      else c :: double_quotes rest
  end.

(** [escapeCSV] of [exportRiskAnalysisToCSV] *)
Definition escapeCSV (value : jstring) : jstring :=
  if includes comma value || includes dquote value || includes newline value
  then [dquote] ++ double_quotes value ++ [dquote]
  else value.

(** *** Aggregation of streamed events *)

Section Aggregation.
Context `{Runtime}.

(** The callback of [newEvents.map]: the item an event contributes, if
    any. *)
Definition clean_event (event : JsVal) : Res (option ThinkingItem) :=
  if is_nullish event then Throw TypeError
  else
    let content := js_or (js_or (prop event (lit "content")) (prop event (lit "message")))
                         (JStr []) in
    let eventType := js_or (prop event (lit "type")) (JStr (lit "agent_thinking")) in
    match match content with
          | JStr c => Ok (clean_text c)
          | _ => ToString content
          end with
    | Throw e => Throw e
    | Ok clean =>
        Ok (if truthy (JStr clean)
            then Some {| item_type := eventType; item_content := clean |}
            else None)
    end.

(** [newEvents.map(...).filter(Boolean)], stopping at the first
    callback that throws. *)
Fixpoint clean_events (events : list JsVal) : Res (list ThinkingItem) :=
  match events with
  | [] => Ok []
  | e :: rest =>
      match clean_event e with
      | Throw err => Throw err
      | Ok item =>
          match clean_events rest with
          | Throw err => Throw err
          | Ok items => Ok (match item with Some i => i :: items | None => items end)
          end
      end
  end.

(** The effect that runs when [streamingEvents] or [currentStep]
    changes. An exception inside it is caught and logged. *)
Definition aggregation_effect (st : State) : State :=
  let step := currentStep st in
  let streamingEvents := events_of (streamedEventsByStep st) step in
  let prevCount := default 0%nat (lastProcessedStreamingCountByStep st !! step) in
  if Nat.eqb (length streamingEvents) 0 then
    with_lastProcessedStreamingCountByStep (fun c => <[step := 0%nat]> c)
      (with_aggregatedThinkingByStep (fun prev => <[step := []]> prev) st)
  else if (prevCount <? length streamingEvents)%nat then
    match clean_events (drop prevCount streamingEvents) with
    | Throw _ => st
    | Ok newEventData =>
        with_lastProcessedStreamingCountByStep
          (fun c => <[step := length streamingEvents]> c)
          (match newEventData with
           | [] => st
           | _ :: _ =>
               with_aggregatedThinkingByStep
                 (fun prev => <[step := default [] (prev !! step) ++ newEventData]> prev) st
           end)
    end
  else st.
End Aggregation.

(** *** Navigation by the step buttons *)

Definition isStepCompleted (st : State) (index : Z) : bool :=
  bool_decide (index ∈ completedSteps st).

(** The [onClick] of the button of step [index] in the step bar. *)
Definition navigateToStep (p : Params) (index : Z) (st : State) : State :=
  if truthy (canNavigateToStep p st index)
  then run (setShowAccordionStep None;; setCurrentStep index) st
  else st.

(** *** Selection of sourced companies *)

(** The truthiness of [selected[index]] in a [Record<number, boolean>]. *)
Definition is_selected (selected : gmap Z bool) (index : Z) : bool :=
  default false (selected !! index).

(** [{ ...prev, [index]: !prev[index] }] *)
Definition toggle_index (index : Z) (prev : gmap Z bool) : gmap Z bool :=
  <[index := negb (is_selected prev index)]> prev.

Definition toggleCompanySelect (index : Z) : M unit :=
  update (with_selectedCompanies (toggle_index index)).

Definition toggleScreeningResult (index : Z) : M unit :=
  update (with_expandedScreeningResults (toggle_index index)).

(** The object [onSelectAll] builds with [forEach]: every index below [n]
    set to [true]. *)
Fixpoint select_below (n : nat) : gmap Z bool :=
  match n with
  | O => ∅
  | S k => <[Z.of_nat k := true]> (select_below k)
  end.

(** [onSelectAll] of the table of sourced companies. *)
Definition onSelectAll (checked : bool) : M unit :=
  if checked then
    response ← read filterResponse;
    companies ← lift (get response (lit "companies"));
    qualified ← lift (get companies (lit "qualified"));
    match qualified with
    | JArr l => setSelectedCompanies (select_below (length l))
    | _ => lift (Throw TypeError)
    end
  else setSelectedCompanies ∅.

(** [l.filter((_, index) => p(index))] *)
Fixpoint filter_indexed {A : Type} (p : nat -> bool) (i : nat) (l : list A) : list A :=
  match l with
  | [] => []
  | x :: rest =>
      if p i then x :: filter_indexed p (S i) rest else filter_indexed p (S i) rest
  end.

Definition getSelectedCompanyList (st : State) : Res (list JsVal) :=
  let qualified :=
    get_opt (get_opt (filterResponse st) (lit "companies")) (lit "qualified") in
  if negb (truthy qualified) then Ok []
  else match qualified with
       | JArr l =>
           Ok (filter_indexed
                 (fun index => is_selected (selectedCompanies st) (Z.of_nat index)) 0 l)
       | _ => Throw TypeError
       end.

(** *** The CSV document of the risk analysis *)

(** [parts.join(sep)] on strings. *)
Fixpoint join (sep : jstring) (parts : list jstring) : jstring :=
  match parts with
  | [] => []
  | part :: rest =>
      match rest with
      | [] => part
      | _ :: _ => part ++ sep ++ join sep rest
      end
  end.

Definition csv_headers : list jstring :=
  [lit "S.No."; lit "Company Name"; lit "Overall Status"; lit "Category";
   lit "Status"; lit "Reason"].

(** One row pushed by [exportRiskAnalysisToCSV]. [String(rowNumber++)]
    is the decimal numeral of the counter. *)
Definition export_row (rowNumber : nat) (company risk : JsVal) : Res (list JsVal) :=
  if is_nullish company then Throw TypeError
  else if is_nullish risk then Throw TypeError
  else Ok [JStr (index_key rowNumber);
           prop company (lit "company_name");
           js_coalesce (getOverall company) (JStr []);
           prop risk (lit "category");
           js_coalesce (prop risk (lit "status")) (JStr []);
           js_coalesce (prop risk (lit "reason")) (JStr [])].

(** The inner [forEach] over the risk records of one company. *)
Fixpoint export_risks (rowNumber : nat) (company : JsVal) (risks : list JsVal)
  : Res (list (list JsVal)) :=
  match risks with
  | [] => Ok []
  | risk :: rest =>
      match export_row rowNumber company risk with
      | Throw e => Throw e
      | Ok row =>
          match export_risks (S rowNumber) company rest with
          | Throw e => Throw e
          | Ok rows => Ok (row :: rows)
          end
      end
  end.

(** The outer [forEach] over the companies, [rowNumber] being the number
    of the next row. *)
Fixpoint export_companies (rowNumber : nat) (companies : list JsVal)
  : Res (list (list JsVal)) :=
  match companies with
  | [] => Ok []
  | company :: rest =>
      match getRiskScores company with
      | JArr risks =>
          match export_risks rowNumber company risks with
          | Throw e => Throw e
          | Ok rows =>
              match export_companies (rowNumber + length rows) rest with
              | Throw e => Throw e
              | Ok more => Ok (rows ++ more)
              end
          end
      | _ => Throw TypeError
      end
  end.

(** [array.includes(s)] for a string [s]. *)
Definition array_includes (s : jstring) (l : list JsVal) : bool :=
  existsb (fun v => strict_eq_str v s) l.

(** [escapeCSV] applied to whatever a cell holds: a string is escaped; an
    array has [includes] but no [replace]; anything else has neither. *)
Definition escape_cell (value : JsVal) : Res JsVal :=
  match value with
  | JStr s => Ok (JStr (escapeCSV s))
  | JArr l =>
      if array_includes [comma] l || array_includes [dquote] l
         || array_includes [newline] l
      then Throw TypeError
      else Ok value
  | _ => Throw TypeError
  end.

Fixpoint escape_cells (row : list JsVal) : Res (list JsVal) :=
  match row with
  | [] => Ok []
  | value :: rest =>
      match escape_cell value with
      | Throw e => Throw e
      | Ok cell =>
          match escape_cells rest with
          | Throw e => Throw e
          | Ok cells => Ok (cell :: cells)
          end
      end
  end.

Section CsvExport.
Context `{Runtime}.

(** What [join] prints of one element. *)
Definition join_text (v : JsVal) : Res jstring :=
  if is_nullish v then Ok [] else ToString v.

Fixpoint join_texts (cells : list JsVal) : Res (list jstring) :=
  match cells with
  | [] => Ok []
  | cell :: rest =>
      match join_text cell with
      | Throw e => Throw e
      | Ok text =>
          match join_texts rest with
          | Throw e => Throw e
          | Ok texts => Ok (text :: texts)
          end
      end
  end.

(** [row.map(escapeCSV).join(',')] *)
Definition csv_line (row : list JsVal) : Res jstring :=
  match escape_cells row with
  | Throw e => Throw e
  | Ok cells =>
      match join_texts cells with
      | Throw e => Throw e
      | Ok texts => Ok (join [comma] texts)
      end
  end.

Fixpoint csv_lines (rows : list (list JsVal)) : Res (list jstring) :=
  match rows with
  | [] => Ok []
  | row :: rest =>
      match csv_line row with
      | Throw e => Throw e
      | Ok line =>
          match csv_lines rest with
          | Throw e => Throw e
          | Ok lines => Ok (line :: lines)
          end
      end
  end.

(** [csvContent]: the header line and the lines of the rows, joined by
    newlines. *)
Definition csvContent (rows : list (list JsVal)) : Res jstring :=
  match csv_lines (map JStr csv_headers :: rows) with
  | Throw e => Throw e
  | Ok lines => Ok (join [newline] lines)
  end.

(** What [exportRiskAnalysisToCSV] ends with: the toast that there is no
    data, the download of the document, or the toast that the export
    failed (an exception inside its [try]). *)
Inductive ExportOutcome :=
| NoData
| Downloaded (content : jstring)
| ExportFailed.

Definition exportRiskAnalysisToCSV (st : State) : ExportOutcome :=
  let all_companies := get_opt (riskAnalysisResponse st) (lit "all_companies") in
  if negb (truthy all_companies) then NoData
  else match all_companies with
       | JArr companies =>
           match export_companies 1 companies with
           | Throw _ => ExportFailed
           | Ok rows =>
               match csvContent rows with
               | Throw _ => ExportFailed
               | Ok content => Downloaded content
               end
           end
       | _ => ExportFailed
       end.
End CsvExport.

(** *** The link to a generated report *)

(** [/\\|\//]: a backslash or a slash. *)
Definition is_path_separator (c : N) : bool := (c =? 92)%N || (c =? 47)%N.

(** [s.split(re)] for an expression that matches single characters:
    [cur] is the part being read. *)
Fixpoint split_on (p : N -> bool) (cur : jstring) (s : jstring) : list jstring :=
  match s with
  | [] => [cur]
  | c :: rest =>
      if p c then cur :: split_on p [] rest else split_on p (cur ++ [c]) rest
  end.

(** The characters [encodeURIComponent] leaves as they are: letters,
    digits and [- _ . ! ~ * ' ( )]. *)
Definition is_uri_unreserved (c : N) : bool :=
  in_range 48 57 c || in_range 65 90 c || in_range 97 122 c
  || existsb (N.eqb c) [45; 95; 46; 33; 126; 42; 39; 40; 41]%N.

Definition hex_digit (n : N) : N := if (n <? 10)%N then (48 + n)%N else (55 + n)%N.

(** [%XX] for an octet. *)
Definition percent (octet : N) : jstring :=
  [37%N; hex_digit (octet / 16); hex_digit (octet mod 16)].

(** The octets of a code point in UTF-8. *)
Definition utf8 (cp : N) : list N :=
  if (cp <? 128)%N then [cp]
  else if (cp <? 2048)%N then [192 + cp / 64; 128 + cp mod 64]%N
  else if (cp <? 65536)%N
  then [224 + cp / 4096; 128 + (cp / 64) mod 64; 128 + cp mod 64]%N
  else [240 + cp / 262144; 128 + (cp / 4096) mod 64; 128 + (cp / 64) mod 64;
        128 + cp mod 64]%N.

(** [encodeURIComponent(s)]; [None] for the [URIError] it throws on a
    surrogate that is not part of a pair. *)
Fixpoint encodeURIComponent (s : jstring) : option jstring :=
  match s with
  | [] => Some []
  | c :: rest =>
      if is_uri_unreserved c then
        match encodeURIComponent rest with
        | Some encoded => Some (c :: encoded)
        | None => None
        end
      else if is_high_surrogate c then
        match rest with
        | d :: rest' =>
            if is_low_surrogate d then
              match encodeURIComponent rest' with
              | Some encoded =>
                  Some (flat_map percent (utf8 (code_point c d)) ++ encoded)
              | None => None
              end
            else None
        | [] => None
        end
      else if is_low_surrogate c then None
      else
        match encodeURIComponent rest with
        | Some encoded => Some (flat_map percent (utf8 c) ++ encoded)
        | None => None
        end
  end.

(** What [openReportInBrowser] ends with: the toast that there is no
    path, or a call of [window.open], with the address of the file on
    the server or, from the [catch], with the path as it is. *)
Inductive ReportAction :=
| NoReportPath
| OpenFile (url : jstring)
| OpenRawPath (filePath : JsVal).

(** [filePath] is the [reportFilePath] of the state. A value that is
    not a string has no [split], and a file name with a lone surrogate
    cannot be encoded: both exceptions end in the [catch]. *)
Definition openReportInBrowser (filePath : JsVal) : ReportAction :=
  if negb (truthy filePath) then NoReportPath
  else match filePath with
       | JStr path =>
           let parts := split_on is_path_separator [] path in
           let filename := List.last parts [] in
           match encodeURIComponent filename with
           | Some encoded => OpenFile (API.makeUrl (lit "/report/files/" ++ encoded))
           | None => OpenRawPath filePath
           end
       | _ => OpenRawPath filePath
       end.

End SourcingAgent.

(** ** The FundMandate page *)

Module FundMandate.
Import SourcingAgent.

(** What the page reads of a [File]. *)
Record File := {
  file_type : jstring;
  file_size : N
}.

Definition allowedTypes : list jstring := [lit "application/pdf"].
Definition maxSize : N := 10 * 1024 * 1024.

(** The error message of a rejected file, or [None] for [null]. *)
Definition validateFile (file : File) : option jstring :=
  if negb (existsb (str_eqb (file_type file)) allowedTypes)
  then Some (lit "Only PDF files are allowed")
  else if (maxSize <? file_size file)%N
  then Some (lit "File size must be less than 10MB")
  else None.

(** The cells the aggregation effect of this page works on. *)
Record Stream := {
  streamingEvents : list JsVal;
  aggregatedThinking : list ThinkingItem;
  lastProcessedStreamingCount : nat
}.

(** The cells of a freshly mounted page. *)
Definition initial_stream : Stream :=
  {| streamingEvents := [];
     aggregatedThinking := [];
     lastProcessedStreamingCount := 0 |}.

Definition aggregation_effect `{Runtime} (st : Stream) : Stream :=
  let prevCount := lastProcessedStreamingCount st in
  if Nat.eqb (length (streamingEvents st)) 0 then
    {| streamingEvents := streamingEvents st;
       aggregatedThinking := [];
       lastProcessedStreamingCount := 0 |}
  else if (prevCount <? length (streamingEvents st))%nat then
    match clean_events (drop prevCount (streamingEvents st)) with
    | Throw _ => st
    | Ok newEventData =>
        {| streamingEvents := streamingEvents st;
           aggregatedThinking :=
             match newEventData with
             | [] => aggregatedThinking st
             | _ :: _ => aggregatedThinking st ++ newEventData
             end;
           lastProcessedStreamingCount := length (streamingEvents st) |}
    end
  else st.

End FundMandate.

(** ** The AgentThinkingAccordion component *)

Module AgentThinkingAccordion.

(** [EventItem]: an object [{ type, content }] or a bare string. *)
Inductive EventItem :=
| ItemString (s : jstring)
| ItemObject (type content : jstring).

Definition getEventContent (item : EventItem) : jstring :=
  match item with
  | ItemString s => s
  | ItemObject _ content => content
  end.

(** The second [replace] of [getEventType]: a word character at a word
    boundary is upper-cased. [prev] tells whether the preceding
    character is a word character. *)
Fixpoint capitalize_words (prev : bool) (s : jstring) : jstring :=
  match s with
  | [] => []
  | c :: rest =>
      (if is_word c && negb prev then upper_ascii c else c)
        :: capitalize_words (is_word c) rest
  end.

Definition underscores_to_spaces (s : jstring) : jstring :=
  map (fun c => if (c =? 95)%N then 32%N else c) s.

Definition getEventType (item : EventItem) : jstring :=
  match item with
  | ItemString _ => lit "Agent Thinking"
  | ItemObject type _ =>
      if truthy (JStr type)
      then capitalize_words false (underscores_to_spaces type)
      else lit "Agent Thinking"
  end.

(** One turn of the loop of [groupedThinking] on [(groups, currentGroup)]. *)
Definition group_step (acc : list (list EventItem) * list EventItem) (item : EventItem)
  : list (list EventItem) * list EventItem :=
  let '(groups, currentGroup) := acc in
  match currentGroup with
  | [] => (groups, [item])
  | first :: _ =>
      if str_eqb (getEventType item) (getEventType first)
      then (groups, currentGroup ++ [item])
      else (groups ++ [currentGroup], [item])
  end.

Definition groupedThinking (aggregatedThinking : list EventItem)
  : list (list EventItem) :=
  let '(groups, currentGroup) := fold_left group_step aggregatedThinking ([], []) in
  match currentGroup with
  | [] => groups
  | _ :: _ => groups ++ [currentGroup]
  end.

(** The effect with the dependency [groupedThinking.length], on a
    render that takes the list from [old] to [new]: it runs when the
    number of groups has changed, and then expands the last group. *)
Definition expand_effect (old new : list EventItem) (expandedGroupIndex : option nat)
  : option nat :=
  let n := length (groupedThinking new) in
  if Nat.eqb n (length (groupedThinking old)) then expandedGroupIndex
  else if (0 <? n)%nat then Some (n - 1)%nat
  else expandedGroupIndex.

Definition toggleGroupAccordion (groupIdx : nat) (expandedGroupIndex : option nat)
  : option nat :=
  if bool_decide (expandedGroupIndex = Some groupIdx) then None else Some groupIdx.

End AgentThinkingAccordion.

(** ** Display lists of mandate parameters *)

Module DisplayArray.
Import AgentThinkingAccordion.

(** [k.replace(/_/g, ' ').replace(/\b\w/g, l => l.toUpperCase())] *)
Definition title_key (k : jstring) : jstring :=
  capitalize_words false (underscores_to_spaces k).

(** [{ key, value }] *)
Definition display_entry (key value : jstring) : JsVal :=
  JObj [(lit "key", JStr key); (lit "value", JStr value)].

Section WithRuntime.
Context `{Runtime}.

(** The callback [toDisplayArray] maps over an array. [typeof] is
    ['object'] for [null] too, on which [Object.entries] throws; the
    key of an entry is a string, its value is converted and can
    throw. *)
Definition display_item (item : JsVal) : Res JsVal :=
  match item with
  | JStr s => Ok (display_entry s [])
  | JNull => Throw TypeError
  | JArr _ | JObj _ =>
      match Object_entries item with
      | (k, v) :: _ =>
          match ToString (js_coalesce v (JStr [])) with
          | Throw e => Throw e
          | Ok value => Ok (display_entry k value)
          end
      | [] => Ok (display_entry [] [])
      end
  | JUndefined | JBool _ | JNum _ =>
      match ToString item with
      | Throw e => Throw e
      | Ok key => Ok (display_entry key [])
      end
  end.

Fixpoint display_items (items : list JsVal) : Res (list JsVal) :=
  match items with
  | [] => Ok []
  | item :: rest =>
      match display_item item with
      | Throw e => Throw e
      | Ok entry =>
          match display_items rest with
          | Throw e => Throw e
          | Ok entries => Ok (entry :: entries)
          end
      end
  end.

(** The callback [toDisplayArray] maps over the entries of an
    object. *)
Definition display_property (kv : jstring * JsVal) : Res JsVal :=
  match ToString (snd kv) with
  | Throw e => Throw e
  | Ok value => Ok (display_entry (title_key (fst kv)) value)
  end.

Fixpoint display_properties (props : list (jstring * JsVal)) : Res (list JsVal) :=
  match props with
  | [] => Ok []
  | kv :: rest =>
      match display_property kv with
      | Throw e => Throw e
      | Ok entry =>
          match display_properties rest with
          | Throw e => Throw e
          | Ok entries => Ok (entry :: entries)
          end
      end
  end.

Definition toDisplayArray (obj : JsVal) : Res JsVal :=
  if negb (truthy obj) then Ok (JArr [])
  else match obj with
       | JArr items =>
           match display_items items with
           | Throw e => Throw e
           | Ok entries => Ok (JArr entries)
           end
       | JObj props =>
           match display_properties props with
           | Throw e => Throw e
           | Ok entries => Ok (JArr entries)
           end
       | _ =>
           match ToString obj with
           | Throw e => Throw e
           | Ok key => Ok (JArr [display_entry key []])
           end
       end.

(** [formatValue] *)
Definition formatValue (value : JsVal) : Res jstring :=
  if is_nullish value then Ok (lit "-") else ToString value.
End WithRuntime.

End DisplayArray.

(** ** The FundMandate page: editing the extracted parameters *)

Module MandateParams.

Inductive ParamSection := SourcingSection | ScreeningSection | RiskSection.

#[global] Instance ParamSection_eq_dec : EqDecision ParamSection.
Proof. solve_decision. Defined.

(** The cells [handleAddParameter] and [handleDeleteParameter] work on.
    A [Record<string, string>] is a finite map from names to values. *)
Record Editor := {
  editedParamsBySubprocess : gmap jstring (gmap jstring jstring);
  editedSourcingParams : gmap jstring jstring;
  editedScreeningParams : gmap jstring jstring;
  editedRiskParams : gmap jstring jstring;
  addParamModalOpen : bool;
  addParamSection : option ParamSection;
  addParamSubprocessName : jstring;
  newParamName : jstring;
  newParamValue : jstring
}.

Definition handleOpenAddParamModal (section : ParamSection) (subprocessName : jstring)
  (ed : Editor) : Editor :=
  {| editedParamsBySubprocess := editedParamsBySubprocess ed;
     editedSourcingParams := editedSourcingParams ed;
     editedScreeningParams := editedScreeningParams ed;
     editedRiskParams := editedRiskParams ed;
     addParamModalOpen := true;
     addParamSection := Some section;
     addParamSubprocessName := subprocessName;
     newParamName := [];
     newParamValue := [] |}.

(** [prev[name] || {}] *)
Definition params_of (prev : gmap jstring (gmap jstring jstring)) (name : jstring)
  : gmap jstring jstring :=
  default ∅ (prev !! name).

Definition handleAddParameter (ed : Editor) : Editor :=
  if negb (truthy (JStr (trim (newParamName ed)))) then ed
  else
    let paramKey := trim (newParamName ed) in
    let paramValue := trim (newParamValue ed) in
    let sub := addParamSubprocessName ed in
    {| editedParamsBySubprocess :=
         if truthy (JStr sub)
         then <[sub := <[paramKey := paramValue]> (params_of (editedParamsBySubprocess ed) sub)]>
                (editedParamsBySubprocess ed)
         else editedParamsBySubprocess ed;
       editedSourcingParams :=
         match addParamSection ed with
         | Some SourcingSection => <[paramKey := paramValue]> (editedSourcingParams ed)
         | _ => editedSourcingParams ed
         end;
       editedScreeningParams :=
         match addParamSection ed with
         | Some ScreeningSection => <[paramKey := paramValue]> (editedScreeningParams ed)
         | _ => editedScreeningParams ed
         end;
       editedRiskParams :=
         match addParamSection ed with
         | Some RiskSection => <[paramKey := paramValue]> (editedRiskParams ed)
         | _ => editedRiskParams ed
         end;
       addParamModalOpen := false;
       addParamSection := addParamSection ed;
       addParamSubprocessName := addParamSubprocessName ed;
       newParamName := [];
       newParamValue := [] |}.

(** What [handleDeleteParameter] does to the parameters of one
    subprocess: the key is deleted from a copy when it is there. *)
Definition delete_param (paramKey : jstring) (params : gmap jstring jstring)
  : gmap jstring jstring :=
  match params !! paramKey with
  | Some _ => delete paramKey params
  | None => params
  end.

Definition handleDeleteParameter (section : ParamSection) (paramKey : jstring)
  (ed : Editor) : Editor :=
  {| editedParamsBySubprocess := delete_param paramKey <$> editedParamsBySubprocess ed;
     editedSourcingParams :=
       match section with
       | SourcingSection => delete paramKey (editedSourcingParams ed)
       | _ => editedSourcingParams ed
       end;
     editedScreeningParams :=
       match section with
       | ScreeningSection => delete paramKey (editedScreeningParams ed)
       | _ => editedScreeningParams ed
       end;
     editedRiskParams :=
       match section with
       | RiskSection => delete paramKey (editedRiskParams ed)
       | _ => editedRiskParams ed
       end;
     addParamModalOpen := addParamModalOpen ed;
     addParamSection := addParamSection ed;
     addParamSubprocessName := addParamSubprocessName ed;
     newParamName := newParamName ed;
     newParamValue := newParamValue ed |}.

End MandateParams.

(** ** The FundMandate page: the upload form and its parse stream *)

Module MandateForm.
Import FundMandate.

(** The cells of the form, of the parse stream and of its socket. *)
Record Form := {
  selectedFile : option File;
  description : jstring;
  error_file : option jstring;
  error_description : option jstring;
  isSubmitting : bool;
  isSubmitted : bool;
  isAnalyzing : bool;
  pendingSubmitData : option (File * jstring);
  parsedResult : JsVal;
  apiError : option jstring;
  streamingEvents : list JsVal;
  showStreamingPanel : bool;
  socketClosed : bool
}.

Definition initial_form : Form := {|
  selectedFile := None;
  description := [];
  error_file := None;
  error_description := None;
  isSubmitting := false;
  isSubmitted := false;
  isAnalyzing := false;
  pendingSubmitData := None;
  parsedResult := JNull;
  apiError := None;
  streamingEvents := [];
  showStreamingPanel := false;
  socketClosed := false
|}.

Definition handleFileSelect (file : File) (fm : Form) : Form :=
  match validateFile file with
  | Some error =>
      {| selectedFile := selectedFile fm; description := description fm;
         error_file := Some error; error_description := error_description fm;
         isSubmitting := isSubmitting fm; isSubmitted := isSubmitted fm;
         isAnalyzing := isAnalyzing fm; pendingSubmitData := pendingSubmitData fm;
         parsedResult := parsedResult fm; apiError := apiError fm;
         streamingEvents := streamingEvents fm;
         showStreamingPanel := showStreamingPanel fm; socketClosed := socketClosed fm |}
  | None =>
      {| selectedFile := Some file; description := description fm;
         error_file := None; error_description := error_description fm;
         isSubmitting := isSubmitting fm; isSubmitted := false;
         isAnalyzing := isAnalyzing fm; pendingSubmitData := pendingSubmitData fm;
         parsedResult := parsedResult fm; apiError := apiError fm;
         streamingEvents := streamingEvents fm;
         showStreamingPanel := showStreamingPanel fm; socketClosed := socketClosed fm |}
  end.

(** [handleFileInput]: the first file of the input, if any. *)
Definition handleFileInput (files : list File) (fm : Form) : Form :=
  match files with
  | file :: _ => handleFileSelect file fm
  | [] => fm
  end.

Definition handleDescriptionChange (value : jstring) (fm : Form) : Form :=
  {| selectedFile := selectedFile fm; description := value;
     error_file := error_file fm; error_description := None;
     isSubmitting := isSubmitting fm; isSubmitted := false;
     isAnalyzing := isAnalyzing fm; pendingSubmitData := pendingSubmitData fm;
     parsedResult := parsedResult fm; apiError := apiError fm;
     streamingEvents := streamingEvents fm;
     showStreamingPanel := showStreamingPanel fm; socketClosed := socketClosed fm |}.

(** [handleSubmit] up to its first [await]: the validation, and what it
    sets when the validation passes. *)
Definition handleSubmit (fm : Form) : Form :=
  let newError_file :=
    match selectedFile fm with
    | None => Some (lit "Please select a PDF file")
    | Some _ => None
    end in
  let newError_description :=
    if negb (truthy (JStr (trim (description fm))))
    then Some (lit "Please provide a description")
    else None in
  match selectedFile fm, newError_file, newError_description with
  | Some file, None, None =>
      {| selectedFile := selectedFile fm; description := description fm;
         error_file := error_file fm; error_description := error_description fm;
         isSubmitting := isSubmitting fm; isSubmitted := isSubmitted fm;
         isAnalyzing := true;
         pendingSubmitData := Some (file, trim (description fm));
         parsedResult := parsedResult fm; apiError := apiError fm;
         streamingEvents := streamingEvents fm;
         showStreamingPanel := showStreamingPanel fm; socketClosed := socketClosed fm |}
  | _, _, _ =>
      {| selectedFile := selectedFile fm; description := description fm;
         error_file := newError_file; error_description := newError_description;
         isSubmitting := isSubmitting fm; isSubmitted := isSubmitted fm;
         isAnalyzing := isAnalyzing fm; pendingSubmitData := pendingSubmitData fm;
         parsedResult := parsedResult fm; apiError := apiError fm;
         streamingEvents := streamingEvents fm;
         showStreamingPanel := showStreamingPanel fm; socketClosed := socketClosed fm |}
  end.

(** What [proceedWithNormalFlow] sets before it uploads the file. *)
Definition start_parse (fm : Form) : Form :=
  {| selectedFile := selectedFile fm; description := description fm;
     error_file := error_file fm; error_description := error_description fm;
     isSubmitting := true; isSubmitted := false;
     isAnalyzing := isAnalyzing fm; pendingSubmitData := pendingSubmitData fm;
     parsedResult := JNull; apiError := None;
     streamingEvents := [];
     showStreamingPanel := true; socketClosed := socketClosed fm |}.

(** [new WebSocket(wsUrl)]: the parse socket is open. *)
Definition open_socket (fm : Form) : Form :=
  {| selectedFile := selectedFile fm; description := description fm;
     error_file := error_file fm; error_description := error_description fm;
     isSubmitting := isSubmitting fm; isSubmitted := isSubmitted fm;
     isAnalyzing := isAnalyzing fm; pendingSubmitData := pendingSubmitData fm;
     parsedResult := parsedResult fm; apiError := apiError fm;
     streamingEvents := streamingEvents fm;
     showStreamingPanel := showStreamingPanel fm; socketClosed := false |}.

(** The message of the parsed result when the event has none: a check
    mark and a sentence. *)
Definition default_parse_message : jstring :=
  9989%N :: lit " Mandate parsing complete!".

(** [ws.onmessage] of the parse socket. An exception inside it is
    caught; the event is appended before anything can throw. *)
Definition parse_onmessage (event : SourcingAgent.MessageEvent) (fm : Form) : Form :=
  match event with
  | Throw _ => fm
  | Ok eventData =>
      let appended := streamingEvents fm ++ [eventData] in
      if strict_eq_str (prop eventData (lit "type")) (lit "analysis_complete")
         && truthy (prop eventData (lit "criteria"))
      then
        {| selectedFile := None; description := [];
           error_file := None; error_description := None;
           isSubmitting := false; isSubmitted := true;
           isAnalyzing := isAnalyzing fm; pendingSubmitData := pendingSubmitData fm;
           parsedResult :=
             JObj [(lit "criteria", prop eventData (lit "criteria"));
                   (lit "message",
                    js_or (prop eventData (lit "message")) (JStr default_parse_message));
                   (lit "tokens_used",
                    js_or (get_opt (get_opt (prop eventData (lit "tokens_used"))
                                      (lit "totals"))
                             (lit "total_tokens"))
                          (JNum 0))];
           apiError := apiError fm;
           streamingEvents := appended;
           showStreamingPanel := false; socketClosed := true |}
      else
        {| selectedFile := selectedFile fm; description := description fm;
           error_file := error_file fm; error_description := error_description fm;
           isSubmitting := isSubmitting fm; isSubmitted := isSubmitted fm;
           isAnalyzing := isAnalyzing fm; pendingSubmitData := pendingSubmitData fm;
           parsedResult := parsedResult fm; apiError := apiError fm;
           streamingEvents := appended;
           showStreamingPanel := showStreamingPanel fm; socketClosed := socketClosed fm |}
  end.

(** [ws.onerror] of the parse socket. *)
Definition parse_onerror (fm : Form) : Form :=
  {| selectedFile := selectedFile fm; description := description fm;
     error_file := error_file fm; error_description := error_description fm;
     isSubmitting := isSubmitting fm; isSubmitted := isSubmitted fm;
     isAnalyzing := isAnalyzing fm; pendingSubmitData := pendingSubmitData fm;
     parsedResult := parsedResult fm;
     apiError := Some (lit "WebSocket connection error");
     streamingEvents := streamingEvents fm;
     showStreamingPanel := false; socketClosed := socketClosed fm |}.

End MandateForm.

(** ** Reference definitions the properties are stated against *)

Module Reference.
Import SourcingAgent.

(** The first truthy value of a list of candidates, [d] when there is
    none. *)
Definition first_truthy (candidates : list JsVal) (d : JsVal) : JsVal :=
  match find truthy candidates with
  | Some v => v
  | None => d
  end.

(** The first value that is neither [null] nor [undefined]. *)
Definition first_defined (candidates : list JsVal) (d : JsVal) : JsVal :=
  match find (fun v => negb (is_nullish v)) candidates with
  | Some v => v
  | None => d
  end.

(** Reading one CSV field as RFC 4180 prescribes: a field that opens with
    a double quote loses its enclosing quotes and every pair of double
    quotes inside stands for one; any other field is taken as it is. *)
Fixpoint collapse_quotes (s : jstring) : jstring :=
  match s with
  | [] => []
  | c :: rest =>
      match rest with
      | d :: rest' =>
          if ((c =? dquote) && (d =? dquote))%N then dquote :: collapse_quotes rest'
          else c :: collapse_quotes rest
      | [] => [c]
      end
  end.

Definition rfc4180_decode_field (field : jstring) : jstring :=
  match field with
  | c :: rest => if (c =? dquote)%N then collapse_quotes (removelast rest) else field
  | [] => []
  end.

(** A value [escapeCSV] has to quote. *)
Definition needs_quoting (s : jstring) : Prop :=
  In comma s \/ In dquote s \/ In newline s.

(** A value that is present and has a positive length: a non-empty
    list. *)
Definition present_nonempty `{Runtime} (v : JsVal) : bool :=
  truthy v && match length_gt_zero v with Ok b => b | Throw _ => false end.

(** The result lists of the first three steps, where the responses keep
    them. *)
Definition qualified_of (st : State) : JsVal :=
  get_opt (get_opt (filterResponse st) (lit "companies")) (lit "qualified").
Definition company_details_of (st : State) : JsVal :=
  get_opt (screeningResponse st) (lit "company_details").
Definition all_companies_of (st : State) : JsVal :=
  get_opt (riskAnalysisResponse st) (lit "all_companies").

(** The response cell of a step. *)
Definition response_of (k : Z) (st : State) : JsVal :=
  if (k =? 0)%Z then filterResponse st
  else if (k =? 1)%Z then screeningResponse st
  else if (k =? 2)%Z then riskAnalysisResponse st
  else reportResponse st.

(** The streamed events of a step. *)
Definition stream_of (st : State) (k : Z) : list JsVal :=
  events_of (streamedEventsByStep st) k.

(** Delivering parsed messages, each to the handler of its step, in
    arrival order. *)
Definition deliver `{Runtime} (msgs : list (Step * JsVal)) (st : State) : State :=
  fold_left (fun st m => run (onmessage (fst m) (Ok (snd m))) st) msgs st.

(** The completion message of a step: a message of the step's
    distinguished type that carries the field its handler asks for. *)
Definition completion_message (s : Step) (v : JsVal) : bool :=
  match s with
  | Sourcing =>
      strict_eq_str (prop v (lit "type")) (lit "analysis_complete")
      && truthy (prop v (lit "result"))
  | Screening =>
      strict_eq_str (prop v (lit "type")) (lit "final_result")
      && truthy (prop v (lit "content"))
  | RiskAnalysis =>
      strict_eq_str (prop v (lit "type")) (lit "session_complete")
      && truthy (prop v (lit "results"))
  | Reporting => strict_eq_str (prop v (lit "type")) (lit "report_complete")
  end.

(** The overall result of an entry of the risk results, as the handler
    reads it. *)
Definition overall_text (c : JsVal) : JsVal :=
  first_truthy [prop c (lit "overall_result"); prop c (lit "overall_status")] (JStr []).

(** Results the risk handler can transform: an array none of whose
    entries is [null] or [undefined], or has an overall result that
    cannot be converted to a string. *)
Definition transformable (results : JsVal) : bool :=
  match results with
  | JArr l => forallb (fun c => negb (is_nullish c) && stringable (overall_text c)) l
  | _ => false
  end.

(** The messages on which a handler completes its step: it sets the
    response and the completed mark. *)
Definition completes (s : Step) (v : JsVal) : bool :=
  completion_message s v
  && match s with
     | RiskAnalysis => transformable (prop v (lit "results"))
     | _ => true
     end.

(** The number of companies the sourcing handler announces. *)
Definition announced_count (v : JsVal) : JsVal :=
  first_truthy [get_opt (prop (prop v (lit "result")) (lit "qualified")) (lit "length")]
    (JNum 0).

(** The messages on which a handler closes its socket: those that
    complete the step, if the sourcing handler can write its
    announcement. *)
Definition closes (s : Step) (v : JsVal) : bool :=
  completes s v
  && match s with
     | Sourcing => stringable (announced_count v)
     | _ => true
     end.

(** The aggregated thinking of a step, and how many of the step's
    streamed events the aggregation effect has processed. *)
Definition thinking_of (st : State) (k : Z) : list ThinkingItem :=
  default [] (aggregatedThinkingByStep st !! k).
Definition processed_count (st : State) (k : Z) : nat :=
  default 0%nat (lastProcessedStreamingCountByStep st !! k).

(** The aggregated thinking of step [k] is, in order, what the processed
    events of the step contribute; the processed events are the first
    so many of its stream. *)
Definition aggregated_in_order `{Runtime} (st : State) (k : Z) : Prop :=
  (processed_count st k <= length (stream_of st k))%nat
  /\ clean_events (take (processed_count st k) (stream_of st k)) = Ok (thinking_of st k).

(** The same for the single stream of the FundMandate page. *)
Definition mandate_aggregated_in_order `{Runtime} (st : FundMandate.Stream) : Prop :=
  (FundMandate.lastProcessedStreamingCount st
   <= length (FundMandate.streamingEvents st))%nat
  /\ clean_events (take (FundMandate.lastProcessedStreamingCount st)
                     (FundMandate.streamingEvents st))
     = Ok (FundMandate.aggregatedThinking st).

(** *** The clean-up of a content, in words *)

(** [c1] is [c] without its leading run of characters that are neither
    word characters nor white space, and without the white space that
    follows that run. *)
Definition leading_symbols_removed (c c1 : jstring) : Prop :=
  exists symbols spaces,
    c = symbols ++ spaces ++ c1
    /\ Forall (fun x => is_word x = false /\ is_space x = false) symbols
    /\ Forall (fun x => is_space x = true) spaces
    /\ (forall x rest, c1 = x :: rest ->
          is_space x = false /\ (spaces = [] -> is_word x = true)).

(** A step label: the word STEP in either case, white space, a number,
    a colon, white space. *)
Definition step_label (label : jstring) : Prop :=
  exists word spaces digits after,
    label = word ++ spaces ++ digits ++ [58%N] ++ after
    /\ map upper_ascii word = lit "STEP"
    /\ Forall (fun x => is_space x = true) spaces
    /\ digits <> []
    /\ Forall (fun x => is_digit x = true) digits
    /\ Forall (fun x => is_space x = true) after.

(** [c2] is [c1] without its leading step label and the white space
    after it, or [c1] itself when it opens with no step label. *)
Definition step_label_removed (c1 c2 : jstring) : Prop :=
  (exists label,
      step_label label /\ c1 = label ++ c2
      /\ forall x rest, c2 = x :: rest -> is_space x = false)
  \/ (c2 = c1 /\ forall label rest, step_label label -> c1 <> label ++ rest).

(** The characters of a string as the [u] flag reads them: a surrogate
    pair is one character. *)
Fixpoint characters (s : jstring) : list jstring :=
  match s with
  | [] => []
  | c :: rest =>
      match rest with
      | d :: rest' =>
          if is_high_surrogate c && is_low_surrogate d
          then [c; d] :: characters rest'
          else [c] :: characters rest
      | [] => [[c]]
      end
  end.

Definition character_code (character : jstring) : N :=
  match character with
  | [c; d] => code_point c d
  | [c] => c
  | _ => 0%N
  end.

(** [s] without its emoji characters. *)
Definition without_emoji (s : jstring) : jstring :=
  concat (List.filter (fun character => negb (is_emoji (character_code character)))
            (characters s)).

(** An element of an array that cannot be displayed: [null], or an
    array or object whose first value cannot be converted to a
    string. *)
Definition undisplayable (item : JsVal) : bool :=
  match item with
  | JNull => true
  | JArr _ | JObj _ =>
      match Object_entries item with
      | (_, v) :: _ => negb (stringable v)
      | [] => false
      end
  | _ => false
  end.

(** A surrogate that is a character on its own, and a string without
    one. *)
Definition lone_surrogate (character : jstring) : bool :=
  match character with
  | [c] => is_high_surrogate c || is_low_surrogate c
  | _ => false
  end.

Definition well_formed (s : jstring) : bool :=
  forallb (fun character => negb (lone_surrogate character)) (characters s).

(** [text] is [s] without the white space around it. *)
Definition trimmed (s text : jstring) : Prop :=
  exists before after,
    s = before ++ text ++ after
    /\ Forall (fun x => is_space x = true) before
    /\ Forall (fun x => is_space x = true) after
    /\ (forall x rest, text = x :: rest -> is_space x = false)
    /\ (forall front x, text = front ++ [x] -> is_space x = false).

(** [text] is the cleaned form of the string content [c]. *)
Definition cleaned (c text : jstring) : Prop :=
  exists c1 c2,
    leading_symbols_removed c c1
    /\ step_label_removed c1 c2
    /\ trimmed (without_emoji c2) text.

(** The content of an event, and the item a text makes under the type
    of the event; an empty text makes none. *)
Definition content_of (event : JsVal) : JsVal :=
  first_truthy [prop event (lit "content"); prop event (lit "message")] (JStr []).

Definition item_of (event : JsVal) (text : jstring) : option ThinkingItem :=
  match text with
  | [] => None
  | _ :: _ =>
      Some {| item_type := first_truthy [prop event (lit "type")]
                             (JStr (lit "agent_thinking"));
              item_content := text |}
  end.

(** The clean-up in the words of the summary: the leading non-word
    characters removed, then the step label, the emoji, and the
    surrounding white space, of the content as a string. *)
Definition summarised_clean_text (s : jstring) : jstring :=
  trim (remove_emoji (strip_step_label (drop_while (fun c => negb (is_word c)) s))).

Definition summarised_contribution `{Runtime} (event : JsVal) : option ThinkingItem :=
  item_of event (summarised_clean_text (string_of (content_of event))).

(** What the response of a step holds once its completion message [v]
    has been handled. *)
Definition payload_kept (s : Step) (v : JsVal) (st' : State) : Prop :=
  match s with
  | Sourcing =>
      qualified_of st'
      = js_or (prop (prop v (lit "result")) (lit "qualified")) (JArr [])
  | Screening =>
      forall props, prop v (lit "content") = JObj props ->
                    company_details_of st' = assoc (lit "company_details") props
  | RiskAnalysis => all_companies_of st' = prop v (lit "results")
  | Reporting =>
      reportResponse st' = v
      /\ reportFilePath st' = js_or (prop v (lit "file_path")) JNull
  end.

(** What one parsed message does to the stream, the response, the
    completed marks and the socket of its step. *)
Definition message_effect (s : Step) (v : JsVal) (st st' : State) : Prop :=
  let k := step_index s in
  streamedEventsByStep st' = append_event k v (streamedEventsByStep st)
  /\ (completes s v = true ->
      truthy (response_of k st') = true
      /\ payload_kept s v st'
      /\ completedSteps st' = completedSteps st ∪ {[k]})
  /\ (completes s v = false ->
      response_of k st' = response_of k st
      /\ completedSteps st' = completedSteps st)
  /\ (closes s v = true -> closedSockets st' = closedSockets st ∪ {[k]})
  /\ (closes s v = false -> closedSockets st' = closedSockets st).

(** The record [getRiskScores] builds of one entry of the parameter
    analysis. *)
Definition normalised_record (entry : jstring * JsVal) : JsVal :=
  JObj [(lit "category", JStr (fst entry));
        (lit "status",
         first_defined [get_opt (snd entry) (lit "status");
                        get_opt (snd entry) (lit "Status");
                        get_opt (snd entry) (lit "status_text")] (JStr []));
        (lit "reason",
         first_defined [get_opt (snd entry) (lit "reason");
                        get_opt (snd entry) (lit "Reason");
                        get_opt (snd entry) (lit "reason_text")] (JStr []))].

(** The parameter analysis of a company under either spelling, the
    empty object when it has none. *)
Definition parameter_analysis_of (company : JsVal) : JsVal :=
  first_truthy [prop company (lit "parameter_analysis");
                prop company (lit "parameterAnalysis")] (JObj []).

(** *** Runs of items of one display type *)

Section Runs.
Import AgentThinkingAccordion.

Definition same_type (x y : EventItem) : Prop := getEventType x = getEventType y.

Definition uniform (g : list EventItem) : Prop :=
  forall x y, x ∈ g -> y ∈ g -> same_type x y.

(** Neighbouring groups have different display types. *)
Definition adjacent_differ (gs : list (list EventItem)) : Prop :=
  forall i g1 g2, gs !! i = Some g1 -> gs !! S i = Some g2 ->
    forall x y, x ∈ g1 -> y ∈ g2 -> ~ same_type x y.

(** What the loop maintains on [(groups, currentGroup)]. *)
Record loop_inv (groups : list (list EventItem)) (cur : list EventItem) : Prop := {
  inv_nonempty : Forall (fun g => g <> []) groups;
  inv_uniform : Forall uniform groups;
  inv_cur_uniform : uniform cur;
  inv_start : cur = [] -> groups = [];
  inv_adjacent : adjacent_differ (groups ++ [cur])
}.

End Runs.

(** Two states that differ in the loading flags at most. *)
Definition flags_apart (st st' : State) : Prop :=
  currentStep st' = currentStep st
  /\ completedSteps st' = completedSteps st
  /\ filterResponse st' = filterResponse st
  /\ screeningResponse st' = screeningResponse st
  /\ riskAnalysisResponse st' = riskAnalysisResponse st
  /\ reportResponse st' = reportResponse st
  /\ reportFilePath st' = reportFilePath st
  /\ selectedCompanies st' = selectedCompanies st
  /\ expandedScreeningResults st' = expandedScreeningResults st
  /\ streamedEventsByStep st' = streamedEventsByStep st
  /\ showAccordionStep st' = showAccordionStep st
  /\ aggregatedThinkingByStep st' = aggregatedThinkingByStep st
  /\ lastProcessedStreamingCountByStep st' = lastProcessedStreamingCountByStep st
  /\ closedSockets st' = closedSockets st
  /\ agentThinkingSteps st' = agentThinkingSteps st.

(** What no [onmessage] handler changes, and what it changes in one
    direction only. *)
Record message_frame (s : Step) (st st' : State) : Prop := {
  frame_currentStep : currentStep st' = currentStep st;
  frame_responses :
    forall s', s' <> s ->
      response_of (step_index s') st' = response_of (step_index s') st;
  frame_reportFilePath : s <> Reporting -> reportFilePath st' = reportFilePath st;
  frame_selectedCompanies : selectedCompanies st' = selectedCompanies st;
  frame_thinking : aggregatedThinkingByStep st' = aggregatedThinkingByStep st;
  frame_processed :
    lastProcessedStreamingCountByStep st' = lastProcessedStreamingCountByStep st;
  frame_completed : completedSteps st ⊆ completedSteps st';
  frame_closed : closedSockets st ⊆ closedSockets st';
  frame_isSubmitting : isSubmitting st' = true -> isSubmitting st = true;
  frame_showStreamingPanel : showStreamingPanel st' = true -> showStreamingPanel st = true
}.


(** *** What happens on the SourcingAgent page

    The button that starts the run of a step is rendered at that step
    only, and so is the button that resets it (of steps 0, 1 and 2);
    steps 1 and 2 have a button that leads to the step before when the
    step has nothing to work on; messages arrive on the socket of any
    step; the page is rendered and its aggregation effect runs at any
    moment. *)

Inductive PageEvent :=
| Started (s : Step)
| Arrived (s : Step) (event : MessageEvent)
| Failed (s : Step)
| Closed (s : Step)
| NextPressed
| BackPressed
| StepPressed (index : Z)
| ReturnPressed (index : Z)
| ResetPressed (index : Z)
| Rendered.

Definition page_step `{Runtime} (p : Params) (st : State) (ev : PageEvent) : State :=
  match ev with
  | Started s =>
      if (currentStep st =? step_index s)%Z then run (start_stream s) st else st
  | Arrived s event => run (onmessage s event) st
  | Failed s => run (onerror s) st
  | Closed s => run (onclose s) st
  | NextPressed => nextStep st
  | BackPressed => prevStep st
  | StepPressed index => navigateToStep p index st
  | ReturnPressed index =>
      if (currentStep st =? index + 1)%Z && (0 <=? index)%Z && (index <=? 1)%Z
      then run (setCurrentStep index) st else st
  | ResetPressed index =>
      if (currentStep st =? index)%Z && (0 <=? index)%Z && (index <=? 2)%Z
      then run (handleResetStep index) st else st
  | Rendered => aggregation_effect st
  end.

(** What a sequence of events makes of the page. *)
Definition page_run `{Runtime} (p : Params) (evs : list PageEvent) (st : State)
  : State :=
  fold_left (page_step p) evs st.

(** The events that leave the stream of step [k] its events: all but
    the start of step [k] and the reset of a step up to [k]; the reset
    of step 0 replaces all the streams. *)
Definition keeps_stream (k : Z) (ev : PageEvent) : bool :=
  match ev with
  | Started s => negb (step_index s =? k)%Z
  | ResetPressed index => (0 <? index)%Z && (k <? index)%Z
  | _ => true
  end.

(** The same for the FundMandate page: an event arrives, or the page
    is rendered and the effect runs. *)
Inductive MandateEvent :=
| MandateArrived (event : JsVal)
| MandateRendered.

Definition mandate_step `{Runtime} (st : FundMandate.Stream) (ev : MandateEvent)
  : FundMandate.Stream :=
  match ev with
  | MandateArrived event =>
      {| FundMandate.streamingEvents := FundMandate.streamingEvents st ++ [event];
         FundMandate.aggregatedThinking := FundMandate.aggregatedThinking st;
         FundMandate.lastProcessedStreamingCount :=
           FundMandate.lastProcessedStreamingCount st |}
  | MandateRendered => FundMandate.aggregation_effect st
  end.

Definition mandate_run `{Runtime} (evs : list MandateEvent) (st : FundMandate.Stream)
  : FundMandate.Stream :=
  fold_left mandate_step evs st.

(** [setStreamingEvents([])] of [proceedWithNormalFlow]. *)
Definition mandate_cleared (st : FundMandate.Stream) : FundMandate.Stream :=
  {| FundMandate.streamingEvents := [];
     FundMandate.aggregatedThinking := FundMandate.aggregatedThinking st;
     FundMandate.lastProcessedStreamingCount :=
       FundMandate.lastProcessedStreamingCount st |}.

(** *** The result list and the parameter list of a step *)

(** The result list of step 0, 1 or 2. *)
Definition result_list (k : Z) (st : State) : JsVal :=
  if (k =? 0)%Z then qualified_of st
  else if (k =? 1)%Z then company_details_of st
  else all_companies_of st.

(** The parameter list that opens step 1, 2 or 3. *)
Definition param_list (p : Params) (k : Z) : list JsVal :=
  if (k =? 1)%Z then sourcingList p
  else if (k =? 2)%Z then screeningList p
  else riskAnalysisList p.

(** *** Reading a CSV document

    Records end at a line feed, fields at a comma; a field that opens
    with a double quote runs to its closing quote, a pair of double
    quotes inside standing for one (RFC 4180, with the bare line feed
    the export writes as the record separator). *)

Inductive CsvState := FieldStart | Unquoted | Quoted | QuoteSeen.

(** [field] is the field being read, [row] the fields of the record
    read so far. *)
Fixpoint parse_csv_from (state : CsvState) (field : jstring) (row : list jstring)
  (s : jstring) : list (list jstring) :=
  match s with
  | [] => [row ++ [field]]
  | c :: rest =>
      match state with
      | FieldStart =>
          if (c =? dquote)%N then parse_csv_from Quoted [] row rest
          else if (c =? comma)%N then parse_csv_from FieldStart [] (row ++ [field]) rest
          else if (c =? newline)%N
          then (row ++ [field]) :: parse_csv_from FieldStart [] [] rest
          else parse_csv_from Unquoted [c] row rest
      | Unquoted =>
          if (c =? comma)%N then parse_csv_from FieldStart [] (row ++ [field]) rest
          else if (c =? newline)%N
          then (row ++ [field]) :: parse_csv_from FieldStart [] [] rest
          else parse_csv_from Unquoted (field ++ [c]) row rest
      | Quoted =>
          if (c =? dquote)%N then parse_csv_from QuoteSeen field row rest
          else parse_csv_from Quoted (field ++ [c]) row rest
      | QuoteSeen =>
          if (c =? dquote)%N then parse_csv_from Quoted (field ++ [dquote]) row rest
          else if (c =? comma)%N then parse_csv_from FieldStart [] (row ++ [field]) rest
          else if (c =? newline)%N
          then (row ++ [field]) :: parse_csv_from FieldStart [] [] rest
          else parse_csv_from Unquoted (field ++ [c]) row rest
      end
  end.

Definition parse_csv (document : jstring) : list (list jstring) :=
  parse_csv_from FieldStart [] [] document.

(** What the reader does once a field [f] is complete and [rest] is
    left: end of input, a comma, or a line feed. *)
Definition after_field (row : list jstring) (f : jstring) (rest : jstring)
  : list (list jstring) :=
  match rest with
  | [] => [row ++ [f]]
  | c :: rest' =>
      if (c =? comma)%N then parse_csv_from FieldStart [] (row ++ [f]) rest'
      else (row ++ [f]) :: parse_csv_from FieldStart [] [] rest'
  end.

Definition delimited (rest : jstring) : Prop :=
  rest = [] \/ (exists rest', rest = comma :: rest') \/ (exists rest', rest = newline :: rest').

(** A cell [escapeCSV] can be applied to: a string, or an array (which
    has [includes]). *)
Definition is_text (v : JsVal) : bool :=
  match v with JStr _ | JArr _ => true | _ => false end.

(** *** The rows of the risk export *)

(** The risk records of a company. *)
Definition risks_of (company : JsVal) : list JsVal :=
  match getRiskScores company with
  | JArr risks => risks
  | _ => []
  end.

(** Every company paired with each of its risk records, company by
    company. *)
Definition company_risks (companies : list JsVal) : list (JsVal * JsVal) :=
  flat_map (fun company => map (pair company) (risks_of company)) companies.

(** The cells of the row of one risk record of a company. *)
Definition row_of (rowNumber : nat) (cr : JsVal * JsVal) : list JsVal :=
  [JStr (index_key rowNumber);
   prop (fst cr) (lit "company_name");
   first_defined [getOverall (fst cr)] (JStr []);
   prop (snd cr) (lit "category");
   first_defined [prop (snd cr) (lit "status")] (JStr []);
   first_defined [prop (snd cr) (lit "reason")] (JStr [])].

(** The line of a record of strings. *)
Definition csv_record (row : list jstring) : jstring :=
  join [comma] (map escapeCSV row).

(** *** The edited parameters of the FundMandate page *)

(** The legacy bucket of a section. *)
Definition bucket (section : MandateParams.ParamSection) (ed : MandateParams.Editor)
  : gmap jstring jstring :=
  match section with
  | MandateParams.SourcingSection => MandateParams.editedSourcingParams ed
  | MandateParams.ScreeningSection => MandateParams.editedScreeningParams ed
  | MandateParams.RiskSection => MandateParams.editedRiskParams ed
  end.

(** The edited parameters of a subprocess. *)
Definition subprocess_params (ed : MandateParams.Editor) (name : jstring)
  : gmap jstring jstring :=
  MandateParams.params_of (MandateParams.editedParamsBySubprocess ed) name.

(** *** What happens on the form of the FundMandate page *)

Inductive FormEvent :=
| FileSelected (file : FundMandate.File)
| DescriptionChanged (value : jstring)
| Submitted
| ParseStarted
| SocketOpened
| ParseMessage (event : MessageEvent)
| ParseError.

Definition form_step (fm : MandateForm.Form) (ev : FormEvent) : MandateForm.Form :=
  match ev with
  | FileSelected file => MandateForm.handleFileSelect file fm
  | DescriptionChanged value => MandateForm.handleDescriptionChange value fm
  | Submitted => MandateForm.handleSubmit fm
  | ParseStarted => MandateForm.start_parse fm
  | SocketOpened => MandateForm.open_socket fm
  | ParseMessage event => MandateForm.parse_onmessage event fm
  | ParseError => MandateForm.parse_onerror fm
  end.

(** What the form holds is fit to be submitted: a selected file passed
    the validation, and the data of a pending submission are a valid
    file and a trimmed description that is not empty. *)
Definition form_ok (fm : MandateForm.Form) : Prop :=
  (forall file, MandateForm.selectedFile fm = Some file ->
                FundMandate.validateFile file = None)
  /\ (forall file text, MandateForm.pendingSubmitData fm = Some (file, text) ->
        FundMandate.validateFile file = None /\ text <> [] /\ trim text = text).

(** *** Example data *)

(** A thinking event of the screening stream, opening with a check mark
    and bold text. *)
Definition thinking_event : JsVal :=
  JObj [(lit "type", JStr (lit "agent_thinking"));
        (lit "content", JStr (9989%N :: lit " **Done**"))].

(** The final result of a screening run: its content is an object. *)
Definition final_result_event : JsVal :=
  JObj [(lit "type", JStr (lit "final_result"));
        (lit "content", JObj [(lit "company_details", JArr [])])].

(** A risk session whose results hold a null entry. *)
Definition null_session_event : JsVal :=
  JObj [(lit "type", JStr (lit "session_complete"));
        (lit "results", JArr [JNull])].

(** A risk session with an entry whose overall result is an object
    with a [toString] property of its own. *)
Definition unreadable_session_event : JsVal :=
  JObj [(lit "type", JStr (lit "session_complete"));
        (lit "results",
         JArr [JObj [(lit "overall_result", JObj [(lit "toString", JNum 1)])]])].

(** A risk session whose results are a text. *)
Definition text_session_event : JsVal :=
  JObj [(lit "type", JStr (lit "session_complete"));
        (lit "results", JStr (lit "none"))].

(** An event whose content is such an object. *)
Definition unreadable_content_event : JsVal :=
  JObj [(lit "type", JStr (lit "agent_thinking"));
        (lit "content", JObj [(lit "toString", JNum 1)])].

(** A sourcing result whose list of qualified companies is an object
    with such a length. *)
Definition unannounced_sourcing_event : JsVal :=
  JObj [(lit "type", JStr (lit "analysis_complete"));
        (lit "result",
         JObj [(lit "qualified",
                JObj [(lit "length", JObj [(lit "toString", JNum 1)])])])].

(** The page at step [k], streaming for step [s]. *)
Definition streaming_at (k : Z) (s : Step) : State :=
  run (start_stream s) (with_currentStep (fun _ => k) initial_state).

(** The page after a screening run that streamed the two events above. *)
Definition screened_state : State :=
  @deliver example_runtime
    [(Screening, thinking_event); (Screening, final_result_event)]
    (streaming_at 1 Screening).

(** The parameter lists of a mandate with one parameter for each
    step. *)
Definition example_params : Params :=
  {| sourcingList := [JStr (lit "Revenue")];
     screeningList := [JStr (lit "Debt")];
     riskAnalysisList := [JStr (lit "Liquidity")] |}.

(** A company as the risk analysis reports it, with a name that
    holds a comma and a reason that holds double quotes. *)
Definition example_company : JsVal :=
  JObj [(lit "company_name", JStr (lit "Acme, Inc."));
        (lit "overall_status", JStr (lit "SAFE"));
        (lit "risk_scores",
         JArr [JObj [(lit "category", JStr (lit "liquidity"));
                     (lit "status", JStr (lit "SAFE"));
                     (lit "reason",
                      JStr (lit "rated " ++ [dquote] ++ lit "ok" ++ [dquote]))]])].

(** The page after a sourcing run that found this company. *)
Definition sourced_state : State :=
  @deliver example_runtime
    [(Sourcing,
      JObj [(lit "type", JStr (lit "analysis_complete"));
            (lit "result", JObj [(lit "qualified", JArr [example_company])])])]
    (streaming_at 0 Sourcing).

(** The message that completes a sourcing run that found this
    company. *)
Definition sourcing_complete_event : JsVal :=
  JObj [(lit "type", JStr (lit "analysis_complete"));
        (lit "result", JObj [(lit "qualified", JArr [example_company])])].

(** What happens on the page from its mount to the end of a screening
    run that streams the two events above, the effect running after
    every event. *)
Definition screening_session : list PageEvent :=
  [Started Sourcing; Rendered;
   Arrived Sourcing (Ok sourcing_complete_event); Rendered;
   NextPressed; Rendered;
   Started Screening; Rendered;
   Arrived Screening (Ok thinking_event); Rendered;
   Arrived Screening (Ok final_result_event); Rendered].

(** The page after a risk analysis of this company. *)
Definition risk_analysed_state : State :=
  @deliver example_runtime
    [(RiskAnalysis,
      JObj [(lit "type", JStr (lit "session_complete"));
            (lit "results", JArr [example_company])])]
    (streaming_at 2 RiskAnalysis).

(** The page after the sourcing socket delivered the message [null]. *)
Definition null_event_state : State :=
  @deliver example_runtime [(Sourcing, JNull)] (streaming_at 0 Sourcing).

(** The dialog for a new risk parameter, filled in with spaces around
    the name and the value. *)
Definition example_editor : MandateParams.Editor :=
  {| MandateParams.editedParamsBySubprocess := ∅;
     MandateParams.editedSourcingParams := ∅;
     MandateParams.editedScreeningParams := ∅;
     MandateParams.editedRiskParams := ∅;
     MandateParams.addParamModalOpen := true;
     MandateParams.addParamSection := Some MandateParams.RiskSection;
     MandateParams.addParamSubprocessName := lit "Risk Assessment";
     MandateParams.newParamName := lit " esg score ";
     MandateParams.newParamValue := lit " high " |}.

(** The form while a mandate is being parsed. *)
Definition parsing_form : MandateForm.Form :=
  fold_left form_step
    [FileSelected {| FundMandate.file_type := lit "application/pdf";
                     FundMandate.file_size := 2048 |};
     DescriptionChanged (lit " Growth fund ");
     Submitted; ParseStarted; SocketOpened]
    MandateForm.initial_form.

(** The event that completes the parse. *)
Definition parse_complete_event : JsVal :=
  JObj [(lit "type", JStr (lit "analysis_complete"));
        (lit "criteria", JObj [(lit "mandate", JObj [])])].

End Reference.

(** ** Properties *)

(** *** Strings and values *)

Section JsFacts.
Import Js.

Lemma str_eqb_eq (s t : jstring) : str_eqb s t = true <-> s = t.
Proof. unfold str_eqb. apply bool_decide_eq_true. Qed.

Lemma str_eqb_neq (s t : jstring) : str_eqb s t = false <-> s <> t.
Proof. unfold str_eqb. apply bool_decide_eq_false. Qed.

Lemma str_eqb_refl (s : jstring) : str_eqb s s = true.
Proof. by apply str_eqb_eq. Qed.

Lemma includes_false_iff (c : N) (s : jstring) :
  includes c s = false <-> ~ In c s.
Proof.
  unfold includes. induction s as [|d s IH]; simpl.
  - tauto.
  - rewrite orb_false_iff, IH, N.eqb_neq. intuition congruence.
Qed.

Lemma truthy_not_nullish (v : JsVal) : truthy v = true -> is_nullish v = false.
Proof. by destruct v. Qed.

Lemma nullish_not_truthy (v : JsVal) : is_nullish v = true -> truthy v = false.
Proof. by destruct v. Qed.

Lemma get_opt_nullish (v : JsVal) (k : jstring) :
  is_nullish v = true -> get_opt v k = JUndefined.
Proof. unfold get_opt. by intros ->. Qed.

Lemma get_opt_prop (v : JsVal) (k : jstring) :
  is_nullish v = false -> get_opt v k = prop v k.
Proof. unfold get_opt. by intros ->. Qed.

(** A falsy value has no property besides the length of the empty
    string. *)
Lemma prop_falsy (v : JsVal) (k : jstring) :
  k <> lit "length" -> truthy v = false -> get_opt v k = JUndefined.
Proof.
  intros Hk. destruct v as [| |b|x|s|l|ps]; simpl; try done.
  unfold get_opt; simpl. rewrite negb_false_iff, str_eqb_eq. intros ->.
  apply str_eqb_neq in Hk. rewrite Hk.
  by destruct (parse_index k) as [[|i]|].
Qed.
End JsFacts.

(** *** File validation *)

Section FileValidation.
Import FundMandate.

Lemma allowed_type_iff (t : jstring) :
  existsb (str_eqb t) allowedTypes = true <-> t = lit "application/pdf".
Proof.
  unfold allowedTypes. simpl. rewrite orb_false_r. apply str_eqb_eq.
Qed.

(** C9. [validateFile] rejects a file whose MIME type is not
    application/pdf with the message about PDF files; otherwise it
    rejects a file strictly larger than 10*1024*1024 bytes with the
    message about the size; otherwise it returns null. Hence it returns
    null exactly for PDF files of at most 10*1024*1024 bytes. *)
Theorem validateFile_spec (file : File) :
  (file_type file <> lit "application/pdf" ->
     validateFile file = Some (lit "Only PDF files are allowed"))
  /\ (file_type file = lit "application/pdf" ->
      (10 * 1024 * 1024 < file_size file)%N ->
      validateFile file = Some (lit "File size must be less than 10MB"))
  /\ (validateFile file = None <->
      file_type file = lit "application/pdf"
      /\ (file_size file <= 10 * 1024 * 1024)%N).
Proof.
  unfold validateFile, maxSize.
  destruct (existsb (str_eqb (file_type file)) allowedTypes) eqn:Et; simpl.
  - apply allowed_type_iff in Et.
    destruct (N.ltb_spec (10 * 1024 * 1024) (file_size file)) as [Hlt|Hle].
    + split; [done|]. split; [done|]. split; [done|]. intros [_ Hle]. lia.
    + split; [done|]. split; [intros _ Hlt; lia|]. done.
  - assert (Hne : file_type file <> lit "application/pdf").
    { intros Heq. apply allowed_type_iff in Heq. congruence. }
    split; [done|]. split; [done|]. split; [done|]. intros [Heq _]. done.
Qed.
End FileValidation.

(** *** CSV escaping *)

Section Csv.
Import SourcingAgent Reference.

Lemma collapse_double_quotes (s : jstring) :
  collapse_quotes (double_quotes s) = s.
Proof.
  induction s as [|c s IH]; [done|].
  simpl. destruct (N.eqb_spec c dquote) as [->|Hc].
  - simpl. by rewrite IH.
  - simpl. destruct (double_quotes s) as [|d r] eqn:Ed.
    + simpl in IH. by rewrite <- IH.
    + apply N.eqb_neq in Hc. rewrite Hc. simpl. simpl in IH. by rewrite IH.
Qed.

Lemma escapeCSV_plain (s : jstring) : ~ needs_quoting s -> escapeCSV s = s.
Proof.
  intros Hn. unfold escapeCSV.
  assert (includes comma s = false) as -> by (apply includes_false_iff; unfold needs_quoting in Hn; tauto).
  assert (includes dquote s = false) as -> by (apply includes_false_iff; unfold needs_quoting in Hn; tauto).
  assert (includes newline s = false) as -> by (apply includes_false_iff; unfold needs_quoting in Hn; tauto).
  done.
Qed.

Lemma escapeCSV_quoted (s : jstring) :
  needs_quoting s -> escapeCSV s = [dquote] ++ double_quotes s ++ [dquote].
Proof.
  intros Hn. unfold escapeCSV.
  destruct (includes comma s) eqn:E1; [done|].
  destruct (includes dquote s) eqn:E2; [done|].
  destruct (includes newline s) eqn:E3; [done|].
  apply includes_false_iff in E1, E2, E3. unfold needs_quoting in Hn. tauto.
Qed.

Lemma needs_quoting_dec (s : jstring) : needs_quoting s \/ ~ needs_quoting s.
Proof.
  unfold needs_quoting.
  destruct (includes comma s) eqn:E1, (includes dquote s) eqn:E2,
    (includes newline s) eqn:E3;
    try apply includes_false_iff in E1; try apply includes_false_iff in E2;
    try apply includes_false_iff in E3;
    try (apply existsb_exists in E1 as [x [Hx Hxe]]; apply N.eqb_eq in Hxe; subst x);
    try (apply existsb_exists in E2 as [y [Hy Hye]]; apply N.eqb_eq in Hye; subst y);
    try (apply existsb_exists in E3 as [z [Hz Hze]]; apply N.eqb_eq in Hze; subst z);
    tauto.
Qed.

(** C10. [escapeCSV] returns a value without comma, double quote and
    newline unchanged; any other value it wraps in double quotes with
    every double quote inside doubled; reading the escaped field as
    RFC 4180 prescribes gives the value back. *)
Theorem escapeCSV_roundtrip (s : jstring) :
  (~ needs_quoting s -> escapeCSV s = s)
  /\ (needs_quoting s -> escapeCSV s = [dquote] ++ double_quotes s ++ [dquote])
  /\ rfc4180_decode_field (escapeCSV s) = s.
Proof.
  split; [apply escapeCSV_plain|]. split; [apply escapeCSV_quoted|].
  destruct (needs_quoting_dec s) as [Hq|Hp].
  - rewrite (escapeCSV_quoted s Hq). simpl.
    rewrite removelast_last. apply collapse_double_quotes.
  - rewrite (escapeCSV_plain s Hp).
    destruct s as [|c s]; [done|]. simpl.
    destruct (N.eqb_spec c dquote) as [->|Hc]; [|done].
    exfalso. apply Hp. right. left. by left.
Qed.

(** Doubling changes nothing but the double quotes. *)
Lemma double_quotes_spec (s : jstring) :
  double_quotes s = flat_map (fun c => if (c =? dquote)%N then [dquote; dquote] else [c]) s.
Proof.
  induction s as [|c s IH]; [done|]. simpl. rewrite IH. by destruct (c =? dquote)%N.
Qed.
End Csv.

(** *** Grouping of thinking items *)

Section Grouping.
Import AgentThinkingAccordion Reference.

Lemma adjacent_differ_snoc (gs : list (list EventItem)) (g h : list EventItem) :
  adjacent_differ (gs ++ [g]) ->
  (forall x y, x ∈ g -> y ∈ h -> ~ same_type x y) ->
  adjacent_differ ((gs ++ [g]) ++ [h]).
Proof.
  intros Hadj Hgh i g1 g2 H1 H2 x y Hx Hy.
  assert (Hi : (S i < length ((gs ++ [g]) ++ [h]))%nat) by (eapply lookup_lt_Some; eauto).
  rewrite length_app in Hi. simpl in Hi.
  rewrite lookup_app_l in H1 by lia.
  destruct (decide (S i < length (gs ++ [g]))%nat) as [Hlt|Hge].
  - rewrite lookup_app_l in H2 by lia. exact (Hadj i g1 g2 H1 H2 x y Hx Hy).
  - assert (S i = length (gs ++ [g])) as Hlast by lia.
    rewrite lookup_app_r in H2 by lia.
    replace (S i - length (gs ++ [g]))%nat with 0%nat in H2 by lia.
    simpl in H2. injection H2 as <-.
    rewrite length_app in Hlast. simpl in Hlast.
    rewrite lookup_app_r in H1 by lia.
    replace (i - length gs)%nat with 0%nat in H1 by lia.
    simpl in H1. injection H1 as <-. by apply Hgh.
Qed.

Lemma adjacent_differ_extend (gs : list (list EventItem)) (g : list EventItem)
  (first item : EventItem) :
  adjacent_differ (gs ++ [g]) -> first ∈ g -> same_type item first ->
  adjacent_differ (gs ++ [g ++ [item]]).
Proof.
  intros Hadj Hfirst Hsame i g1 g2 H1 H2 x y Hx Hy.
  assert (Hi : (S i < length (gs ++ [g ++ [item]]))%nat) by (eapply lookup_lt_Some; eauto).
  rewrite length_app in Hi. simpl in Hi.
  rewrite lookup_app_l in H1 by lia.
  destruct (decide (S i < length gs)%nat) as [Hlt|Hge].
  - rewrite lookup_app_l in H2 by lia.
    apply (Hadj i g1 g2); [by rewrite lookup_app_l by lia | by rewrite lookup_app_l by lia | done | done].
  - rewrite lookup_app_r in H2 by lia.
    replace (S i - length gs)%nat with 0%nat in H2 by lia.
    simpl in H2. injection H2 as <-.
    assert (Hg : (gs ++ [g]) !! S i = Some g).
    { rewrite lookup_app_r by lia. by replace (S i - length gs)%nat with 0%nat by lia. }
    assert (Hg1 : (gs ++ [g]) !! i = Some g1) by (by rewrite lookup_app_l by lia).
    apply elem_of_app in Hy as [Hy|Hy].
    + by apply (Hadj i g1 g Hg1 Hg).
    + apply list_elem_of_singleton in Hy. subst y.
      intros Hxi. apply (Hadj i g1 g Hg1 Hg x first Hx Hfirst).
      unfold same_type in *. congruence.
Qed.

Lemma group_step_inv (groups : list (list EventItem)) (cur : list EventItem)
  (item : EventItem) :
  loop_inv groups cur ->
  loop_inv (fst (group_step (groups, cur) item)) (snd (group_step (groups, cur) item)).
Proof.
  intros [Hne Hun Hcur Hstart Hadj]. simpl.
  destruct cur as [|first cur'].
  - simpl. rewrite (Hstart eq_refl). constructor.
    + done.
    + done.
    + intros x y Hx Hy. apply list_elem_of_singleton in Hx, Hy. by subst.
    + done.
    + intros i g1 g2 H1 H2. apply lookup_lt_Some in H2. simpl in H2. lia.
  - destruct (str_eqb (getEventType item) (getEventType first)) eqn:E; simpl.
    + apply str_eqb_eq in E. constructor.
      * done.
      * done.
      * intros x y Hx Hy.
        assert (Hall : forall z, z ∈ (first :: cur') ++ [item] -> same_type z first).
        { intros z Hz. apply elem_of_app in Hz as [Hz|Hz].
          - apply Hcur; [done | by left].
          - apply list_elem_of_singleton in Hz. by subst z. }
        unfold same_type in *. rewrite (Hall x Hx), (Hall y Hy). done.
      * done.
      * apply (adjacent_differ_extend groups (first :: cur') first item);
          [done | by left | done].
    + apply str_eqb_neq in E. constructor.
      * apply Forall_app. split; [done|]. by constructor.
      * apply Forall_app. split; [done|]. by constructor.
      * intros x y Hx Hy. apply list_elem_of_singleton in Hx, Hy. by subst.
      * done.
      * apply adjacent_differ_snoc; [done|].
        intros x y Hx Hy Hxy. apply list_elem_of_singleton in Hy. subst y.
        apply E. unfold same_type in *. rewrite <- Hxy.
        apply Hcur; [done | by left].
Qed.

Lemma group_step_concat (groups : list (list EventItem)) (cur : list EventItem)
  (item : EventItem) :
  concat (fst (group_step (groups, cur) item)) ++ snd (group_step (groups, cur) item)
  = (concat groups ++ cur) ++ [item].
Proof.
  unfold group_step. destruct cur as [|first cur'].
  - simpl. by rewrite app_nil_r.
  - destruct (str_eqb (getEventType item) (getEventType first)).
    + unfold fst, snd. by rewrite app_assoc.
    + unfold fst, snd. rewrite concat_app. simpl concat. by rewrite app_nil_r.
Qed.

Lemma fold_group_step (items : list EventItem) (groups : list (list EventItem))
  (cur : list EventItem) :
  loop_inv groups cur ->
  let acc := fold_left group_step items (groups, cur) in
  loop_inv (fst acc) (snd acc)
  /\ concat (fst acc) ++ snd acc = (concat groups ++ cur) ++ items.
Proof.
  revert groups cur. induction items as [|item items IH]; intros groups cur Hinv.
  - simpl. by rewrite app_nil_r.
  - cbn [fold_left].
    pose proof (group_step_inv groups cur item Hinv) as Hstep.
    pose proof (group_step_concat groups cur item) as Hcat.
    destruct (group_step (groups, cur) item) as [groups' cur'].
    simpl in Hstep, Hcat.
    destruct (IH groups' cur' Hstep) as [Hinv' Hcat'].
    cbv zeta. split; [done|]. rewrite Hcat', Hcat. by rewrite <- app_assoc.
Qed.

Lemma loop_inv_initial : loop_inv [] [].
Proof.
  constructor.
  - done.
  - done.
  - intros x y Hx. by apply elem_of_nil in Hx.
  - done.
  - intros i g1 g2 H1 H2. apply lookup_lt_Some in H2. simpl in H2. lia.
Qed.

(** C6. [groupedThinking] splits its input into maximal runs of
    consecutive items with the same display type: the groups
    concatenated give back the input, no group is empty, the items of
    a group share one display type, and the display types of
    neighbouring groups differ. *)
Theorem groupedThinking_runs (items : list EventItem) :
  let groups := groupedThinking items in
  concat groups = items
  /\ Forall (fun g => g <> []) groups
  /\ Forall (fun g => forall x y, x ∈ g -> y ∈ g -> getEventType x = getEventType y) groups
  /\ (forall i g1 g2, groups !! i = Some g1 -> groups !! S i = Some g2 ->
        forall x y, x ∈ g1 -> y ∈ g2 -> getEventType x <> getEventType y).
Proof.
  unfold groupedThinking.
  destruct (fold_group_step items [] [] loop_inv_initial) as [Hinv Hcat].
  destruct (fold_left group_step items ([], [])) as [groups cur].
  simpl in Hinv, Hcat. destruct Hinv as [Hne Hun Hcur Hstart Hadj].
  destruct cur as [|first cur'].
  - rewrite (Hstart eq_refl) in *. simpl in Hcat. subst items.
    cbv zeta. split; [done|]. split; [done|]. split; [done|].
    intros i g1 g2 H1. done.
  - cbv zeta. split; [|split; [|split]].
    + rewrite concat_app. simpl. by rewrite app_nil_r.
    + apply Forall_app. split; [done|]. by constructor.
    + apply Forall_app. split; [done|]. by constructor.
    + apply Hadj.
Qed.
End Grouping.

(** *** Step gating *)

Section StepGating.
Import SourcingAgent Reference.
Context `{Runtime}.

Lemma falsy_not_true (v : JsVal) : truthy v = false -> v <> JBool true.
Proof. by intros Hv ->. Qed.

Lemma js_and_truthy (a b : JsVal) :
  truthy (js_and a b) = true <-> truthy a = true /\ truthy b = true.
Proof.
  unfold js_and. destruct (truthy a) eqn:Ea.
  - tauto.
  - rewrite Ea. intuition congruence.
Qed.

Lemma nonempty_iff (l : list JsVal) : nonempty l = true <-> l <> [].
Proof. by destruct l. Qed.

(** A non-empty array is present and non-empty, an empty one is not. *)
Lemma present_nonempty_array (l : list JsVal) :
  present_nonempty (JArr l) = true <-> l <> [].
Proof. by destruct l. Qed.

Lemma present_nonempty_absent (v : JsVal) :
  is_nullish v = true -> present_nonempty v = false.
Proof. by destruct v. Qed.

(** A chain [r && r.k && r.k.length > 0] is [true] exactly when [r?.k]
    is present and non-empty. *)
Lemma guarded_length (r : JsVal) (k : jstring) :
  k <> lit "length" ->
  and_length_gt_zero (js_and r (prop r k)) (prop r k) = Ok (JBool true)
  <-> present_nonempty (get_opt r k) = true.
Proof.
  intros Hk. unfold present_nonempty, and_length_gt_zero.
  destruct (truthy r) eqn:Er.
  - rewrite (get_opt_prop r k (truthy_not_nullish r Er)).
    unfold js_and. rewrite Er.
    destruct (truthy (prop r k)) eqn:Ep; simpl.
    + destruct (length_gt_zero (prop r k)) as [b|e]; [|done].
      split; [by intros [= ->] | by intros ->].
    + split; [|done]. intros [= Heq]. rewrite Heq in Ep. done.
  - rewrite (prop_falsy r k Hk Er). simpl.
    unfold js_and. rewrite Er, Er.
    split; [|done]. intros [= Heq]. rewrite Heq in Er. done.
Qed.

Lemma canProceedStep_sourcing (st : State) :
  currentStep st = 0%Z ->
  (canProceedStep st = Ok (JBool true) <-> present_nonempty (qualified_of st) = true).
Proof.
  intros Hs. unfold canProceedStep, qualified_of. rewrite Hs. simpl.
  set (r := filterResponse st).
  assert (Hc : lit "companies" <> lit "length") by (vm_compute; congruence).
  assert (Hq : lit "qualified" <> lit "length") by (vm_compute; congruence).
  destruct (truthy r) eqn:Er.
  - rewrite (get_opt_prop r _ (truthy_not_nullish r Er)).
    unfold js_and at 2. rewrite Er. apply guarded_length. done.
  - rewrite (prop_falsy r _ Hc Er). simpl.
    unfold and_length_gt_zero, js_and. rewrite !Er.
    split; [|done]. intros [= Heq]. rewrite Heq in Er. done.
Qed.

Lemma canProceedStep_screening (st : State) :
  currentStep st = 1%Z ->
  (canProceedStep st = Ok (JBool true)
   <-> present_nonempty (company_details_of st) = true).
Proof.
  intros Hs. unfold canProceedStep, company_details_of. rewrite Hs. simpl.
  apply guarded_length. vm_compute; congruence.
Qed.

Lemma canProceedStep_risk (st : State) :
  currentStep st = 2%Z ->
  (canProceedStep st = Ok (JBool true) <-> present_nonempty (all_companies_of st) = true).
Proof.
  intros Hs. unfold canProceedStep, all_companies_of. rewrite Hs. simpl.
  apply guarded_length. vm_compute; congruence.
Qed.

Lemma canNavigateToStep_other (p : Params) (st : State) (index : Z) :
  index <> 0%Z -> index <> 1%Z -> index <> 2%Z -> index <> 3%Z ->
  canNavigateToStep p st index = JBool false.
Proof.
  intros H0 H1 H2 H3. unfold canNavigateToStep.
  apply Z.eqb_neq in H0, H1, H2, H3. by rewrite H0, H1, H2, H3.
Qed.

Lemma step_gating_navigation (p : Params) (st : State) :
  (truthy (canNavigateToStep p st 1) = true
   <-> sourcingList p <> [] /\ truthy (qualified_of st) = true)
  /\ (truthy (canNavigateToStep p st 2) = true
      <-> screeningList p <> [] /\ truthy (company_details_of st) = true)
  /\ (truthy (canNavigateToStep p st 3) = true
      <-> riskAnalysisList p <> [] /\ truthy (all_companies_of st) = true).
Proof.
  split; [|split]; unfold canNavigateToStep; simpl; rewrite js_and_truthy; simpl;
    by rewrite nonempty_iff.
Qed.

(** C1. The gating predicates are linear precondition checks. Step 0
    can always be navigated to; step 1, 2, 3 only when the parameter
    list of the step is non-empty and the result list of the step
    before it is present; any other index is refused.
    [canProceedStep] is true at step 0, 1, 2 exactly when the result
    list of that step is present and non-empty, and always at step 3. *)
Theorem step_gating (p : Params) (st : State) :
  canNavigateToStep p st 0 = JBool true
  /\ (truthy (canNavigateToStep p st 1) = true
      <-> sourcingList p <> [] /\ truthy (qualified_of st) = true)
  /\ (truthy (canNavigateToStep p st 2) = true
      <-> screeningList p <> [] /\ truthy (company_details_of st) = true)
  /\ (truthy (canNavigateToStep p st 3) = true
      <-> riskAnalysisList p <> [] /\ truthy (all_companies_of st) = true)
  /\ (forall index : Z,
        index <> 0%Z -> index <> 1%Z -> index <> 2%Z -> index <> 3%Z ->
        canNavigateToStep p st index = JBool false)
  /\ (currentStep st = 0%Z ->
      (canProceedStep st = Ok (JBool true)
       <-> present_nonempty (qualified_of st) = true))
  /\ (currentStep st = 1%Z ->
      (canProceedStep st = Ok (JBool true)
       <-> present_nonempty (company_details_of st) = true))
  /\ (currentStep st = 2%Z ->
      (canProceedStep st = Ok (JBool true)
       <-> present_nonempty (all_companies_of st) = true))
  /\ (currentStep st = 3%Z -> canProceedStep st = Ok (JBool true)).
Proof.
  destruct (step_gating_navigation p st) as (H1 & H2 & H3).
  split; [done|]. split; [done|]. split; [done|]. split; [done|].
  split; [apply canNavigateToStep_other|].
  split; [apply canProceedStep_sourcing|].
  split; [apply canProceedStep_screening|].
  split; [apply canProceedStep_risk|].
  intros Hs. unfold canProceedStep. by rewrite Hs.
Qed.

(** [canNavigateToStep] answers with the result list itself; when the
    answer is [true] both preconditions hold all the same. *)
Lemma canNavigateToStep_true_only_when (p : Params) (st : State) :
  (canNavigateToStep p st 1 = JBool true ->
     sourcingList p <> [] /\ truthy (qualified_of st) = true)
  /\ (canNavigateToStep p st 2 = JBool true ->
      screeningList p <> [] /\ truthy (company_details_of st) = true)
  /\ (canNavigateToStep p st 3 = JBool true ->
      riskAnalysisList p <> [] /\ truthy (all_companies_of st) = true).
Proof.
  destruct (step_gating_navigation p st) as (H1 & H2 & H3).
  split; [|split]; intros Heq;
    [apply H1 | apply H2 | apply H3]; by rewrite Heq.
Qed.

(** Whatever [canProceedStep] returns besides [true] is falsy. *)
Lemma canProceedStep_true_or_falsy (st : State) (v : JsVal) :
  canProceedStep st = Ok v -> v = JBool true \/ truthy v = false.
Proof.
  assert (Hgen : forall guard list,
             and_length_gt_zero guard list = Ok v -> v = JBool true \/ truthy v = false).
  { intros guard list. unfold and_length_gt_zero.
    destruct (truthy guard) eqn:Eg.
    - destruct (length_gt_zero list) as [[|]|e]; intros [= <-]; [by left | by right].
    - intros [= <-]. by right. }
  unfold canProceedStep.
  repeat match goal with
         | |- context [if ?b then _ else _] => destruct b
         end; try apply Hgen; intros [= <-]; [by left | by right].
Qed.
End StepGating.

(** *** Running handlers *)

Ltac unfold_monad :=
  unfold SourcingAgent.run, SourcingAgent.skip, SourcingAgent.setCurrentStep,
    SourcingAgent.setCompletedSteps, SourcingAgent.setIsSubmitting,
    SourcingAgent.setFilterResponse, SourcingAgent.setScreeningResponse,
    SourcingAgent.setRiskAnalysisResponse, SourcingAgent.setReportResponse,
    SourcingAgent.setReportFilePath, SourcingAgent.setSelectedCompanies,
    SourcingAgent.setExpandedScreeningResults,
    SourcingAgent.setStreamedEventsByStep,
    SourcingAgent.setShowStreamingPanel, SourcingAgent.setShowAccordionStep,
    SourcingAgent.setAggregatedThinkingByStep, SourcingAgent.ws_close,
    SourcingAgent.JSON_parse, SourcingAgent.try_catch, SourcingAgent.lift,
    SourcingAgent.update, SourcingAgent.read, SourcingAgent.M_bind,
    SourcingAgent.M_ret, mbind, mret in *.

Section EventsOf.
Import SourcingAgent Reference.

Lemma events_of_insert (m : gmap Z (list JsVal)) (k j : Z) (l : list JsVal) :
  events_of (<[k := l]> m) j = if decide (k = j) then l else events_of m j.
Proof.
  unfold events_of. rewrite lookup_insert. by case_decide.
Qed.

Lemma events_of_append (m : gmap Z (list JsVal)) (k j : Z) (v : JsVal) :
  events_of (append_event k v m) j
  = if decide (k = j) then events_of m k ++ [v] else events_of m j.
Proof. unfold append_event. apply events_of_insert. Qed.

Lemma events_of_no_events (k : Z) : events_of no_events k = [].
Proof.
  unfold no_events. rewrite !events_of_insert.
  repeat case_decide; try done; unfold events_of; by rewrite lookup_empty.
Qed.
End EventsOf.

(** *** Resetting a step *)

Section Reset.
Import SourcingAgent Reference.

Lemma reset_sourcing (st : State) :
  let st' := run (handleResetStep 0) st in
  (forall k, (0 <= k <= 3)%Z ->
     response_of k st' = JNull /\ stream_of st' k = [] /\ k ∉ completedSteps st')
  /\ reportFilePath st' = JNull /\ currentStep st' = 0%Z.
Proof.
  cbv zeta. unfold handleResetStep. simpl. unfold_monad. simpl.
  split; [|done]. intros k Hk.
  assert (k = 0 \/ k = 1 \/ k = 2 \/ k = 3)%Z as [-> | [-> | [-> | ->]]] by lia;
    (split; [done|]); (split; [apply events_of_no_events | set_solver]).
Qed.

Lemma reset_screening (st : State) :
  let st' := run (handleResetStep 1) st in
  (forall k, (1 <= k <= 3)%Z ->
     response_of k st' = JNull /\ stream_of st' k = [] /\ k ∉ completedSteps st')
  /\ reportFilePath st' = JNull /\ currentStep st' = 1%Z
  /\ filterResponse st' = filterResponse st.
Proof.
  cbv zeta. unfold handleResetStep, resetScreening. simpl. unfold_monad. simpl.
  split; [|done]. intros k Hk.
  assert (k = 1 \/ k = 2 \/ k = 3)%Z as [-> | [-> | ->]] by lia;
    (split; [done|]);
    (split; [unfold stream_of; simpl; rewrite !events_of_insert; by repeat case_decide
            | set_solver]).
Qed.

Lemma reset_risk (st : State) :
  let st' := run (handleResetStep 2) st in
  (forall k, (2 <= k <= 3)%Z ->
     response_of k st' = JNull /\ stream_of st' k = [] /\ k ∉ completedSteps st')
  /\ reportFilePath st' = JNull /\ currentStep st' = 2%Z
  /\ filterResponse st' = filterResponse st
  /\ screeningResponse st' = screeningResponse st.
Proof.
  cbv zeta. unfold handleResetStep, resetRiskAnalysis. simpl. unfold_monad. simpl.
  split; [|done]. intros k Hk.
  assert (k = 2 \/ k = 3)%Z as [-> | ->] by lia;
    (split; [done|]);
    (split; [unfold stream_of; simpl; rewrite !events_of_insert; by repeat case_decide
            | set_solver]).
Qed.

(** C7. [handleResetStep i] for [i] among 0, 1, 2 clears the response,
    the streamed events and the completed mark of step [i] and of every
    later step up to step 3, clears the report file path, and makes [i]
    the current step; the responses of the steps before [i] stay as
    they were. *)
Theorem handleResetStep_cascade (st : State) (i : Z) :
  (0 <= i <= 2)%Z ->
  let st' := run (handleResetStep i) st in
  (forall k, (i <= k <= 3)%Z ->
     response_of k st' = JNull /\ stream_of st' k = [] /\ k ∉ completedSteps st')
  /\ reportFilePath st' = JNull
  /\ currentStep st' = i
  /\ (forall k, (0 <= k < i)%Z -> response_of k st' = response_of k st).
Proof.
  intros Hi. assert (i = 0 \/ i = 1 \/ i = 2)%Z as [-> | [-> | ->]] by lia; cbv zeta.
  - destruct (reset_sourcing st) as (Hclear & Hpath & Hcur).
    split; [done|]. split; [done|]. split; [done|]. intros k Hk. lia.
  - destruct (reset_screening st) as (Hclear & Hpath & Hcur & Hfilter).
    split; [done|]. split; [done|]. split; [done|]. intros k Hk.
    assert (k = 0)%Z as -> by lia. done.
  - destruct (reset_risk st) as (Hclear & Hpath & Hcur & Hfilter & Hscreen).
    split; [done|]. split; [done|]. split; [done|]. intros k Hk.
    assert (k = 0 \/ k = 1)%Z as [-> | ->] by lia; done.
Qed.

Lemma handleResetStep_own (st : State) (i : Z) :
  (0 <= i <= 2)%Z ->
  currentStep (run (handleResetStep i) st) = i
  /\ stream_of (run (handleResetStep i) st) i = [].
Proof.
  intros Hi. assert (i = 0 \/ i = 1 \/ i = 2)%Z as [-> | [-> | ->]] by lia.
  - destruct (reset_sourcing st) as (Hclear & _ & Hcur).
    split; [done|]. apply Hclear. lia.
  - destruct (reset_screening st) as (Hclear & _ & Hcur & _).
    split; [done|]. apply Hclear. lia.
  - destruct (reset_risk st) as (Hclear & _ & Hcur & _).
    split; [done|]. apply Hclear. lia.
Qed.
End Reset.

(** *** The message handlers *)

Section MessageHandlers.
Import SourcingAgent Reference.
Context `{Runtime}.

Lemma with_agentThinkingSteps_same (st : State) :
  with_agentThinkingSteps (fun _ => agentThinkingSteps st) st = st.
Proof. by destruct st. Qed.

(** Collecting agent thinking touches [agentThinkingSteps] only and
    never throws. *)
Lemma collect_agent_thinking_run (eventData type : JsVal) (st : State) :
  exists steps,
    collect_agent_thinking eventData type st
    = (with_agentThinkingSteps (fun _ => steps) st, Ok tt).
Proof.
  unfold collect_agent_thinking.
  destruct (truthy type && truthy (prop eventData (lit "content"))).
  - destruct (js_or _ _) as [| |b|x|c|l|ps];
      try (exists (agentThinkingSteps st); unfold_monad;
           by rewrite with_agentThinkingSteps_same).
    destruct (truthy (JStr c) && truthy (JStr _)).
    + eexists. unfold_monad. by destruct st.
    + exists (agentThinkingSteps st). unfold_monad.
      by rewrite with_agentThinkingSteps_same.
  - exists (agentThinkingSteps st). unfold_monad.
    by rewrite with_agentThinkingSteps_same.
Qed.

Lemma assoc_set_prop_ne (k k' : jstring) (v : JsVal) (props : list (jstring * JsVal)) :
  k <> k' -> assoc k (set_prop k' v props) = assoc k props.
Proof.
  intros Hk. induction props as [|[k1 v1] props IH]; simpl.
  - assert (str_eqb k' k = false) as -> by (apply str_eqb_neq; congruence). done.
  - destruct (str_eqb k1 k') eqn:E1; simpl.
    + apply str_eqb_eq in E1. subst k1.
      assert (str_eqb k' k = false) as -> by (apply str_eqb_neq; congruence). done.
    + by rewrite IH.
Qed.

Lemma completion_message_nullish (s : Step) (v : JsVal) :
  is_nullish v = true -> completion_message s v = false.
Proof. by destruct v, s. Qed.

Lemma completes_nullish (s : Step) (v : JsVal) :
  is_nullish v = true -> completes s v = false.
Proof.
  intros Hv. unfold completes. by rewrite completion_message_nullish.
Qed.

Lemma closes_completes (s : Step) (v : JsVal) :
  closes s v = true -> completes s v = true.
Proof. unfold closes. by intros [? _]%andb_true_iff. Qed.

Lemma overall_text_eq (c : JsVal) :
  overall_text c
  = js_or (js_or (prop c (lit "overall_result")) (prop c (lit "overall_status")))
          (JStr []).
Proof.
  unfold overall_text, first_truthy, js_or. cbn [find].
  destruct (truthy (prop c (lit "overall_result"))) eqn:E1;
    [cbv iota; by rewrite E1|].
  by destruct (truthy (prop c (lit "overall_status"))) eqn:E2.
Qed.

Lemma announced_count_eq (v : JsVal) :
  announced_count v
  = js_or (get_opt (prop (prop v (lit "result")) (lit "qualified")) (lit "length"))
          (JNum 0).
Proof. unfold announced_count, first_truthy, js_or. cbn [find]. by destruct (truthy _). Qed.

Lemma is_safe_returns (c : JsVal) :
  negb (is_nullish c) && stringable (overall_text c) = true ->
  exists b, is_safe c = Ok b.
Proof.
  rewrite andb_true_iff, negb_true_iff, overall_text_eq. intros [Hc Hs].
  unfold is_safe, ToString. rewrite Hc, Hs. by eexists.
Qed.

Lemma is_safe_throws (c : JsVal) :
  negb (is_nullish c) && stringable (overall_text c) = false ->
  exists e, is_safe c = Throw e.
Proof.
  rewrite overall_text_eq. unfold is_safe, ToString.
  destruct (is_nullish c); [by eexists|]. simpl. intros ->. by eexists.
Qed.

Lemma count_safe_transformable (l : list JsVal) :
  forallb (fun c => negb (is_nullish c) && stringable (overall_text c)) l = true ->
  exists n, count_safe l = Ok n.
Proof.
  induction l as [|c l IH]; [by eexists|]. cbn [forallb count_safe].
  intros [Hc Hl]%andb_true_iff.
  destruct (is_safe_returns c Hc) as [b ->]. destruct (IH Hl) as [n ->]. by eexists.
Qed.

Lemma count_safe_not_transformable (l : list JsVal) :
  forallb (fun c => negb (is_nullish c) && stringable (overall_text c)) l = false ->
  exists e, count_safe l = Throw e.
Proof.
  induction l as [|c l IH]; [done|]. cbn [forallb count_safe].
  destruct (negb (is_nullish c) && stringable (overall_text c)) eqn:Hc.
  - destruct (is_safe_returns c Hc) as [b ->]. simpl. intros Hl.
    destruct (IH Hl) as [e ->]. by eexists.
  - intros _. destruct (is_safe_throws c Hc) as [e ->]. by eexists.
Qed.

Lemma passed_count_ok (r : JsVal) :
  transformable r = true -> exists n, passed_count r = Ok n.
Proof. destruct r; simpl; try done. apply count_safe_transformable. Qed.

Lemma passed_count_throws (r : JsVal) :
  transformable r = false -> exists e, passed_count r = Throw e.
Proof.
  destruct r; simpl; try (by eexists). apply count_safe_not_transformable.
Qed.

Lemma sourcing_onmessage_effect (v : JsVal) (st : State) :
  message_effect Sourcing v st (run (sourcing_onmessage (Ok v)) st).
Proof.
  unfold message_effect, closes, completes, sourcing_onmessage. unfold_monad. unfold get.
  destruct (is_nullish v) eqn:Ev; simpl.
  - pose proof (completion_message_nullish Sourcing v Ev) as Hc.
    unfold completion_message in Hc. rewrite Hc. done.
  - rewrite andb_true_r, announced_count_eq. unfold completion_message, ToString.
    destruct (strict_eq_str _ _ && _); simpl; [|done].
    destruct (stringable _); simpl; done.
Qed.

Lemma screening_onmessage_effect (v : JsVal) (st : State) :
  message_effect Screening v st (run (screening_onmessage (Ok v)) st).
Proof.
  unfold message_effect, closes, completes, screening_onmessage. unfold_monad.
  unfold get.
  destruct (is_nullish v) eqn:Ev; simpl.
  - pose proof (completion_message_nullish Screening v Ev) as Hc.
    unfold completion_message in Hc. rewrite Hc. done.
  - rewrite !andb_true_r. unfold completion_message.
    match goal with
    | |- context [collect_agent_thinking ?e ?t ?s] =>
        destruct (collect_agent_thinking_run e t s) as [steps ->]
    end.
    destruct (strict_eq_str _ _ && _); simpl; [|done].
    split; [done|]. split; [|done]. intros _.
    split; [done|]. split; [|done]. intros props Hprops.
    unfold company_details_of, get_opt. simpl. rewrite Hprops. simpl.
    rewrite !assoc_set_prop_ne; [done | vm_compute; congruence | vm_compute; congruence].
Qed.

Lemma risk_onmessage_effect (v : JsVal) (st : State) :
  message_effect RiskAnalysis v st (run (risk_onmessage (Ok v)) st).
Proof.
  unfold message_effect, closes, completes, risk_onmessage. unfold_monad. unfold get.
  destruct (is_nullish v) eqn:Ev; simpl.
  - pose proof (completion_message_nullish RiskAnalysis v Ev) as Hc.
    unfold completion_message in Hc. rewrite Hc. done.
  - rewrite andb_true_r. unfold completion_message.
    destruct (strict_eq_str _ _) eqn:Et; simpl; [|done].
    destruct (truthy (prop v (lit "results"))) eqn:Er; simpl; [|done].
    unfold js_or. rewrite Er.
    destruct (transformable (prop v (lit "results"))) eqn:Etr.
    + destruct (passed_count_ok _ Etr) as [n ->]. simpl. done.
    + destruct (passed_count_throws _ Etr) as [e ->]. simpl. done.
Qed.

Lemma report_message_is_object (v : JsVal) :
  completion_message Reporting v = true -> truthy v = true.
Proof.
  unfold completion_message. by destruct v as [| |b|x|s|l|ps].
Qed.

Lemma report_onmessage_effect (v : JsVal) (st : State) :
  message_effect Reporting v st (run (report_onmessage (Ok v)) st).
Proof.
  unfold message_effect, closes, completes, report_onmessage. unfold_monad. unfold get.
  destruct (is_nullish v) eqn:Ev; simpl.
  - pose proof (completion_message_nullish Reporting v Ev) as Hc.
    unfold completion_message in Hc. rewrite Hc. done.
  - rewrite !andb_true_r.
    destruct (completion_message Reporting v) eqn:Ec; unfold completion_message in Ec;
      rewrite Ec; simpl; [|done].
    split; [done|]. split; [|done]. intros _.
    split; [|done]. by apply report_message_is_object.
Qed.

Lemma onmessage_effect (s : Step) (v : JsVal) (st : State) :
  message_effect s v st (run (onmessage s (Ok v)) st).
Proof.
  destruct s.
  - apply sourcing_onmessage_effect.
  - apply screening_onmessage_effect.
  - apply risk_onmessage_effect.
  - apply report_onmessage_effect.
Qed.

(** A message that does not parse changes nothing. *)
Lemma onmessage_unparsed (s : Step) (e : JsError) (st : State) :
  run (onmessage s (Throw e)) st = st.
Proof. by destruct s. Qed.
End MessageHandlers.

(** *** Streams keep arrival order *)

Section Streams.
Import SourcingAgent Reference.
Context `{Runtime}.

Lemma step_index_inj (s s' : Step) : step_index s = step_index s' -> s = s'.
Proof. by destruct s, s'. Qed.

Lemma onmessage_stream (s : Step) (v : JsVal) (st : State) (k : Z) :
  stream_of (run (onmessage s (Ok v)) st) k
  = if decide (k = step_index s) then stream_of st k ++ [v] else stream_of st k.
Proof.
  unfold stream_of.
  destruct (onmessage_effect s v st) as [-> _].
  rewrite events_of_append. repeat case_decide; by subst.
Qed.

Lemma deliver_stream (msgs : list (Step * JsVal)) (st : State) (s : Step) :
  stream_of (deliver msgs st) (step_index s)
  = stream_of st (step_index s) ++ map snd (filter (fun m => fst m = s) msgs).
Proof.
  revert st. induction msgs as [|[s' v] msgs IH]; intros st.
  - simpl. by rewrite app_nil_r.
  - unfold deliver in *. cbn [fold_left fst snd]. rewrite IH.
    rewrite onmessage_stream. rewrite filter_cons. cbn [fst].
    case_decide as Hk.
    + apply step_index_inj in Hk. subst s'.
      rewrite decide_True by done. cbn [map snd]. by rewrite <- app_assoc.
    + rewrite decide_False; [done|]. intros ->. done.
Qed.

Lemma start_stream_stream (s : Step) (st : State) (j : Z) :
  stream_of (run (start_stream s) st) j
  = if decide (step_index s = j) then [] else stream_of st j.
Proof.
  unfold stream_of.
  assert (streamedEventsByStep (run (start_stream s) st)
          = <[step_index s := []]> (streamedEventsByStep st)) as -> by (by destruct s).
  apply events_of_insert.
Qed.

(** C8. Every [onmessage] handler appends the parsed event at the end
    of the stream of its own step and leaves every other stream as it
    was; hence, after any interleaving of messages, the stream of a
    step holds the events of that step in arrival order. *)
Theorem streams_keep_arrival_order (st : State) :
  (forall (s : Step) (v : JsVal) (k : Z),
      stream_of (run (onmessage s (Ok v)) st) k
      = if decide (k = step_index s) then stream_of st k ++ [v] else stream_of st k)
  /\ (forall (msgs : list (Step * JsVal)) (s : Step),
        stream_of (deliver msgs st) (step_index s)
        = stream_of st (step_index s)
            ++ map snd (filter (fun m => fst m = s) msgs)).
Proof.
  split.
  - intros s v k. apply onmessage_stream.
  - intros msgs s. apply deliver_stream.
Qed.
End Streams.

(** *** Completion of a step *)

Section Completion.
Import SourcingAgent Reference.
Context `{Runtime}.

(** C2, as the code has it. The handler of a step sets the response of
    the step and marks the step completed exactly on the completion
    message of the step: [analysis_complete] with a result for
    sourcing, [final_result] with content for screening,
    [report_complete] for reporting, and for risk analysis
    [session_complete] with results that are an array none of whose
    entries is null or undefined or has an overall result that cannot
    be converted to a string (the handler catches the failure of any
    other results and sets nothing). The response then holds the
    payload of the message. The handler closes the socket on the same
    messages, except that the sourcing handler leaves it open when the
    number of companies it announces cannot be converted to a string:
    the announcement is written after the response and the mark are
    set and before the socket is closed. Any other message leaves the
    response, the completed marks and the socket as they were, and a
    message that is not JSON changes nothing at all. *)
Theorem onmessage_completion (s : Step) (v : JsVal) (st : State) :
  let k := step_index s in
  let st' := run (onmessage s (Ok v)) st in
  (completes s v = true ->
     truthy (response_of k st') = true
     /\ payload_kept s v st'
     /\ completedSteps st' = completedSteps st ∪ {[k]})
  /\ (completes s v = false ->
      response_of k st' = response_of k st
      /\ completedSteps st' = completedSteps st)
  /\ (closes s v = true -> closedSockets st' = closedSockets st ∪ {[k]})
  /\ (closes s v = false -> closedSockets st' = closedSockets st)
  /\ (s <> RiskAnalysis -> completes s v = completion_message s v)
  /\ completes RiskAnalysis v
     = completion_message RiskAnalysis v && transformable (prop v (lit "results"))
  /\ (s <> Sourcing -> closes s v = completes s v)
  /\ closes Sourcing v
     = completion_message Sourcing v && stringable (announced_count v)
  /\ (forall e, run (onmessage s (Throw e)) st = st).
Proof.
  cbv zeta. destruct (onmessage_effect s v st) as (_ & Hyes & Hno & Hclose & Hopen).
  split; [done|]. split; [done|]. split; [done|]. split; [done|].
  split; [|split; [done|split; [|split]]].
  - intros Hs. unfold completes. destruct s; try done; apply andb_true_r.
  - intros Hs. unfold closes. destruct s; try done; apply andb_true_r.
  - unfold closes, completes. by rewrite andb_true_r.
  - intros e. apply onmessage_unparsed.
Qed.

(** A session whose results hold a null entry is a completion message
    by its type and field, and yet completes nothing. *)
Lemma null_result_completes_nothing (st : State) :
  let v := JObj [(lit "type", JStr (lit "session_complete"));
                 (lit "results", JArr [JNull])] in
  let st' := run (onmessage RiskAnalysis (Ok v)) st in
  completion_message RiskAnalysis v = true
  /\ riskAnalysisResponse st' = riskAnalysisResponse st
  /\ completedSteps st' = completedSteps st
  /\ closedSockets st' = closedSockets st.
Proof.
  cbv zeta. split; [done|].
  match goal with
  | |- context [onmessage RiskAnalysis (Ok ?v)] =>
      destruct (onmessage_effect RiskAnalysis v st) as (_ & _ & Hno & _ & Hopen)
  end.
  destruct Hno as [Hr Hc]; [done|]. split; [done|]. split; [done|]. by apply Hopen.
Qed.
End Completion.

(** *** Socket errors *)

Section SocketErrors.
Import SourcingAgent Reference.

Lemma onclose_resets (s : Step) (st : State) :
  isSubmitting (run (onclose s) st) = false
  /\ showStreamingPanel (run (onclose s) st) = false.
Proof. by destruct s. Qed.

(** C3, as the code has it. No [onerror] handler closes the socket or
    changes anything but the loading flags. After the handler of
    sourcing or of screening the streaming panel is hidden and
    [isSubmitting] is what it was; the handler of risk analysis changes
    neither flag; the handler of report generation lowers both. The
    [onclose] handler of every step lowers both flags and changes
    nothing else, so that both are lowered after an error event
    followed by the close event. *)
Theorem socket_error_then_close (s : Step) (st : State) :
  let st1 := run (onerror s) st in
  let st2 := run (onclose s) st1 in
  closedSockets st1 = closedSockets st
  /\ flags_apart st st1
  /\ showStreamingPanel st1
     = match s with RiskAnalysis => showStreamingPanel st | _ => false end
  /\ isSubmitting st1
     = match s with Reporting => false | _ => isSubmitting st end
  /\ flags_apart st1 st2
  /\ isSubmitting st2 = false
  /\ showStreamingPanel st2 = false.
Proof.
  cbv zeta. by destruct s.
Qed.
End SocketErrors.

(** *** Normalisers *)

Section Normalisers.
Import SourcingAgent Reference.

Lemma js_or_assoc (a b c : JsVal) : js_or (js_or a b) c = js_or a (js_or b c).
Proof.
  unfold js_or. destruct (truthy a) eqn:Ea; [by rewrite Ea|]. done.
Qed.

Lemma first_truthy_cons (a : JsVal) (l : list JsVal) (d : JsVal) :
  first_truthy (a :: l) d = js_or a (first_truthy l d).
Proof. unfold first_truthy, js_or. simpl. by destruct (truthy a). Qed.

Lemma js_coalesce_assoc (a b c : JsVal) :
  js_coalesce (js_coalesce a b) c = js_coalesce a (js_coalesce b c).
Proof.
  unfold js_coalesce. destruct (is_nullish a) eqn:Ea; [done|]. by rewrite Ea.
Qed.

Lemma first_defined_cons (a : JsVal) (l : list JsVal) (d : JsVal) :
  first_defined (a :: l) d = js_coalesce a (first_defined l d).
Proof. unfold first_defined, js_coalesce. simpl. by destruct (is_nullish a). Qed.

Lemma pick3_first_defined (val : JsVal) (a b c : jstring) :
  pick3 val a b c
  = first_defined [get_opt val a; get_opt val b; get_opt val c] (JStr []).
Proof.
  unfold pick3. rewrite !js_coalesce_assoc, !first_defined_cons. done.
Qed.

Lemma risk_record_normalised (entry : jstring * JsVal) :
  risk_record entry = normalised_record entry.
Proof.
  destruct entry as [category val]. unfold risk_record, normalised_record.
  by rewrite !pick3_first_defined.
Qed.

Lemma parameter_analysis_truthy (company : JsVal) :
  truthy (parameter_analysis_of company) = true.
Proof.
  unfold parameter_analysis_of. rewrite !first_truthy_cons. unfold js_or.
  destruct (truthy (prop company (lit "parameter_analysis"))) eqn:E1; [done|].
  destruct (truthy (prop company (lit "parameterAnalysis"))) eqn:E2; done.
Qed.

Lemma getRiskScores_falsy (company : JsVal) :
  truthy company = false -> getRiskScores company = JArr [].
Proof. unfold getRiskScores. by intros ->. Qed.

Lemma getRiskScores_own (company : JsVal) (l : list JsVal) :
  truthy company = true -> prop company (lit "risk_scores") = JArr l -> l <> [] ->
  getRiskScores company = JArr l.
Proof.
  intros Hc Hl Hne. unfold getRiskScores. rewrite Hc, Hl. simpl.
  by destruct l.
Qed.

Lemma getRiskScores_derived (company : JsVal) :
  truthy company = true ->
  is_nonempty_array (prop company (lit "risk_scores")) = false ->
  getRiskScores company
  = JArr (map normalised_record (Object_entries (parameter_analysis_of company))).
Proof.
  intros Hc Hn. unfold getRiskScores. rewrite Hc, Hn. simpl.
  assert (Hpa : js_or (js_or (prop company (lit "parameter_analysis"))
                             (prop company (lit "parameterAnalysis"))) (JObj [])
                = parameter_analysis_of company).
  { unfold parameter_analysis_of. by rewrite js_or_assoc, !first_truthy_cons. }
  rewrite Hpa. unfold js_or at 1. rewrite parameter_analysis_truthy.
  f_equal. apply map_ext. intros entry. apply risk_record_normalised.
Qed.

Lemma getOverall_first_truthy (company : JsVal) :
  getOverall company
  = first_truthy [get_opt company (lit "overall_result");
                  get_opt company (lit "overallResult");
                  get_opt company (lit "overall_status");
                  get_opt company (lit "overallStatus");
                  get_opt company (lit "overall")] (JStr []).
Proof.
  unfold getOverall. rewrite !js_or_assoc, !first_truthy_cons. done.
Qed.

(** C4. [getRiskScores] returns the [risk_scores] of a company when
    that is a non-empty array; otherwise one record of category, status
    and reason per entry of its parameter analysis (under either
    spelling), the status being the first defined of [status],
    [Status], [status_text] and the reason the first defined of
    [reason], [Reason], [reason_text], the empty string when there is
    none; and the empty list for a null or undefined company.
    [getOverall] returns the first truthy of [overall_result],
    [overallResult], [overall_status], [overallStatus], [overall], and
    the empty string when there is none. *)
Theorem normalisers_spec (company : JsVal) :
  (is_nullish company = true -> getRiskScores company = JArr [])
  /\ (truthy company = true ->
      forall l, prop company (lit "risk_scores") = JArr l -> l <> [] ->
                getRiskScores company = JArr l)
  /\ (truthy company = true ->
      is_nonempty_array (prop company (lit "risk_scores")) = false ->
      getRiskScores company
      = JArr (map normalised_record (Object_entries (parameter_analysis_of company))))
  /\ getOverall company
     = first_truthy [get_opt company (lit "overall_result");
                     get_opt company (lit "overallResult");
                     get_opt company (lit "overall_status");
                     get_opt company (lit "overallStatus");
                     get_opt company (lit "overall")] (JStr []).
Proof.
  split; [intros Hn; apply getRiskScores_falsy; by apply nullish_not_truthy|].
  split; [intros Hc l; by apply getRiskScores_own|].
  split; [apply getRiskScores_derived|].
  apply getOverall_first_truthy.
Qed.
End Normalisers.

(** *** Trimming *)

Section Trimming.
Import Js.

Lemma drop_while_suffix (p : N -> bool) (s : jstring) :
  exists pre, s = pre ++ drop_while p s.
Proof.
  induction s as [|c s [pre IH]]; [by exists []|]. simpl.
  destruct (p c); [|by exists []]. exists (c :: pre). simpl. by f_equal.
Qed.

Lemma drop_while_head (p : N -> bool) (s : jstring) (c : N) (rest : jstring) :
  drop_while p s = c :: rest -> p c = false.
Proof.
  induction s as [|x s IH]; [done|]. simpl. destruct (p x) eqn:Hx; [done|].
  by intros [= <- _].
Qed.

Lemma drop_while_id (p : N -> bool) (s : jstring) :
  (forall c rest, s = c :: rest -> p c = false) -> drop_while p s = s.
Proof.
  destruct s as [|c s]; [done|]. intros Hs. simpl. by rewrite (Hs c s).
Qed.

Lemma trim_infix (s : jstring) : exists pre post, s = pre ++ trim s ++ post.
Proof.
  unfold trim. destruct (drop_while_suffix is_space s) as [pre Hpre].
  set (u := drop_while is_space s) in *.
  destruct (drop_while_suffix is_space (rev u)) as [tw Htw].
  exists pre, (rev tw). rewrite Hpre at 1. f_equal.
  rewrite <- (rev_involutive u) at 1. rewrite Htw at 1. by rewrite rev_app_distr.
Qed.

Lemma trim_head (s : jstring) (c : N) (rest : jstring) :
  trim s = c :: rest -> is_space c = false.
Proof.
  unfold trim. set (u := drop_while is_space s).
  destruct (drop_while_suffix is_space (rev u)) as [tw Htw]. intros Ht.
  assert (Hu : u = (c :: rest) ++ rev tw).
  { rewrite <- (rev_involutive u). rewrite Htw at 1. by rewrite rev_app_distr, Ht. }
  simpl in Hu. by apply (drop_while_head is_space s c (rest ++ rev tw)).
Qed.

Lemma trim_last (s front : jstring) (c : N) :
  trim s = front ++ [c] -> is_space c = false.
Proof.
  unfold trim. intros Ht. apply (f_equal (@rev N)) in Ht.
  rewrite rev_involutive, rev_app_distr in Ht. simpl in Ht.
  by apply (drop_while_head is_space _ c (rev front)) in Ht.
Qed.

Lemma trim_idem (s : jstring) : trim (trim s) = trim s.
Proof.
  unfold trim at 1.
  rewrite (drop_while_id is_space (trim s)) by apply trim_head.
  rewrite (drop_while_id is_space (rev (trim s))); [apply rev_involutive|].
  intros c rest Hrev. apply (trim_last s (rev rest) c).
  rewrite <- (rev_involutive (trim s)), Hrev. done.
Qed.
End Trimming.

(** *** What a message leaves alone *)

Section HandlerFrame.
Import SourcingAgent Reference.
Context `{Runtime}.

Lemma message_frame_refl (s : Step) (st : State) : message_frame s st st.
Proof. by constructor. Qed.

Ltac frame_done :=
  constructor; simpl; try done; try set_solver;
  intros s' Hs'; destruct s'; done.

Lemma sourcing_onmessage_frame (v : JsVal) (st : State) :
  message_frame Sourcing st (run (sourcing_onmessage (Ok v)) st).
Proof.
  unfold sourcing_onmessage. unfold_monad. unfold get.
  destruct (is_nullish v); simpl; [frame_done|].
  destruct (strict_eq_str _ _ && _); simpl; [|frame_done].
  unfold ToString. destruct (stringable _); simpl; frame_done.
Qed.

Lemma screening_onmessage_frame (v : JsVal) (st : State) :
  message_frame Screening st (run (screening_onmessage (Ok v)) st).
Proof.
  unfold screening_onmessage. unfold_monad. unfold get.
  destruct (is_nullish v); simpl; [frame_done|].
  match goal with
  | |- context [collect_agent_thinking ?e ?t ?s] =>
      destruct (collect_agent_thinking_run e t s) as [steps ->]
  end.
  destruct (strict_eq_str _ _ && _); simpl; frame_done.
Qed.

Lemma risk_onmessage_frame (v : JsVal) (st : State) :
  message_frame RiskAnalysis st (run (risk_onmessage (Ok v)) st).
Proof.
  unfold risk_onmessage. unfold_monad. unfold get.
  destruct (is_nullish v); simpl; [frame_done|].
  destruct (strict_eq_str _ _ && _); simpl; [|frame_done].
  destruct (passed_count _); simpl; frame_done.
Qed.

Lemma report_onmessage_frame (v : JsVal) (st : State) :
  message_frame Reporting st (run (report_onmessage (Ok v)) st).
Proof.
  unfold report_onmessage. unfold_monad. unfold get.
  destruct (is_nullish v); simpl; [frame_done|].
  destruct (strict_eq_str _ _); simpl; frame_done.
Qed.

Lemma onmessage_message_frame (s : Step) (ev : MessageEvent) (st : State) :
  message_frame s st (run (onmessage s ev) st).
Proof.
  destruct ev as [v|e]; [|rewrite onmessage_unparsed; apply message_frame_refl].
  destruct s.
  - apply sourcing_onmessage_frame.
  - apply screening_onmessage_frame.
  - apply risk_onmessage_frame.
  - apply report_onmessage_frame.
Qed.

(** X6. A message on the socket of one step never moves the user to
    another step, never touches the response of another step, the
    selection of companies or the aggregated thinking, never takes back
    a completed mark and never raises a loading flag. *)
Theorem onmessage_frame (s : Step) (ev : MessageEvent) (st : State) :
  let st' := run (onmessage s ev) st in
  currentStep st' = currentStep st
  /\ (forall s', s' <> s ->
        response_of (step_index s') st' = response_of (step_index s') st)
  /\ (s <> Reporting -> reportFilePath st' = reportFilePath st)
  /\ selectedCompanies st' = selectedCompanies st
  /\ aggregatedThinkingByStep st' = aggregatedThinkingByStep st
  /\ lastProcessedStreamingCountByStep st' = lastProcessedStreamingCountByStep st
  /\ completedSteps st ⊆ completedSteps st'
  /\ closedSockets st ⊆ closedSockets st'
  /\ (isSubmitting st' = true -> isSubmitting st = true)
  /\ (showStreamingPanel st' = true -> showStreamingPanel st = true).
Proof.
  cbv zeta. destruct (onmessage_message_frame s ev st). done.
Qed.
End HandlerFrame.

(** *** Cleaning the content of an event *)

Section CleanUp.
Import SourcingAgent Reference.

Lemma pairs_ind (P : jstring -> Prop) :
  P [] -> (forall c, P [c]) ->
  (forall c d rest, P rest -> P (d :: rest) -> P (c :: d :: rest)) ->
  forall s, P s.
Proof.
  intros Hnil Hone Hstep s.
  assert (Hboth : P s /\ forall c, P (c :: s)).
  { induction s as [|d s [IH1 IH2]]; [by split|]. split; [apply IH2|].
    intros c. apply Hstep; [done | apply IH2]. }
  apply Hboth.
Qed.

Lemma in_range_spec (lo hi c : N) : in_range lo hi c = true <-> (lo <= c <= hi)%N.
Proof. unfold in_range. rewrite andb_true_iff, !N.leb_le. done. Qed.

Lemma take_drop_while (p : N -> bool) (s : jstring) :
  s = take_while p s ++ drop_while p s.
Proof.
  induction s as [|c s IH]; [done|]. simpl.
  destruct (p c); [simpl; by f_equal | done].
Qed.

Lemma take_while_Forall (p : N -> bool) (s : jstring) :
  Forall (fun x => p x = true) (take_while p s).
Proof.
  induction s as [|c s IH]; [constructor|]. simpl.
  destruct (p c) eqn:Hc; by constructor.
Qed.

Lemma take_while_nil (p : N -> bool) (s : jstring) :
  take_while p s = [] -> drop_while p s = s.
Proof. destruct s as [|c s]; [done|]. simpl. by destruct (p c). Qed.

Lemma drop_while_app (p : N -> bool) (l1 l2 : jstring) :
  Forall (fun x => p x = true) l1 ->
  (forall x rest, l2 = x :: rest -> p x = false) ->
  drop_while p (l1 ++ l2) = l2.
Proof.
  intros Hl1 Hl2. induction Hl1 as [|x l1 Hx _ IH]; simpl.
  - by apply drop_while_id.
  - by rewrite Hx.
Qed.

Lemma drop_while_app_all (p : N -> bool) (l1 l2 : jstring) :
  Forall (fun x => p x = true) l1 ->
  drop_while p (l1 ++ l2) = drop_while p l2.
Proof. induction 1 as [|x l1 Hx _ IH]; simpl; [done | by rewrite Hx]. Qed.

Lemma take_while_app (p : N -> bool) (l1 l2 : jstring) :
  Forall (fun x => p x = true) l1 ->
  (forall x rest, l2 = x :: rest -> p x = false) ->
  take_while p (l1 ++ l2) = l1.
Proof.
  intros Hl1 Hl2. induction Hl1 as [|x l1 Hx _ IH]; simpl.
  - destruct l2 as [|x rest]; [done|]. simpl. by rewrite (Hl2 x rest).
  - rewrite Hx. by f_equal.
Qed.

Lemma digit_not_space (x : N) : is_digit x = true -> is_space x = false.
Proof.
  intros Hd. destruct (is_space x) eqn:Hs; [|done]. exfalso.
  unfold is_digit, is_space in *.
  rewrite !orb_true_iff, !in_range_spec, !N.eqb_eq in Hs.
  rewrite in_range_spec in Hd. lia.
Qed.

(** The first replacement. *)
Lemma strip_leading_symbols_removed (c : jstring) :
  leading_symbols_removed c (strip_leading_symbols c).
Proof.
  unfold leading_symbols_removed, strip_leading_symbols.
  set (sym := fun x => negb (is_word x) && negb (is_space x)).
  exists (take_while sym c), (take_while is_space (drop_while sym c)).
  split; [|split; [|split]].
  - rewrite <- take_drop_while. apply take_drop_while.
  - eapply Forall_impl; [apply take_while_Forall|]. intros x Hx. unfold sym in Hx.
    by apply andb_true_iff in Hx as [?%negb_true_iff ?%negb_true_iff].
  - apply take_while_Forall.
  - intros x rest Hc1.
    pose proof (drop_while_head is_space _ x rest Hc1) as Hspace.
    split; [done|]. intros Hnil. apply take_while_nil in Hnil.
    rewrite Hnil in Hc1. apply drop_while_head in Hc1. unfold sym in Hc1.
    rewrite Hspace, andb_true_r in Hc1. by apply negb_false_iff in Hc1.
Qed.

Lemma leading_symbols_removed_unique (c c1 : jstring) :
  leading_symbols_removed c c1 -> c1 = strip_leading_symbols c.
Proof.
  intros (symbols & spaces & -> & Hsym & Hsp & Hc1). unfold strip_leading_symbols.
  rewrite (drop_while_app _ symbols (spaces ++ c1)).
  - symmetry. apply drop_while_app; [done|]. intros x rest Hx. by apply (Hc1 x rest).
  - eapply Forall_impl; [exact Hsym|]. intros x [-> ->]. done.
  - intros x rest Hx. destruct spaces as [|y spaces].
    + destruct (Hc1 x rest Hx) as [_ Hw]. by rewrite Hw.
    + injection Hx as -> _. inversion Hsp as [|? ? Hy _]; subst.
      by rewrite Hy, andb_false_r.
Qed.

(** The second replacement. *)
Lemma strip_step_word_spec (s rest : jstring) :
  strip_step_word s = Some rest
  <-> exists word, s = word ++ rest /\ map upper_ascii word = lit "STEP".
Proof.
  change (lit "STEP") with [83; 84; 69; 80]%N. unfold strip_step_word. split.
  - destruct s as [|c1 [|c2 [|c3 [|c4 s]]]]; try done.
    destruct (_ && _) eqn:Htest; [|done]. intros [= <-].
    rewrite !andb_true_iff, !N.eqb_eq in Htest. destruct Htest as [[[H1 H2] H3] H4].
    exists [c1; c2; c3; c4]. split; [done|]. simpl. by rewrite H1, H2, H3, H4.
  - intros (word & -> & Hword).
    destruct word as [|c1 [|c2 [|c3 [|c4 [|c5 word]]]]]; try done.
    injection Hword as H1 H2 H3 H4. simpl. by rewrite H1, H2, H3, H4.
Qed.

Lemma strip_number_colon_label (digits after rest : jstring) :
  digits <> [] ->
  Forall (fun x => is_digit x = true) digits ->
  Forall (fun x => is_space x = true) after ->
  strip_number_colon (digits ++ [58%N] ++ after ++ rest)
  = Some (drop_while is_space rest).
Proof.
  intros Hne Hd Ha. unfold strip_number_colon.
  rewrite take_while_app, drop_while_app; try done;
    try (intros x r [= <- _]; done).
  destruct digits; [done|]. simpl. by rewrite drop_while_app_all.
Qed.

Lemma strip_step_label_label (label rest : jstring) :
  step_label label -> strip_step_label (label ++ rest) = drop_while is_space rest.
Proof.
  intros (word & spaces & digits & after & -> & Hw & Hsp & Hne & Hd & Ha).
  unfold strip_step_label. rewrite <- !app_assoc.
  rewrite (proj2 (strip_step_word_spec _ (spaces ++ digits ++ [58%N] ++ after ++ rest)))
    by eauto.
  rewrite drop_while_app; [by rewrite strip_number_colon_label | done |].
  intros x r Hx. destruct digits as [|d digits]; [done|].
  injection Hx as <- _. apply digit_not_space. by inversion Hd.
Qed.

Lemma step_label_nonempty (label : jstring) : step_label label -> label <> [].
Proof.
  intros (word & spaces & digits & after & -> & Hw & _) Hnil.
  destruct word; [done|]. done.
Qed.

Lemma drop_while_length (p : N -> bool) (s : jstring) :
  (length (drop_while p s) <= length s)%nat.
Proof.
  destruct (drop_while_suffix p s) as [pre Hs].
  rewrite Hs at 2. rewrite length_app. lia.
Qed.

Lemma no_step_label (c1 : jstring) :
  strip_step_label c1 = c1 ->
  forall label rest, step_label label -> c1 <> label ++ rest.
Proof.
  intros Hid label rest Hl ->. rewrite strip_step_label_label in Hid by done.
  apply step_label_nonempty in Hl.
  pose proof (drop_while_length is_space rest) as Hlen.
  rewrite Hid, length_app in Hlen. destruct label; [done|]. simpl in Hlen. lia.
Qed.

Lemma strip_step_label_removed (c1 : jstring) :
  step_label_removed c1 (strip_step_label c1).
Proof.
  unfold step_label_removed.
  destruct (strip_step_word c1) as [rest|] eqn:Hword;
    [|right; split; [|apply no_step_label]; unfold strip_step_label; by rewrite Hword].
  destruct (strip_number_colon (drop_while is_space rest)) as [rest'|] eqn:Hnum;
    [|right; split; [|apply no_step_label]; unfold strip_step_label;
      by rewrite Hword, Hnum].
  left. assert (strip_step_label c1 = rest') as ->
    by (unfold strip_step_label; by rewrite Hword, Hnum).
  apply strip_step_word_spec in Hword as (word & -> & Hword).
  unfold strip_number_colon in Hnum.
  set (d := drop_while is_space rest) in *.
  pose proof (take_drop_while is_space rest) as Hrest. fold d in Hrest.
  pose proof (take_drop_while is_digit d) as Hd.
  pose proof (take_while_Forall is_digit d) as Hdigits.
  destruct (take_while is_digit d) as [|t ts] eqn:Htake; [done|].
  destruct (drop_while is_digit d) as [|c after] eqn:Hdrop; [done|].
  destruct (N.eqb_spec c 58) as [->|]; [|done]. injection Hnum as <-.
  exists (word ++ take_while is_space rest ++ (t :: ts) ++ [58%N]
            ++ take_while is_space after).
  split; [|split].
  - exists word, (take_while is_space rest), (t :: ts), (take_while is_space after).
    split; [done|]. split; [done|]. split; [apply take_while_Forall|].
    split; [done|]. split; [done|]. apply take_while_Forall.
  - rewrite <- !app_assoc. f_equal. etrans; [exact Hrest|]. f_equal.
    etrans; [exact Hd|]. f_equal. simpl. f_equal.
    apply take_drop_while.
  - intros x r. apply drop_while_head.
Qed.

Lemma step_label_removed_unique (c1 c2 : jstring) :
  step_label_removed c1 c2 -> c2 = strip_step_label c1.
Proof.
  intros [(label & Hl & -> & Hc2) | [-> Hno]].
  - rewrite strip_step_label_label by done. symmetry. by apply drop_while_id.
  - destruct (strip_step_label_removed c1) as [(label & Hl & Hc1 & _) | [Hid _]];
      [|done]. by destruct (Hno label (strip_step_label c1) Hl).
Qed.

(** The third replacement. *)
Lemma remove_emoji_pair (c d : N) (rest : jstring) :
  remove_emoji (c :: d :: rest)
  = if is_high_surrogate c && is_low_surrogate d then
      if is_emoji (code_point c d) then remove_emoji rest
      else c :: d :: remove_emoji rest
    else if is_emoji c then remove_emoji (d :: rest)
         else c :: remove_emoji (d :: rest).
Proof. done. Qed.

Lemma characters_pair (c d : N) (rest : jstring) :
  characters (c :: d :: rest)
  = if is_high_surrogate c && is_low_surrogate d
    then [c; d] :: characters rest
    else [c] :: characters (d :: rest).
Proof. done. Qed.

Lemma remove_emoji_without_emoji (s : jstring) : remove_emoji s = without_emoji s.
Proof.
  unfold without_emoji.
  induction s as [| c | c d rest IH1 IH2] using pairs_ind.
  - done.
  - simpl. by destruct (is_emoji c).
  - rewrite remove_emoji_pair, characters_pair.
    destruct (is_high_surrogate c && is_low_surrogate d).
    + cbn [List.filter character_code].
      destruct (is_emoji (code_point c d)); cbn [negb concat app];
        [exact IH1 | by rewrite IH1].
    + cbn [List.filter character_code].
      destruct (is_emoji c); cbn [negb concat app]; [exact IH2 | by rewrite IH2].
Qed.

(** [trim]. *)
Lemma trim_trimmed (s : jstring) : trimmed s (trim s).
Proof.
  exists (take_while is_space s),
         (rev (take_while is_space (rev (drop_while is_space s)))).
  split; [|split; [apply take_while_Forall|split;
                   [apply Forall_rev, take_while_Forall|split;
                    [apply trim_head | apply trim_last]]]].
  unfold trim. rewrite <- rev_app_distr, <- take_drop_while, rev_involutive.
  apply take_drop_while.
Qed.

Lemma drop_while_all (p : N -> bool) (l : jstring) :
  Forall (fun x => p x = true) l -> drop_while p l = [].
Proof. induction 1 as [|x l Hx _ IH]; [done|]. simpl. by rewrite Hx. Qed.

Lemma trimmed_unique (s text : jstring) : trimmed s text -> text = trim s.
Proof.
  intros (before & after & -> & Hb & Ha & Hhead & Hlast). unfold trim.
  destruct text as [|x text].
  - simpl. rewrite (drop_while_all is_space (before ++ after)); [done|].
    by apply Forall_app.
  - rewrite (drop_while_app is_space before ((x :: text) ++ after)); [|done|].
    + rewrite rev_app_distr, drop_while_app; [by rewrite rev_involutive| |].
      * by apply Forall_rev.
      * intros y r Hrev. apply (Hlast (rev r) y).
        rewrite <- (rev_involutive (x :: text)), Hrev. done.
    + intros y r [= <- _]. by apply (Hhead x text).
Qed.

(** The chain of the three replacements and [trim]. *)
Lemma clean_text_cleaned (c : jstring) : cleaned c (clean_text c).
Proof.
  exists (strip_leading_symbols c), (strip_step_label (strip_leading_symbols c)).
  split; [apply strip_leading_symbols_removed|].
  split; [apply strip_step_label_removed|].
  rewrite <- remove_emoji_without_emoji. apply trim_trimmed.
Qed.

Lemma cleaned_unique (c text : jstring) : cleaned c text -> text = clean_text c.
Proof.
  intros (c1 & c2 & H1 & H2 & H3).
  apply leading_symbols_removed_unique in H1 as ->.
  apply step_label_removed_unique in H2 as ->.
  apply trimmed_unique in H3 as ->. unfold clean_text.
  by rewrite remove_emoji_without_emoji.
Qed.
End CleanUp.

(** *** Aggregation of streamed events *)

Section AggregationFacts.
Import SourcingAgent Reference.
Context `{Runtime}.

Lemma content_of_eq (event : JsVal) :
  content_of event
  = js_or (js_or (prop event (lit "content")) (prop event (lit "message"))) (JStr []).
Proof. unfold content_of. by rewrite js_or_assoc, !first_truthy_cons. Qed.

Lemma clean_event_string (event : JsVal) (c : jstring) :
  is_nullish event = false -> content_of event = JStr c ->
  clean_event event = Ok (item_of event (clean_text c)).
Proof.
  intros Hn Hc. rewrite content_of_eq in Hc. unfold clean_event, item_of.
  rewrite Hn, Hc, first_truthy_cons. by destruct (clean_text c).
Qed.

Lemma clean_event_converted (event : JsVal) :
  is_nullish event = false -> is_string (content_of event) = false ->
  stringable (content_of event) = true ->
  clean_event event = Ok (item_of event (string_of (content_of event))).
Proof.
  rewrite content_of_eq. intros Hn Hstr Hs. unfold clean_event, item_of.
  rewrite Hn, first_truthy_cons. unfold ToString. rewrite Hs.
  set (content := js_or _ _) in *.
  destruct content; try done; by destruct (string_of _).
Qed.

Lemma clean_event_throws (event : JsVal) :
  is_nullish event = true \/ stringable (content_of event) = false ->
  clean_event event = Throw TypeError.
Proof.
  rewrite content_of_eq. unfold clean_event. intros [-> | Hs]; [done|].
  destruct (is_nullish event); [done|]. unfold ToString. rewrite Hs.
  set (content := js_or _ _) in *. by destruct content.
Qed.

Lemma clean_events_app (l1 l2 : list JsVal) :
  clean_events (l1 ++ l2)
  = match clean_events l1 with
    | Throw e => Throw e
    | Ok items1 =>
        match clean_events l2 with
        | Throw e => Throw e
        | Ok items2 => Ok (items1 ++ items2)
        end
    end.
Proof.
  induction l1 as [|e l1 IH]; simpl.
  - by destruct (clean_events l2).
  - destruct (clean_event e) as [item|err]; [|done].
    rewrite IH. destruct (clean_events l1) as [items1|err]; [|done].
    destruct (clean_events l2) as [items2|err]; [|done].
    by destruct item.
Qed.

(** The items of a list of events are what the events contribute, one
    by one and in order. *)
Lemma clean_events_items (events : list JsVal) (items : list ThinkingItem) :
  clean_events events = Ok items
  <-> exists contributions,
        Forall2 (fun event contribution => clean_event event = Ok contribution)
          events contributions
        /\ items = omap id contributions.
Proof.
  split.
  - revert items. induction events as [|e events IH]; intros items.
    + intros [= <-]. exists []. by split; [constructor|].
    + simpl. destruct (clean_event e) as [item|err] eqn:He; [|done].
      destruct (clean_events events) as [rest|err]; [|done]. intros [= <-].
      destruct (IH rest eq_refl) as (cs & Hcs & ->).
      exists (item :: cs). split; [by constructor|]. by destruct item.
  - intros (cs & Hcs & ->). induction Hcs as [|e c events cs He _ IH]; [done|].
    simpl. rewrite He, IH. by destruct c.
Qed.

(** What the events contribute once all of them are processed, given
    what a processed prefix of them contributed. *)
Lemma clean_events_catch_up (n : nat) (evs : list JsVal)
  (done new : list ThinkingItem) :
  clean_events (take n evs) = Ok done ->
  clean_events (drop n evs) = Ok new ->
  clean_events evs = Ok (done ++ new).
Proof.
  intros Hd Hn. rewrite <- (take_drop n evs) at 1.
  by rewrite clean_events_app, Hd, Hn.
Qed.

Lemma clean_events_stuck (n : nat) (evs : list JsVal) (e : JsError)
  (done : list ThinkingItem) :
  clean_events (take n evs) = Ok done ->
  clean_events (drop n evs) = Throw e ->
  clean_events evs = Throw e.
Proof.
  intros Hd Hn. rewrite <- (take_drop n evs) at 1.
  by rewrite clean_events_app, Hd, Hn.
Qed.

Lemma thinking_of_insert (st : State) (k j : Z)
  (f : gmap Z (list ThinkingItem) -> list ThinkingItem)
  (g : gmap Z nat -> gmap Z nat) :
  thinking_of
    (with_lastProcessedStreamingCountByStep g
       (with_aggregatedThinkingByStep (fun prev => <[k := f prev]> prev) st)) j
  = if decide (k = j) then f (aggregatedThinkingByStep st) else thinking_of st j.
Proof.
  unfold thinking_of. simpl. rewrite lookup_insert. by case_decide.
Qed.

Lemma processed_count_insert (st : State) (k j : Z) (n : nat) (st0 : State) :
  lastProcessedStreamingCountByStep st0 = lastProcessedStreamingCountByStep st ->
  processed_count
    (with_lastProcessedStreamingCountByStep (fun c => <[k := n]> c) st0) j
  = if decide (k = j) then n else processed_count st j.
Proof.
  intros Heq. unfold processed_count. simpl. rewrite lookup_insert, Heq.
  by case_decide.
Qed.

(** The effect at the current step [k]: an emptied stream resets the
    aggregated thinking; otherwise the items of the events that were
    not processed yet are appended, in order. Other steps and the
    streams themselves are not touched. *)
Lemma aggregation_effect_step (st : State) :
  let k := currentStep st in
  let st' := aggregation_effect st in
  (stream_of st k = [] -> thinking_of st' k = [] /\ processed_count st' k = 0%nat)
  /\ (aggregated_in_order st k -> aggregated_in_order st' k)
  /\ (aggregated_in_order st k ->
      forall items, clean_events (stream_of st k) = Ok items ->
                    thinking_of st' k = items
                    /\ processed_count st' k = length (stream_of st k))
  /\ (forall j, j <> k ->
        thinking_of st' j = thinking_of st j
        /\ processed_count st' j = processed_count st j)
  /\ streamedEventsByStep st' = streamedEventsByStep st.
Proof.
  cbv zeta. unfold aggregation_effect, aggregated_in_order, stream_of.
  set (k := currentStep st).
  set (evs := events_of (streamedEventsByStep st) k).
  fold (processed_count st k). set (n := processed_count st k).
  destruct (Nat.eqb_spec (length evs) 0) as [Hlen|Hlen].
  - (* the stream is empty: reset *)
    assert (evs = []) as Hevs by (by destruct evs).
    rewrite (thinking_of_insert st k k (fun _ => [])), decide_True by done.
    rewrite (processed_count_insert st) by done. rewrite decide_True by done.
    simpl. fold evs. rewrite Hevs. simpl.
    split; [done|]. split; [done|]. split; [by intros _ items [= <-]|].
    split; [|done]. intros j Hj.
    rewrite (thinking_of_insert st k j (fun _ => [])), decide_False by done.
    rewrite (processed_count_insert st) by done. by rewrite decide_False.
  - split; [intros Hevs; rewrite Hevs in Hlen; done|].
    destruct (Nat.ltb_spec n (length evs)) as [Hlt|Hge].
    + destruct (clean_events (drop n evs)) as [new|e] eqn:Hnew.
      * (* new events, all of them cleaned *)
        assert (Hthink : forall done,
                   thinking_of st k = done ->
                   thinking_of
                     (with_lastProcessedStreamingCountByStep
                        (fun c => <[k := length evs]> c)
                        match new with
                        | [] => st
                        | _ :: _ =>
                            with_aggregatedThinkingByStep
                              (fun prev => <[k := default [] (prev !! k) ++ new]> prev) st
                        end) k = done ++ new).
        { intros done Hd. destruct new as [|i new].
          - unfold thinking_of in *. simpl. by rewrite app_nil_r.
          - rewrite (thinking_of_insert st k k (fun prev => default [] (prev !! k) ++ _)).
            rewrite decide_True by done.
            unfold thinking_of in Hd. by rewrite Hd. }
        assert (Hcount : forall j,
                   processed_count
                     (with_lastProcessedStreamingCountByStep
                        (fun c => <[k := length evs]> c)
                        match new with
                        | [] => st
                        | _ :: _ =>
                            with_aggregatedThinkingByStep
                              (fun prev => <[k := default [] (prev !! k) ++ new]> prev) st
                        end) j
                   = if decide (k = j) then length evs else processed_count st j).
        { intros j. apply processed_count_insert. by destruct new. }
        split; [|split; [|split]].
        -- intros [_ Hinv]. rewrite Hcount, decide_True by done.
           rewrite (Hthink _ eq_refl).
           replace (events_of _ k) with evs by (by destruct new).
           split; [done|].
           rewrite firstn_all. by apply (clean_events_catch_up n).
        -- intros [_ Hinv] items Hitems. rewrite (Hthink _ eq_refl).
           rewrite Hcount, decide_True by done. split; [|done].
           rewrite (clean_events_catch_up n evs _ _ Hinv Hnew) in Hitems.
           by injection Hitems.
        -- intros j Hj. rewrite Hcount, decide_False by done. split; [|done].
           destruct new; [done|].
           rewrite (thinking_of_insert st k j (fun prev => default [] (prev !! k) ++ _)).
           by rewrite decide_False.
        -- by destruct new.
      * (* a new event throws: the effect is abandoned *)
        split; [done|]. split; [|done].
        intros [_ Hinv] items Hitems.
        rewrite (clean_events_stuck n evs e _ Hinv Hnew) in Hitems. done.
    + (* nothing new *)
      split; [done|]. split; [|done].
      intros [Hle Hinv] items Hitems. fold evs in Hinv, Hle. fold n in Hle.
      rewrite take_ge in Hinv by lia. rewrite Hinv in Hitems.
      split; [by injection Hitems | lia].
Qed.

Lemma thinking_of_initial (k : Z) : thinking_of initial_state k = [].
Proof.
  unfold thinking_of, initial_state. simpl. rewrite !lookup_insert.
  repeat case_decide; try done; by rewrite ?lookup_empty.
Qed.

Lemma processed_count_initial (k : Z) : processed_count initial_state k = 0%nat.
Proof.
  unfold processed_count, initial_state. simpl. rewrite !lookup_insert.
  repeat case_decide; try done; by rewrite ?lookup_empty.
Qed.

Lemma initial_aggregated (k : Z) : aggregated_in_order initial_state k.
Proof.
  unfold aggregated_in_order. rewrite processed_count_initial, thinking_of_initial.
  split; [lia | done].
Qed.

(** The effect on the emptied stream of the current step. *)
Lemma aggregation_effect_empty (st : State) :
  let k := currentStep st in
  stream_of st k = [] ->
  thinking_of (aggregation_effect st) k = []
  /\ processed_count (aggregation_effect st) k = 0%nat
  /\ aggregated_in_order (aggregation_effect st) k.
Proof.
  cbv zeta. intros Hempty.
  destruct (aggregation_effect_step st) as (Hreset & _ & _ & _ & Hstreams).
  destruct (Hreset Hempty) as [Hthink Hcount].
  split; [done|]. split; [done|].
  unfold aggregated_in_order. rewrite Hthink, Hcount. split; [lia | done].
Qed.

(** A state change that leaves the aggregated thinking and the count of
    step [k] alone, and at most appends to its stream, keeps the
    aggregated thinking of the step in order. *)
Lemma aggregated_in_order_frame (st st' : State) (k : Z) (extra : list JsVal) :
  thinking_of st' k = thinking_of st k ->
  processed_count st' k = processed_count st k ->
  stream_of st' k = stream_of st k ++ extra ->
  aggregated_in_order st k -> aggregated_in_order st' k.
Proof.
  unfold aggregated_in_order. intros -> -> -> [Hle Hinv].
  rewrite length_app. split; [lia|]. by rewrite take_app_le.
Qed.

Lemma aggregated_in_order_same (st st' : State) (k : Z) :
  aggregatedThinkingByStep st' = aggregatedThinkingByStep st ->
  lastProcessedStreamingCountByStep st' = lastProcessedStreamingCountByStep st ->
  stream_of st' k = stream_of st k ->
  aggregated_in_order st k -> aggregated_in_order st' k.
Proof.
  intros Ht Hc Hs. apply (aggregated_in_order_frame st st' k []).
  - unfold thinking_of. by rewrite Ht.
  - unfold processed_count. by rewrite Hc.
  - by rewrite app_nil_r.
Qed.

Lemma onmessage_keeps (s : Step) (event : MessageEvent) (st : State) (k : Z) :
  aggregated_in_order st k -> aggregated_in_order (run (onmessage s event) st) k.
Proof.
  destruct event as [v|e]; [|by rewrite onmessage_unparsed].
  destruct (onmessage_message_frame s (Ok v) st)
    as [_ _ _ _ Hthinking Hprocessed _ _ _ _].
  apply (aggregated_in_order_frame _ _ k
           (if decide (k = step_index s) then [v] else [])).
  - unfold thinking_of. by rewrite Hthinking.
  - unfold processed_count. by rewrite Hprocessed.
  - rewrite onmessage_stream. case_decide; [done | by rewrite app_nil_r].
Qed.

Lemma start_stream_keeps (s : Step) (st : State) (k : Z) :
  step_index s <> k ->
  aggregated_in_order st k -> aggregated_in_order (run (start_stream s) st) k.
Proof.
  intros Hk. apply aggregated_in_order_same; try (by destruct s).
  unfold stream_of, events_of.
  destruct s; simpl in *; by rewrite lookup_insert_ne.
Qed.

Lemma handleResetStep_keeps (index : Z) (st : State) (k : Z) :
  (0 < index)%Z -> (k < index)%Z ->
  aggregated_in_order st k -> aggregated_in_order (run (handleResetStep index) st) k.
Proof.
  intros H0 Hk. unfold handleResetStep.
  destruct (Z.eqb_spec index 0) as [->|_]; [lia|].
  destruct (Z.eqb_spec index 1) as [->|_];
    [|destruct (Z.eqb_spec index 2) as [->|_]];
    apply aggregated_in_order_same; try done;
    unfold stream_of, events_of; simpl; by rewrite !lookup_insert_ne by lia.
Qed.

Lemma nextStep_keeps (st : State) (k : Z) :
  aggregated_in_order st k -> aggregated_in_order (nextStep st) k.
Proof.
  unfold nextStep. destruct (canProceedStep st) as [proceed|e]; [|done].
  by destruct (truthy proceed && _).
Qed.

Lemma prevStep_keeps (st : State) (k : Z) :
  aggregated_in_order st k -> aggregated_in_order (prevStep st) k.
Proof. unfold prevStep. by destruct (0 <? currentStep st)%Z. Qed.

Lemma navigateToStep_keeps (p : Params) (index : Z) (st : State) (k : Z) :
  aggregated_in_order st k -> aggregated_in_order (navigateToStep p index st) k.
Proof. unfold navigateToStep. by destruct (truthy _). Qed.

Lemma aggregation_effect_keeps (st : State) (k : Z) :
  aggregated_in_order st k -> aggregated_in_order (aggregation_effect st) k.
Proof.
  destruct (aggregation_effect_step st) as (_ & Hkeep & _ & Hother & Hstreams).
  destruct (decide (k = currentStep st)) as [->|Hk]; [done|].
  destruct (Hother k Hk) as [Ht Hc].
  apply (aggregated_in_order_frame _ _ k []); [done | done |].
  unfold stream_of. by rewrite Hstreams, app_nil_r.
Qed.

(** Every event of the page but the start of step [k] and the reset of
    a step up to [k] keeps the aggregated thinking of step [k] in
    order. *)
Lemma page_step_keeps (p : Params) (st : State) (ev : PageEvent) (k : Z) :
  keeps_stream k ev = true ->
  aggregated_in_order st k -> aggregated_in_order (page_step p st ev) k.
Proof.
  destruct ev as [s|s event|s|s| | |index|index|index|]; simpl; intros Hkeep.
  - destruct (currentStep st =? step_index s)%Z; [|done].
    apply start_stream_keeps. apply negb_true_iff in Hkeep. lia.
  - apply onmessage_keeps.
  - apply aggregated_in_order_same; by destruct s.
  - apply aggregated_in_order_same; by destruct s.
  - apply nextStep_keeps.
  - apply prevStep_keeps.
  - apply navigateToStep_keeps.
  - by destruct (_ && _ && _).
  - destruct (_ && _ && _); [|done]. apply handleResetStep_keeps; lia.
  - apply aggregation_effect_keeps.
Qed.

Lemma page_run_keeps (p : Params) (evs : list PageEvent) (st : State) (k : Z) :
  forallb (keeps_stream k) evs = true ->
  aggregated_in_order st k -> aggregated_in_order (page_run p evs st) k.
Proof.
  unfold page_run. revert st. induction evs as [|ev evs IH]; intros st; [done|].
  cbn [forallb fold_left]. intros [Hev Hevs]%andb_true_iff Hinv.
  apply IH; [done|]. by apply page_step_keeps.
Qed.

(** A run on the fresh page. *)
Lemma fresh_run_aggregated (p : Params) (k : Z) (evs : list PageEvent) :
  forallb (keeps_stream k) evs = true ->
  aggregated_in_order (page_run p evs initial_state) k.
Proof. intros Hevs. apply page_run_keeps; [done | apply initial_aggregated]. Qed.

(** A run of a step, from whatever the page held before: the start of
    the run empties the stream, the effect then resets the aggregated
    thinking. *)
Lemma started_run_aggregated (p : Params) (s : Step) (evs : list PageEvent)
  (st : State) :
  currentStep st = step_index s ->
  forallb (keeps_stream (step_index s)) evs = true ->
  aggregated_in_order (page_run p (Started s :: Rendered :: evs) st) (step_index s).
Proof.
  intros Hcur Hevs.
  change (page_run p (Started s :: Rendered :: evs) st)
    with (page_run p evs (aggregation_effect (page_step p st (Started s)))).
  apply page_run_keeps; [done|]. cbn [page_step]. rewrite Hcur, Z.eqb_refl.
  assert (Hstep : currentStep (run (start_stream s) st) = step_index s)
    by (rewrite <- Hcur; by destruct s).
  rewrite <- Hstep. apply aggregation_effect_empty.
  by rewrite Hstep, start_stream_stream, decide_True.
Qed.

(** The same after the reset of a step. *)
Lemma reset_run_aggregated (p : Params) (index : Z) (evs : list PageEvent)
  (st : State) :
  currentStep st = index -> (0 <= index <= 2)%Z ->
  forallb (keeps_stream index) evs = true ->
  aggregated_in_order (page_run p (ResetPressed index :: Rendered :: evs) st) index.
Proof.
  intros Hcur Hindex Hevs.
  change (page_run p (ResetPressed index :: Rendered :: evs) st)
    with (page_run p evs (aggregation_effect (page_step p st (ResetPressed index)))).
  apply page_run_keeps; [done|]. cbn [page_step]. rewrite Hcur, Z.eqb_refl.
  replace ((0 <=? index)%Z) with true by (symmetry; apply Z.leb_le; lia).
  replace ((index <=? 2)%Z) with true by (symmetry; apply Z.leb_le; lia).
  cbn [andb]. destruct (handleResetStep_own st index Hindex) as [Hstep Hempty].
  rewrite <- Hstep at 2. apply aggregation_effect_empty. by rewrite Hstep.
Qed.
End AggregationFacts.

Section MandateAggregation.
Import SourcingAgent Reference FundMandate.
Context `{Runtime}.

(** The effect of the FundMandate page on its single stream. *)
Lemma mandate_aggregation_effect_step (st : Stream) :
  let st' := FundMandate.aggregation_effect st in
  (streamingEvents st = [] ->
     aggregatedThinking st' = [] /\ lastProcessedStreamingCount st' = 0%nat)
  /\ (mandate_aggregated_in_order st -> mandate_aggregated_in_order st')
  /\ (mandate_aggregated_in_order st ->
      forall items, clean_events (streamingEvents st) = Ok items ->
                    aggregatedThinking st' = items
                    /\ lastProcessedStreamingCount st' = length (streamingEvents st))
  /\ streamingEvents st' = streamingEvents st.
Proof.
  cbv zeta. unfold FundMandate.aggregation_effect, mandate_aggregated_in_order.
  destruct st as [evs think n]. simpl.
  destruct (Nat.eqb_spec (length evs) 0) as [Hlen|Hlen].
  - assert (evs = []) as -> by (by destruct evs). simpl.
    split; [done|]. split; [done|]. split; [by intros _ items [= <-]|done].
  - split; [intros ->; done|].
    destruct (Nat.ltb_spec n (length evs)) as [Hlt|Hge].
    + destruct (clean_events (drop n evs)) as [new|e] eqn:Hnew; simpl.
      * assert (Hthink : match new with [] => think | _ :: _ => think ++ new end
                         = think ++ new).
        { destruct new; [by rewrite app_nil_r | done]. }
        rewrite Hthink. split; [|split; [|done]].
        -- intros [_ Hinv]. split; [done|].
           rewrite firstn_all. by apply (clean_events_catch_up n).
        -- intros [_ Hinv] items Hitems. split; [|done].
           rewrite (clean_events_catch_up n evs _ _ Hinv Hnew) in Hitems.
           by injection Hitems.
      * split; [done|]. split; [|done]. intros [_ Hinv] items Hitems.
        rewrite (clean_events_stuck n evs e _ Hinv Hnew) in Hitems. done.
    + simpl. split; [done|]. split; [|done]. intros [Hle Hinv] items Hitems.
      rewrite take_ge in Hinv by lia. rewrite Hinv in Hitems.
      split; [by injection Hitems | lia].
Qed.

Lemma mandate_initial_aggregated : mandate_aggregated_in_order initial_stream.
Proof. by split. Qed.

Lemma mandate_step_keeps (st : Stream) (ev : MandateEvent) :
  mandate_aggregated_in_order st -> mandate_aggregated_in_order (mandate_step st ev).
Proof.
  destruct ev as [event|]; simpl.
  - unfold mandate_aggregated_in_order. simpl. intros [Hle Hinv].
    rewrite length_app. split; [lia|]. by rewrite take_app_le.
  - apply mandate_aggregation_effect_step.
Qed.

Lemma mandate_run_keeps (evs : list MandateEvent) (st : Stream) :
  mandate_aggregated_in_order st -> mandate_aggregated_in_order (mandate_run evs st).
Proof.
  unfold mandate_run. revert st. induction evs as [|ev evs IH]; intros st; [done|].
  simpl. intros Hinv. apply IH. by apply mandate_step_keeps.
Qed.

Lemma mandate_cleared_aggregated (st : Stream) :
  let st' := FundMandate.aggregation_effect (mandate_cleared st) in
  streamingEvents st' = [] /\ aggregatedThinking st' = []
  /\ mandate_aggregated_in_order st'.
Proof. by repeat split. Qed.

(** A parse, from whatever the page held before. *)
Lemma mandate_parse_aggregated (evs : list MandateEvent) (st : Stream) :
  mandate_aggregated_in_order
    (mandate_run evs (FundMandate.aggregation_effect (mandate_cleared st))).
Proof. apply mandate_run_keeps. apply mandate_cleared_aggregated. Qed.
End MandateAggregation.

Section Aggregation.
Import SourcingAgent Reference.
Context `{Runtime}.

(** C5, as the code has it. The aggregated thinking of a step is, in
    order, what the processed events of the step contribute, the
    processed events being the first so many of its stream. This holds
    of every step on the fresh page, and of a step from the moment a
    run or a reset of the step at that step is followed by the effect,
    which finds the stream empty and resets the aggregated list to
    empty; it holds as long as no later start of a run of the step and
    no later reset of the step or of an earlier one empties the stream
    again: these leave the aggregated list and the count of the step
    as they were, and the effect resets them only when it runs at that
    step. While it holds, the effect at
    the step processes the whole stream, appending the new items at
    the end, provided every event can be cleaned; the effect leaves
    other steps alone. The items of a list of events are the
    contributions of the events, one by one, those that contribute
    nothing left out. An event contributes its content, or else its
    message, under its type, [agent_thinking] by default. A string
    content is cleaned: the leading run of characters that are neither
    word characters nor white space goes, with the white space after
    it, then a leading STEP label, the emoji of the listed ranges and
    the surrounding white space; any other content is converted to a
    string as it is. An event whose text is empty contributes nothing.
    An event that is null or undefined, or whose content cannot be
    converted to a string, makes the effect fail, and nothing is
    processed. The effect of the FundMandate page does the same on its
    one stream, which the start of a parse empties. *)
Theorem aggregation_in_order (p : Params) :
  (forall k evs,
      forallb (keeps_stream k) evs = true ->
      aggregated_in_order (page_run p evs initial_state) k)
  /\ (forall st s evs,
        currentStep st = step_index s ->
        forallb (keeps_stream (step_index s)) evs = true ->
        aggregated_in_order (page_run p (Started s :: Rendered :: evs) st)
          (step_index s))
  /\ (forall st index evs,
        currentStep st = index -> (0 <= index <= 2)%Z ->
        forallb (keeps_stream index) evs = true ->
        aggregated_in_order (page_run p (ResetPressed index :: Rendered :: evs) st)
          index)
  /\ (forall st,
        stream_of st (currentStep st) = [] ->
        thinking_of (aggregation_effect st) (currentStep st) = []
        /\ processed_count (aggregation_effect st) (currentStep st) = 0%nat
        /\ aggregated_in_order (aggregation_effect st) (currentStep st))
  /\ (forall st k evs,
        forallb (keeps_stream k) evs = true ->
        aggregated_in_order st k -> aggregated_in_order (page_run p evs st) k)
  /\ (forall st items,
        aggregated_in_order st (currentStep st) ->
        clean_events (stream_of st (currentStep st)) = Ok items ->
        thinking_of (aggregation_effect st) (currentStep st) = items
        /\ processed_count (aggregation_effect st) (currentStep st)
           = length (stream_of st (currentStep st)))
  /\ (forall st j,
        j <> currentStep st ->
        thinking_of (aggregation_effect st) j = thinking_of st j
        /\ processed_count (aggregation_effect st) j = processed_count st j)
  /\ (forall events items,
        clean_events events = Ok items
        <-> exists contributions,
              Forall2 (fun event contribution => clean_event event = Ok contribution)
                events contributions
              /\ items = omap id contributions)
  /\ (forall event c text,
        is_nullish event = false -> content_of event = JStr c -> cleaned c text ->
        clean_event event = Ok (item_of event text))
  /\ (forall c, exists text, cleaned c text)
  /\ (forall event,
        is_nullish event = false -> is_string (content_of event) = false ->
        stringable (content_of event) = true ->
        clean_event event = Ok (item_of event (string_of (content_of event))))
  /\ (forall event,
        is_nullish event = true \/ stringable (content_of event) = false ->
        clean_event event = Throw TypeError)
  /\ (forall st e,
        clean_events (drop (processed_count st (currentStep st))
                        (stream_of st (currentStep st))) = Throw e ->
        stream_of st (currentStep st) <> [] ->
        aggregation_effect st = st)
  /\ (forall evs, mandate_aggregated_in_order (mandate_run evs FundMandate.initial_stream))
  /\ (forall fm evs,
        FundMandate.aggregatedThinking
          (FundMandate.aggregation_effect (mandate_cleared fm)) = []
        /\ mandate_aggregated_in_order
             (mandate_run evs (FundMandate.aggregation_effect (mandate_cleared fm))))
  /\ (forall fm items,
        mandate_aggregated_in_order fm ->
        clean_events (FundMandate.streamingEvents fm) = Ok items ->
        FundMandate.aggregatedThinking (FundMandate.aggregation_effect fm) = items).
Proof.
  split; [apply fresh_run_aggregated|].
  split; [intros st s evs; apply started_run_aggregated|].
  split; [intros st index evs; apply reset_run_aggregated|].
  split; [apply aggregation_effect_empty|].
  split; [intros st k evs; apply page_run_keeps|].
  split; [intros st items Hinv Hitems;
          by apply (aggregation_effect_step st)|].
  split; [intros st j Hj; by apply (aggregation_effect_step st)|].
  split; [apply clean_events_items|].
  split; [intros event c text Hn Hc Hclean;
          rewrite (cleaned_unique c text Hclean); by apply clean_event_string|].
  split; [intros c; exists (clean_text c); apply clean_text_cleaned|].
  split; [apply clean_event_converted|].
  split; [apply clean_event_throws|].
  split.
  { intros st e Hthrow Hne. unfold aggregation_effect.
    unfold stream_of, processed_count in Hthrow, Hne.
    destruct (Nat.eqb_spec (length (events_of (streamedEventsByStep st) (currentStep st))) 0)
      as [Hlen|_]; [by destruct (events_of _ _)|].
    destruct (_ <? _)%nat; [|done]. by rewrite Hthrow. }
  split; [intros evs; apply mandate_run_keeps, mandate_initial_aggregated|].
  split; [intros fm evs; split; [done | apply mandate_parse_aggregated]|].
  intros fm items Hinv Hitems.
  by apply (mandate_aggregation_effect_step fm).
Qed.
End Aggregation.

(** ** Worked examples *)

Section Examples.
Import SourcingAgent Reference.

(** The claim C2 as it is worded fails on four completion messages.
    A risk session whose results hold a null entry, or an entry whose
    overall result has a [toString] of its own, or whose results are
    no array, has the completion type and carries results, yet the
    response stays null, step 2 is not marked completed and the socket
    stays open. A sourcing result whose list has such a length sets
    the response and the mark, and the socket stays open. *)
Lemma completion_message_falls_short :
  let risk := streaming_at 2 RiskAnalysis in
  let risk1 := run (@onmessage example_runtime RiskAnalysis (Ok null_session_event)) risk in
  let risk2 :=
    run (@onmessage example_runtime RiskAnalysis (Ok unreadable_session_event)) risk in
  let risk3 :=
    run (@onmessage example_runtime RiskAnalysis (Ok text_session_event)) risk in
  let sourcing :=
    run (@onmessage example_runtime Sourcing (Ok unannounced_sourcing_event))
      (streaming_at 0 Sourcing) in
  (completion_message RiskAnalysis null_session_event = true
   /\ riskAnalysisResponse risk1 = JNull
   /\ bool_decide (2%Z ∈ completedSteps risk1) = false
   /\ bool_decide (2%Z ∈ closedSockets risk1) = false
   /\ stream_of risk1 2 = [null_session_event])
  /\ (completion_message RiskAnalysis unreadable_session_event = true
      /\ riskAnalysisResponse risk2 = JNull
      /\ bool_decide (2%Z ∈ completedSteps risk2) = false
      /\ bool_decide (2%Z ∈ closedSockets risk2) = false)
  /\ (completion_message RiskAnalysis text_session_event = true
      /\ riskAnalysisResponse risk3 = JNull
      /\ bool_decide (2%Z ∈ completedSteps risk3) = false
      /\ bool_decide (2%Z ∈ closedSockets risk3) = false)
  /\ (completion_message Sourcing unannounced_sourcing_event = true
      /\ truthy (filterResponse sourcing) = true
      /\ bool_decide (0%Z ∈ completedSteps sourcing) = true
      /\ bool_decide (0%Z ∈ closedSockets sourcing) = false).
Proof. cbv zeta. vm_compute. done. Qed.

(** The claim C3 as it is worded fails on every socket: no [onerror]
    handler closes it. After the handler of risk analysis both loading
    flags are still up; after those of sourcing and screening
    [isSubmitting] is. *)
Lemma onerror_keeps_socket_and_flags :
  let sourcing := run (onerror Sourcing) (streaming_at 0 Sourcing) in
  let screening := run (onerror Screening) (streaming_at 1 Screening) in
  let risk := run (onerror RiskAnalysis) (streaming_at 2 RiskAnalysis) in
  let report := run (onerror Reporting) (streaming_at 3 Reporting) in
  (isSubmitting sourcing = true /\ showStreamingPanel sourcing = false
   /\ bool_decide (0%Z ∈ closedSockets sourcing) = false)
  /\ (isSubmitting screening = true /\ showStreamingPanel screening = false
      /\ bool_decide (1%Z ∈ closedSockets screening) = false)
  /\ (isSubmitting risk = true /\ showStreamingPanel risk = true
      /\ bool_decide (2%Z ∈ closedSockets risk) = false)
  /\ (isSubmitting report = false /\ showStreamingPanel report = false
      /\ bool_decide (3%Z ∈ closedSockets report) = false).
Proof. cbv zeta. vm_compute. done. Qed.

(** The claim C5 as it is worded fails in three ways. After the
    screening session above the bold markers after the check mark
    stay, and the object content of the final result is not cleaned
    at all, while the summary's clean-up would strip the leading
    symbols of both. When the user then goes back to step 0 and resets
    it, the stream of step 1 is emptied and its aggregated thinking
    stays. And a null event on the sourcing stream, or one whose
    content has a [toString] of its own, keeps the event after it from
    being processed. *)
Lemma aggregated_thinking_keeps_symbols :
  let screened :=
    @page_run example_runtime example_params screening_session initial_state in
  let after_reset :=
    @page_run example_runtime example_params
      [BackPressed; Rendered; ResetPressed 0; Rendered] screened in
  let blocked :=
    @page_run example_runtime example_params
      [Started Sourcing; Rendered; Arrived Sourcing (Ok JNull); Rendered;
       Arrived Sourcing (Ok thinking_event); Rendered]
      initial_state in
  let unread :=
    @page_run example_runtime example_params
      [Started Sourcing; Rendered;
       Arrived Sourcing (Ok unreadable_content_event); Rendered;
       Arrived Sourcing (Ok thinking_event); Rendered]
      initial_state in
  (currentStep screened = 1%Z
   /\ stream_of screened 1 = [thinking_event; final_result_event]
   /\ thinking_of screened 1
      = [ {| item_type := JStr (lit "agent_thinking");
             item_content := lit "**Done**" |};
          {| item_type := JStr (lit "final_result");
             item_content := lit "[object Object]" |} ]
   /\ omap (@summarised_contribution example_runtime) (stream_of screened 1)
      = [ {| item_type := JStr (lit "agent_thinking");
             item_content := lit "Done**" |};
          {| item_type := JStr (lit "final_result");
             item_content := lit "object Object]" |} ])
  /\ (currentStep after_reset = 0%Z
      /\ stream_of after_reset 1 = []
      /\ thinking_of after_reset 1
         = [ {| item_type := JStr (lit "agent_thinking");
                item_content := lit "**Done**" |};
             {| item_type := JStr (lit "final_result");
                item_content := lit "[object Object]" |} ]
      /\ processed_count after_reset 1 = 2%nat)
  /\ (stream_of blocked 0 = [JNull; thinking_event]
      /\ thinking_of blocked 0 = []
      /\ processed_count blocked 0 = 0%nat)
  /\ (stream_of unread 0 = [unreadable_content_event; thinking_event]
      /\ thinking_of unread 0 = []
      /\ processed_count unread 0 = 0%nat).
Proof.
  cbv zeta. split; [|split; [|split]]; vm_compute; done.
Qed.

(** A sourcing run on the fresh page, the effect running after the
    start and after each message: the aggregated thinking holds the
    cleaned content of both events. *)
Example sourcing_run_aggregates :
  let st :=
    @page_run example_runtime example_params
      [Started Sourcing; Rendered;
       Arrived Sourcing (Ok thinking_event); Rendered;
       Arrived Sourcing
         (Ok (JObj [(lit "message", JStr (lit "Step 2: ranking companies "))]));
       Rendered]
      initial_state in
  thinking_of st 0
  = [ {| item_type := JStr (lit "agent_thinking"); item_content := lit "**Done**" |};
      {| item_type := JStr (lit "agent_thinking");
         item_content := lit "ranking companies" |} ]
  /\ processed_count st 0 = 2%nat.
Proof. cbv zeta. vm_compute. done. Qed.

(** Resetting step 1 after the screening run above. *)
Lemma handleResetStep_cascade_witness :
  let st := screened_state in
  let st' := run (handleResetStep 1) st in
  (0 <= 1 <= 2)%Z
  /\ (forall k, (1 <= k <= 3)%Z ->
        response_of k st' = JNull /\ stream_of st' k = [] /\ k ∉ completedSteps st')
  /\ reportFilePath st' = JNull
  /\ currentStep st' = 1%Z
  /\ (forall k, (0 <= k < 1)%Z -> response_of k st' = response_of k st).
Proof.
  cbv zeta. split; [lia|]. apply (handleResetStep_cascade screened_state 1). lia.
Defined.

Example screening_run_completes :
  truthy (screeningResponse screened_state) = true
  /\ company_details_of screened_state = JArr []
  /\ bool_decide (1%Z ∈ completedSteps screened_state) = true
  /\ bool_decide (1%Z ∈ closedSockets screened_state) = true
  /\ agentThinkingSteps screened_state = [9989%N :: lit " **Done**"].
Proof. vm_compute. done. Qed.

Example clean_text_label :
  clean_text (lit ">> Step 12:  fetching data ") = lit "fetching data".
Proof. vm_compute. reflexivity. Qed.

Example clean_text_emoji :
  clean_text (lit "done " ++ [55357; 56832]%N ++ lit " ok") = lit "done  ok".
Proof. vm_compute. reflexivity. Qed.

Example clean_text_space_first : clean_text (lit "  !hi") = lit "!hi".
Proof. vm_compute. reflexivity. Qed.

Example escapeCSV_quotes :
  escapeCSV (lit "plain") = lit "plain"
  /\ escapeCSV (lit "a,b") = [dquote] ++ lit "a,b" ++ [dquote]
  /\ escapeCSV [104; dquote; 105]%N = [dquote; 104; dquote; dquote; 105; dquote]%N.
Proof. vm_compute. done. Qed.

Example validateFile_cases :
  FundMandate.validateFile
    {| FundMandate.file_type := lit "application/pdf";
       FundMandate.file_size := 10485760 |} = None
  /\ FundMandate.validateFile
       {| FundMandate.file_type := lit "application/pdf";
          FundMandate.file_size := 10485761 |}
     = Some (lit "File size must be less than 10MB")
  /\ FundMandate.validateFile
       {| FundMandate.file_type := lit "image/png"; FundMandate.file_size := 1 |}
     = Some (lit "Only PDF files are allowed").
Proof. vm_compute. done. Qed.

Example getRiskScores_cases :
  getRiskScores JNull = JArr []
  /\ getRiskScores (JObj [(lit "risk_scores", JArr [JBool true])]) = JArr [JBool true]
  /\ getRiskScores
       (JObj [(lit "risk_scores", JArr []);
              (lit "parameterAnalysis",
               JObj [(lit "liquidity",
                      JObj [(lit "Status", JStr (lit "SAFE"))])])])
     = JArr [JObj [(lit "category", JStr (lit "liquidity"));
                   (lit "status", JStr (lit "SAFE"));
                   (lit "reason", JStr [])]].
Proof. vm_compute. done. Qed.

Example getOverall_cases :
  getOverall (JObj [(lit "overall_result", JStr []);
                    (lit "overallStatus", JStr (lit "RISKY"))]) = JStr (lit "RISKY")
  /\ getOverall JUndefined = JStr [].
Proof. vm_compute. done. Qed.

Example groupedThinking_runs_example :
  let a := AgentThinkingAccordion.ItemObject (lit "agent_thinking") (lit "one") in
  let b := AgentThinkingAccordion.ItemString (lit "two") in
  let c := AgentThinkingAccordion.ItemObject (lit "tool_call") (lit "three") in
  AgentThinkingAccordion.getEventType c = lit "Tool Call"
  /\ AgentThinkingAccordion.groupedThinking [a; b; c; a] = [[a; b]; [c]; [a]].
Proof. vm_compute. done. Qed.

Example gating_after_screening :
  @canProceedStep example_runtime screened_state = Ok (JBool false)
  /\ canNavigateToStep
       {| sourcingList := [JNull]; screeningList := [JNull]; riskAnalysisList := [] |}
       screened_state 2 = JArr []
  /\ canNavigateToStep
       {| sourcingList := [JNull]; screeningList := [JNull]; riskAnalysisList := [] |}
       screened_state 1 = JUndefined.
Proof. vm_compute. done. Qed.
End Examples.

(** ** Further properties of the code *)

(** *** Moving between the steps *)

Section Navigation.
Import SourcingAgent Reference.
Context `{Runtime}.

Lemma canProceedStep_in_range (st : State) (v : JsVal) :
  canProceedStep st = Ok v -> truthy v = true -> (0 <= currentStep st <= 3)%Z.
Proof.
  unfold canProceedStep.
  destruct (currentStep st =? 0)%Z eqn:E0; [intros _ _; lia|].
  destruct (currentStep st =? 1)%Z eqn:E1; [intros _ _; lia|].
  destruct (currentStep st =? 2)%Z eqn:E2; [intros _ _; lia|].
  destruct (currentStep st =? 3)%Z eqn:E3; [intros _ _; lia|]. by intros [= <-].
Qed.

Lemma canNavigateToStep_in_range (p : Params) (st : State) (index : Z) :
  truthy (canNavigateToStep p st index) = true -> (0 <= index <= 3)%Z.
Proof.
  unfold canNavigateToStep.
  destruct (index =? 0)%Z eqn:E0; [lia|].
  destruct (index =? 1)%Z eqn:E1; [lia|].
  destruct (index =? 2)%Z eqn:E2; [lia|].
  destruct (index =? 3)%Z eqn:E3; [lia|]. done.
Qed.

Lemma nextStep_currentStep (st : State) :
  currentStep (nextStep st)
  = match canProceedStep st with
    | Ok proceed =>
        if truthy proceed && (currentStep st <? 3)%Z
        then (currentStep st + 1)%Z else currentStep st
    | Throw _ => currentStep st
    end.
Proof.
  unfold nextStep. destruct (canProceedStep st); [by destruct (_ && _) | done].
Qed.

Lemma prevStep_currentStep (st : State) :
  currentStep (prevStep st)
  = if (0 <? currentStep st)%Z then (currentStep st - 1)%Z else currentStep st.
Proof. unfold prevStep. by destruct (_ <? _)%Z. Qed.

(** X1. The current step stays one of the four steps whichever way the
    user moves: with the Next and Back buttons or with a button of the
    step bar, whatever index that button passes. *)
Theorem navigation_keeps_step_in_range (p : Params) (st : State) :
  (0 <= currentStep st <= 3)%Z ->
  (0 <= currentStep (nextStep st) <= 3)%Z
  /\ (0 <= currentStep (prevStep st) <= 3)%Z
  /\ (forall index, (0 <= currentStep (navigateToStep p index st) <= 3)%Z).
Proof.
  intros Hst. split; [|split].
  - rewrite nextStep_currentStep.
    destruct (canProceedStep st) as [proceed|e]; [|done].
    destruct (truthy proceed); simpl; [|done].
    destruct (Z.ltb_spec (currentStep st) 3); lia.
  - rewrite prevStep_currentStep.
    destruct (Z.ltb_spec 0 (currentStep st)); lia.
  - intros index. unfold navigateToStep.
    destruct (truthy (canNavigateToStep p st index)) eqn:Hn; [|done].
    apply canNavigateToStep_in_range in Hn. done.
Qed.

(** X2. The Next and Back buttons keep what the steps have produced:
    they change the current step and hide the streaming panel and touch
    nothing else; and Back undoes a Next that moved. *)
Theorem nextStep_prevStep_keep_results (st : State) :
  (forall step, step = nextStep st \/ step = prevStep st ->
     streamedEventsByStep step = streamedEventsByStep st
     /\ aggregatedThinkingByStep step = aggregatedThinkingByStep st
     /\ completedSteps step = completedSteps st
     /\ selectedCompanies step = selectedCompanies st
     /\ (forall k, response_of k step = response_of k st)
     /\ (showStreamingPanel step = true -> showStreamingPanel st = true))
  /\ (currentStep (nextStep st) <> currentStep st ->
      currentStep (prevStep (nextStep st)) = currentStep st).
Proof.
  split.
  - intros step [-> | ->].
    + unfold nextStep.
      destruct (canProceedStep st); [by destruct (_ && _) | done].
    + unfold prevStep. by destruct (_ <? _)%Z.
  - rewrite prevStep_currentStep, nextStep_currentStep.
    destruct (canProceedStep st) as [proceed|e] eqn:Hp; [|done].
    destruct (truthy proceed) eqn:Hc; simpl; [|done].
    apply (canProceedStep_in_range st proceed Hp) in Hc.
    destruct (Z.ltb_spec (currentStep st) 3); [|done]. intros _.
    destruct (Z.ltb_spec 0 (currentStep st + 1)); lia.
Qed.

Lemma present_nonempty_truthy (v : JsVal) :
  present_nonempty v = true -> truthy v = true.
Proof. unfold present_nonempty. by intros [? _]%andb_true_iff. Qed.

Lemma canProceedStep_result_list (st : State) (proceed : JsVal) :
  (0 <= currentStep st <= 2)%Z ->
  canProceedStep st = Ok proceed -> truthy proceed = true ->
  present_nonempty (result_list (currentStep st) st) = true.
Proof.
  intros Hk Ht Hc.
  destruct (canProceedStep_true_or_falsy st proceed Ht) as [->|Hf]; [|congruence].
  unfold result_list.
  assert (currentStep st = 0 \/ currentStep st = 1 \/ currentStep st = 2)%Z
    as [Hs | [Hs | Hs]] by lia; rewrite Hs; simpl.
  - by apply canProceedStep_sourcing.
  - by apply canProceedStep_screening.
  - by apply canProceedStep_risk.
Qed.

Lemma canNavigateToStep_result_list (p : Params) (st : State) (k : Z) :
  (0 <= k <= 2)%Z ->
  truthy (canNavigateToStep p st (k + 1))
  = nonempty (param_list p (k + 1)) && truthy (result_list k st).
Proof.
  intros Hk.
  assert (k = 0 \/ k = 1 \/ k = 2)%Z as [-> | [-> | ->]] by lia;
    unfold canNavigateToStep, param_list, result_list, js_and; simpl;
    by destruct (nonempty _).
Qed.

(** X3. The two gates agree in one direction: when the Next button
    moves on from step 0, 1 or 2, the button of the next step in the
    step bar is open too, provided the parameter list of that step is
    not empty. *)
Theorem nextStep_implies_navigable (p : Params) (st : State) :
  currentStep (nextStep st) <> currentStep st ->
  param_list p (currentStep st + 1) <> [] ->
  currentStep (navigateToStep p (currentStep st + 1) st) = currentStep (nextStep st).
Proof.
  rewrite nextStep_currentStep.
  destruct (canProceedStep st) as [proceed|e] eqn:Hproceed; [|done].
  destruct (truthy proceed) eqn:Hc; simpl; [|done].
  destruct (Z.ltb_spec (currentStep st) 3) as [Hlt|]; [|done].
  intros _ Hp. pose proof (canProceedStep_in_range st proceed Hproceed Hc) as Hr.
  unfold navigateToStep.
  rewrite canNavigateToStep_result_list by lia.
  apply nonempty_iff in Hp. rewrite Hp.
  rewrite (present_nonempty_truthy _
             (canProceedStep_result_list st proceed ltac:(lia) Hproceed Hc)).
  done.
Qed.

(** X4. They disagree in the other: on a step whose result list came
    back empty the Next button does nothing, while the step bar lets
    the user into the next step whenever that step has parameters. *)
Theorem empty_result_opens_step_bar_only (p : Params) (st : State) :
  (0 <= currentStep st <= 2)%Z ->
  result_list (currentStep st) st = JArr [] ->
  nextStep st = st
  /\ (param_list p (currentStep st + 1) <> [] ->
      currentStep (navigateToStep p (currentStep st + 1) st) = (currentStep st + 1)%Z).
Proof.
  intros Hk Hres. split.
  - unfold nextStep.
    destruct (canProceedStep st) as [proceed|e] eqn:Hproceed; [|done].
    destruct (truthy proceed) eqn:Hc; [|done].
    pose proof (canProceedStep_result_list st proceed Hk Hproceed Hc) as Hp.
    rewrite Hres in Hp. done.
  - intros Hp. unfold navigateToStep.
    rewrite canNavigateToStep_result_list by lia.
    apply nonempty_iff in Hp. rewrite Hp, Hres. done.
Qed.

(** X5. Resetting step [i] shuts every later step: no button of the
    step bar leads beyond [i], and the Next button does nothing, until
    the step has been run again. *)
Theorem reset_blocks_later_steps (p : Params) (st : State) (i : Z) :
  (0 <= i <= 2)%Z ->
  let st' := run (handleResetStep i) st in
  (forall j, (i < j)%Z -> navigateToStep p j st' = st')
  /\ nextStep st' = st'.
Proof.
  intros Hi. cbv zeta.
  assert (Hnull : forall k, (i <= k <= 2)%Z ->
             result_list k (run (handleResetStep i) st) = JUndefined).
  { intros k Hk.
    assert (Hclear : response_of k (run (handleResetStep i) st) = JNull).
    { assert (i = 0 \/ i = 1 \/ i = 2)%Z as [-> | [-> | ->]] by lia.
      - destruct (reset_sourcing st) as (Hclear & _). apply Hclear; lia.
      - destruct (reset_screening st) as (Hclear & _). apply Hclear; lia.
      - destruct (reset_risk st) as (Hclear & _). apply Hclear; lia. }
    revert Hclear. generalize (run (handleResetStep i) st). intros st' Hclear.
    unfold result_list, qualified_of, company_details_of, all_companies_of.
    unfold response_of in Hclear.
    assert (k = 0 \/ k = 1 \/ k = 2)%Z as [-> | [-> | ->]] by lia;
      simpl in *; by rewrite Hclear. }
  assert (Hcur : currentStep (run (handleResetStep i) st) = i).
  { assert (i = 0 \/ i = 1 \/ i = 2)%Z as [-> | [-> | ->]] by lia.
    - by destruct (reset_sourcing st) as (_ & _ & ?).
    - by destruct (reset_screening st) as (_ & _ & ? & _).
    - by destruct (reset_risk st) as (_ & _ & ? & _). }
  split.
  - intros j Hj. unfold navigateToStep.
    destruct (truthy (canNavigateToStep p _ j)) eqn:Hn; [|done].
    pose proof (canNavigateToStep_in_range _ _ _ Hn) as Hr.
    replace j with (j - 1 + 1)%Z in Hn by lia.
    rewrite canNavigateToStep_result_list in Hn by lia.
    rewrite Hnull in Hn by lia. simpl in Hn. by rewrite andb_false_r in Hn.
  - unfold nextStep.
    destruct (canProceedStep _) as [proceed|e] eqn:Hproceed; [|done].
    destruct (truthy proceed) eqn:Hc; [|done].
    pose proof (canProceedStep_result_list _ proceed ltac:(rewrite Hcur; lia)
                  Hproceed Hc) as Hp.
    rewrite Hcur, Hnull in Hp by lia. done.
Qed.
End Navigation.

(** *** A run of a step, from its start to the close of its socket *)

Section Lifecycle.
Import SourcingAgent Reference.
Context `{Runtime}.

Lemma filter_same_step (s : Step) (msgs : list JsVal) :
  map snd (filter (fun m : Step * JsVal => fst m = s) (map (pair s) msgs)) = msgs.
Proof.
  induction msgs as [|v msgs IH]; [done|].
  cbn [map]. rewrite filter_cons. cbn [fst]. rewrite decide_True by done.
  cbn [map snd]. by rewrite IH.
Qed.

Lemma deliver_frame (msgs : list (Step * JsVal)) (st : State) :
  currentStep (deliver msgs st) = currentStep st
  /\ aggregatedThinkingByStep (deliver msgs st) = aggregatedThinkingByStep st
  /\ lastProcessedStreamingCountByStep (deliver msgs st)
     = lastProcessedStreamingCountByStep st
  /\ selectedCompanies (deliver msgs st) = selectedCompanies st
  /\ completedSteps st ⊆ completedSteps (deliver msgs st).
Proof.
  revert st. induction msgs as [|[s v] msgs IH]; intros st; [done|].
  unfold deliver in *. cbn [fold_left fst snd].
  destruct (IH (run (onmessage s (Ok v)) st)) as (-> & -> & -> & -> & Hc).
  destruct (onmessage_message_frame s (Ok v) st). repeat split; try done. set_solver.
Qed.

Lemma onclose_frame (s : Step) (st : State) :
  streamedEventsByStep (run (onclose s) st) = streamedEventsByStep st
  /\ filterResponse (run (onclose s) st) = filterResponse st
  /\ screeningResponse (run (onclose s) st) = screeningResponse st
  /\ riskAnalysisResponse (run (onclose s) st) = riskAnalysisResponse st
  /\ reportResponse (run (onclose s) st) = reportResponse st
  /\ reportFilePath (run (onclose s) st) = reportFilePath st
  /\ completedSteps (run (onclose s) st) = completedSteps st
  /\ closedSockets (run (onclose s) st) = closedSockets st
  /\ currentStep (run (onclose s) st) = currentStep st.
Proof. by destruct s. Qed.

(** X7. A whole run of a step: the handler starts the stream, any
    number of messages arrive, then a message that completes the step,
    then the close event of the socket is handled. Afterwards the
    stream of the step holds exactly the messages of this run in
    arrival order, the response holds the payload of the completing
    message, the step is marked completed, both loading flags are
    down, and the user is still on the step they were on. The client
    has closed the socket if the completing message is one on which
    the handler closes it; on the others (a sourcing result whose
    announcement cannot be written) the completing message leaves the
    socket as the earlier messages left it. *)
Theorem stream_lifecycle (s : Step) (msgs : list JsVal) (v : JsVal) (st : State) :
  completes s v = true ->
  let k := step_index s in
  let st1 := run (start_stream s) st in
  let st2 := deliver (map (pair s) msgs) st1 in
  let st3 := run (onmessage s (Ok v)) st2 in
  let st4 := run (onclose s) st3 in
  stream_of st4 k = msgs ++ [v]
  /\ truthy (response_of k st4) = true
  /\ payload_kept s v st4
  /\ isStepCompleted st4 k = true
  /\ (closes s v = true -> k ∈ closedSockets st4)
  /\ (closes s v = false -> closedSockets st4 = closedSockets st2)
  /\ isSubmitting st4 = false
  /\ showStreamingPanel st4 = false
  /\ currentStep st4 = currentStep st.
Proof.
  intros Hv. cbv zeta.
  set (st1 := run (start_stream s) st).
  set (st2 := deliver (map (pair s) msgs) st1).
  set (st3 := run (onmessage s (Ok v)) st2).
  destruct (onclose_frame s st3) as (Hev & Hf & Hsc & Hri & Hre & Hpath & Hco & Hcl & Hcur).
  destruct (onclose_resets s st3) as (Hsub & Hpanel).
  destruct (onmessage_effect s v st2) as (_ & Hyes & _ & Hclosed & Hopen).
  destruct (Hyes Hv) as (Hresp & Hpay & Hdone).
  fold st3 in Hresp, Hpay, Hdone, Hclosed, Hopen.
  split; [|split; [|split; [|split; [|split; [|split;
    [|split; [done|split; [done|]]]]]]]].
  - unfold stream_of. rewrite Hev. fold (stream_of st3 (step_index s)).
    unfold st3. rewrite onmessage_stream, decide_True by done.
    unfold st2. rewrite deliver_stream, filter_same_step.
    unfold st1. by rewrite start_stream_stream, decide_True.
  - replace (response_of (step_index s) (run (onclose s) st3))
      with (response_of (step_index s) st3); [done|].
    unfold response_of. by rewrite Hf, Hsc, Hri, Hre.
  - revert Hpay. unfold payload_kept, qualified_of, company_details_of, all_companies_of.
    rewrite Hf, Hsc, Hri, Hre, Hpath. done.
  - unfold isStepCompleted. apply bool_decide_eq_true. rewrite Hco, Hdone. set_solver.
  - intros Hc. rewrite Hcl, (Hclosed Hc). set_solver.
  - intros Hc. by rewrite Hcl, (Hopen Hc).
  - rewrite Hcur. unfold st3.
    destruct (onmessage_message_frame s (Ok v) st2) as [-> _ _ _ _ _ _ _ _ _].
    unfold st2. destruct (deliver_frame (map (pair s) msgs) st1) as (-> & _).
    unfold st1. by destruct s.
Qed.

(** X8. Starting a step again empties its stream and its response and
    raises both loading flags, and leaves the other steps alone; the
    step keeps its completed mark meanwhile, while neither gate lets
    the user past it; and the effect that aggregates the thinking then
    clears the aggregated thinking of the step, if the user is on it. *)
Theorem start_stream_rerun (p : Params) (s : Step) (st : State) :
  let k := step_index s in
  let st' := run (start_stream s) st in
  stream_of st' k = []
  /\ response_of k st' = JNull
  /\ isSubmitting st' = true
  /\ showStreamingPanel st' = true
  /\ (k ∉ closedSockets st')
  /\ (forall j, j <> k -> stream_of st' j = stream_of st j)
  /\ (forall s', s' <> s ->
        response_of (step_index s') st' = response_of (step_index s') st)
  /\ isStepCompleted st' k = isStepCompleted st k
  /\ truthy (canNavigateToStep p st' (k + 1)) = false
  /\ (currentStep st = k -> nextStep st' = st')
  /\ (currentStep st = k -> thinking_of (aggregation_effect st') k = []).
Proof.
  cbv zeta.
  split; [by rewrite start_stream_stream, decide_True|].
  split; [by destruct s|]. split; [by destruct s|]. split; [by destruct s|].
  split; [destruct s; simpl; set_solver|].
  split; [intros j Hj; by rewrite start_stream_stream, decide_False|].
  split; [intros s' Hs'; by destruct s, s'|].
  split; [by destruct s|].
  split; [destruct s; unfold canNavigateToStep, js_and; simpl; try done;
          by destruct (nonempty _)|].
  split.
  - intros Hk. unfold nextStep.
    destruct (decide (s = Reporting)) as [-> | Hs].
    { destruct (canProceedStep _) as [proceed|e]; [|done].
      replace (currentStep (run (start_stream Reporting) st)) with 3%Z by done.
      by rewrite andb_false_r. }
    destruct (canProceedStep _) as [proceed|e] eqn:Hproceed; [|done].
    destruct (truthy proceed) eqn:Hc; [|done].
    assert (Hcur : currentStep (run (start_stream s) st) = step_index s)
      by (rewrite <- Hk; by destruct s).
    assert (Hrange : (0 <= currentStep (run (start_stream s) st) <= 2)%Z)
      by (rewrite Hcur; destruct s; simpl; try lia; done).
    pose proof (canProceedStep_result_list _ proceed Hrange Hproceed Hc) as Hp.
    rewrite Hcur in Hp. by destruct s.
  - intros Hk.
    assert (Hcur : currentStep (run (start_stream s) st) = step_index s)
      by (rewrite <- Hk; by destruct s).
    destruct (aggregation_effect_step (run (start_stream s) st)) as (Hreset & _).
    rewrite Hcur in Hreset. apply Hreset.
    by rewrite start_stream_stream, decide_True.
Qed.

Lemma deliver_stream_extends (msgs : list (Step * JsVal)) (st : State) (k : Z) :
  exists more, stream_of (deliver msgs st) k = stream_of st k ++ more.
Proof.
  revert st. induction msgs as [|[s v] msgs IH]; intros st.
  - exists []. simpl. by rewrite app_nil_r.
  - unfold deliver in *. cbn [fold_left fst snd].
    destruct (IH (run (onmessage s (Ok v)) st)) as [more ->].
    rewrite onmessage_stream. case_decide.
    + eexists. by rewrite <- app_assoc.
    + by eexists.
Qed.

Lemma clean_events_null (l : list JsVal) (i : nat) (e : JsVal) :
  l !! i = Some e -> is_nullish e = true -> exists err, clean_events l = Throw err.
Proof.
  revert i. induction l as [|x l IH]; intros i Hi He; [done|].
  destruct i as [|i]; simpl in Hi.
  - injection Hi as ->. simpl. rewrite (clean_event_throws e (or_introl He)).
    by eexists.
  - simpl. destruct (clean_event x); [|by eexists].
    destruct (IH i Hi He) as [err ->]. by eexists.
Qed.

(** X9. One null event stalls the aggregation of a step. Once the
    stream of the current step holds a [null] (or [undefined]) event
    that has not been processed, the effect changes nothing, and it
    still changes nothing after any further messages have arrived:
    their thinking is never aggregated. *)
Theorem aggregation_stalls_on_null (st : State) (i : nat) (e : JsVal)
  (msgs : list (Step * JsVal)) :
  stream_of st (currentStep st) !! i = Some e ->
  is_nullish e = true ->
  (processed_count st (currentStep st) <= i)%nat ->
  aggregation_effect (deliver msgs st) = deliver msgs st.
Proof.
  intros Hi He Hn.
  destruct (deliver_frame msgs st) as (Hcur & _ & Hcount & _).
  destruct (deliver_stream_extends msgs st (currentStep st)) as [more Hmore].
  unfold aggregation_effect. rewrite Hcur, Hcount.
  fold (stream_of (deliver msgs st) (currentStep st)). rewrite Hmore.
  fold (processed_count st (currentStep st)).
  set (n := processed_count st (currentStep st)) in *.
  set (evs := stream_of st (currentStep st)) in *.
  pose proof (lookup_lt_Some _ _ _ Hi) as Hlen.
  assert (Hlen' : (i < length (evs ++ more))%nat) by (rewrite length_app; lia).
  destruct (Nat.eqb_spec (length (evs ++ more)) 0) as [|_]; [lia|].
  destruct (Nat.ltb_spec n (length (evs ++ more))) as [_|]; [|lia].
  destruct (clean_events_null (drop n (evs ++ more)) (i - n) e) as [err ->]; [|done|done].
  rewrite lookup_drop. replace (n + (i - n))%nat with i by lia.
  by apply lookup_app_l_Some.
Qed.
End Lifecycle.

(** *** Selecting sourced companies *)

Section Selection.
Import SourcingAgent Reference.

Lemma is_selected_select_below (n i : nat) :
  is_selected (select_below n) (Z.of_nat i) = (i <? n)%nat.
Proof.
  unfold is_selected. induction n as [|n IH]; simpl.
  - by rewrite lookup_empty.
  - rewrite lookup_insert. case_decide as Hi.
    + apply Nat2Z.inj in Hi. subst. simpl. symmetry. apply Nat.ltb_lt. lia.
    + rewrite IH. assert (i <> n) by congruence.
      destruct (Nat.ltb_spec i n), (Nat.ltb_spec i (S n)); try done; lia.
Qed.

Lemma filter_indexed_ext {A : Type} (p q : nat -> bool) (i : nat) (l : list A) :
  (forall j, (i <= j < i + length l)%nat -> p j = q j) ->
  filter_indexed p i l = filter_indexed q i l.
Proof.
  revert i. induction l as [|x l IH]; intros i Hpq; [done|]. simpl.
  rewrite (Hpq i) by (simpl; lia).
  rewrite (IH (S i)); [done|]. intros j Hj. apply Hpq. simpl. lia.
Qed.

Lemma filter_indexed_all {A : Type} (i : nat) (l : list A) :
  filter_indexed (fun _ => true) i l = l.
Proof. revert i. induction l as [|x l IH]; intros i; [done|]. simpl. by rewrite IH. Qed.

Lemma filter_indexed_none {A : Type} (i : nat) (l : list A) :
  filter_indexed (fun _ => false) i l = [].
Proof. revert i. induction l as [|x l IH]; intros i; [done|]. simpl. by rewrite IH. Qed.

Lemma filter_indexed_all_but {A : Type} (k i : nat) (l : list A) :
  filter_indexed (fun j => negb (j =? i + k)%nat) i l = delete k l.
Proof.
  revert k i. induction l as [|x l IH]; intros k i; [done|]. simpl.
  destruct k as [|k].
  - rewrite Nat.add_0_r, Nat.eqb_refl. simpl.
    rewrite (filter_indexed_ext _ (fun _ => true)); [apply filter_indexed_all|].
    intros j Hj. apply negb_true_iff, Nat.eqb_neq. lia.
  - assert ((i =? i + S k)%nat = false) as -> by (apply Nat.eqb_neq; lia). simpl.
    f_equal. rewrite <- (IH k (S i)). apply filter_indexed_ext.
    intros j _. by replace (i + S k)%nat with (S i + k)%nat by lia.
Qed.

Lemma qualified_present (st : State) (l : list JsVal) :
  qualified_of st = JArr l ->
  is_nullish (filterResponse st) = false
  /\ is_nullish (prop (filterResponse st) (lit "companies")) = false
  /\ prop (prop (filterResponse st) (lit "companies")) (lit "qualified") = JArr l.
Proof.
  unfold qualified_of, get_opt.
  destruct (is_nullish (filterResponse st)); [done|].
  destruct (is_nullish (prop (filterResponse st) (lit "companies"))); done.
Qed.

Lemma onSelectAll_run (st : State) (l : list JsVal) (checked : bool) :
  qualified_of st = JArr l ->
  run (onSelectAll checked) st
  = with_selectedCompanies
      (fun _ => if checked then select_below (length l) else ∅) st.
Proof.
  intros Hq. destruct (qualified_present st l Hq) as (Hr & Hc & Hl).
  unfold onSelectAll. destruct checked; [|done].
  unfold_monad. unfold get. rewrite Hr. simpl. rewrite Hc. simpl. by rewrite Hl.
Qed.

Lemma getSelectedCompanyList_array (st : State) (l : list JsVal) :
  qualified_of st = JArr l ->
  getSelectedCompanyList st
  = Ok (filter_indexed
          (fun index => is_selected (selectedCompanies st) (Z.of_nat index)) 0 l).
Proof.
  intros Hq. unfold getSelectedCompanyList. fold (qualified_of st). by rewrite Hq.
Qed.

Lemma is_selected_toggle (index j : Z) (m : gmap Z bool) :
  is_selected (toggle_index index m) j
  = if decide (index = j) then negb (is_selected m j) else is_selected m j.
Proof.
  unfold toggle_index. unfold is_selected at 1. rewrite lookup_insert.
  case_decide; by subst.
Qed.

(** X10. The header check box of the table of sourced companies:
    ticking it selects every qualified company, in the order of the
    response, clearing it selects none; and a row unticked after
    everything was selected leaves all companies but that one. *)
Theorem onSelectAll_selection (st : State) (l : list JsVal) :
  qualified_of st = JArr l ->
  getSelectedCompanyList (run (onSelectAll true) st) = Ok l
  /\ getSelectedCompanyList (run (onSelectAll false) st) = Ok []
  /\ (forall i : nat,
        getSelectedCompanyList
          (run (onSelectAll true;; toggleCompanySelect (Z.of_nat i)) st)
        = Ok (delete i l)).
Proof.
  intros Hq. split; [|split].
  - rewrite (onSelectAll_run st l true Hq).
    rewrite (getSelectedCompanyList_array _ l) by done. simpl. f_equal.
    rewrite (filter_indexed_ext _ (fun _ => true)); [apply filter_indexed_all|].
    intros j Hj. rewrite is_selected_select_below. apply Nat.ltb_lt. lia.
  - rewrite (onSelectAll_run st l false Hq).
    rewrite (getSelectedCompanyList_array _ l) by done. simpl. f_equal.
    rewrite (filter_indexed_ext _ (fun _ => false)); [apply filter_indexed_none|].
    intros j Hj. unfold is_selected. by rewrite lookup_empty.
  - intros i.
    assert (run (onSelectAll true;; toggleCompanySelect (Z.of_nat i)) st
            = run (toggleCompanySelect (Z.of_nat i)) (run (onSelectAll true) st)) as ->.
    { rewrite (onSelectAll_run st l true Hq). unfold onSelectAll.
      destruct (qualified_present st l Hq) as (Hr & Hc & Hl).
      unfold_monad. unfold get. rewrite Hr. simpl. rewrite Hc. simpl. by rewrite Hl. }
    rewrite (onSelectAll_run st l true Hq).
    rewrite (getSelectedCompanyList_array _ l) by done. simpl. f_equal.
    rewrite <- (filter_indexed_all_but i 0 l). apply filter_indexed_ext.
    intros j Hj. simpl. rewrite is_selected_toggle, is_selected_select_below.
    assert ((j <? length l)%nat = true) as -> by (apply Nat.ltb_lt; lia).
    case_decide as Hij.
    + apply Nat2Z.inj in Hij. subst. by rewrite Nat.eqb_refl.
    + assert (j <> i) by congruence. by destruct (Nat.eqb_spec j i).
Qed.

(** X11. Ticking a row twice gives back the selection there was, for
    the companies as for the expanded screening results: the record
    gains a key, and every index is selected exactly when it was. *)
Theorem toggle_twice_restores (index : Z) (st : State) :
  let st2 := run (toggleCompanySelect index;; toggleCompanySelect index) st in
  let st3 := run (toggleScreeningResult index;; toggleScreeningResult index) st in
  (forall j, is_selected (selectedCompanies st2) j = is_selected (selectedCompanies st) j)
  /\ getSelectedCompanyList st2 = getSelectedCompanyList st
  /\ (forall j, is_selected (expandedScreeningResults st3) j
                = is_selected (expandedScreeningResults st) j)
  /\ selectedCompanies st2 !! index = Some (is_selected (selectedCompanies st) index).
Proof.
  cbv zeta.
  assert (Hsel : forall m j,
             is_selected (toggle_index index (toggle_index index m)) j = is_selected m j).
  { intros m j. rewrite !is_selected_toggle. case_decide; [|done].
    by rewrite negb_involutive. }
  split; [intros j; apply Hsel|]. split; [|split; [intros j; apply Hsel|]].
  - unfold getSelectedCompanyList.
    replace (filterResponse (run _ st)) with (filterResponse st) by done.
    destruct (negb _); [done|]. destruct (get_opt _ _); try done.
    f_equal. apply filter_indexed_ext. intros j _. apply Hsel.
  - simpl. unfold toggle_index at 1. rewrite lookup_insert, decide_True by done.
    rewrite is_selected_toggle, decide_True by done. by rewrite negb_involutive.
Qed.

(** X12. Resetting step 0 or step 1 drops the selection of companies
    and the expanded screening results, so that no company is handed
    to the screening; resetting step 2 keeps both. *)
Theorem reset_clears_selection (st : State) :
  getSelectedCompanyList (run (handleResetStep 0) st) = Ok []
  /\ (forall l, qualified_of st = JArr l ->
                getSelectedCompanyList (run (handleResetStep 1) st) = Ok [])
  /\ (forall i, i = 0%Z \/ i = 1%Z ->
        selectedCompanies (run (handleResetStep i) st) = ∅
        /\ expandedScreeningResults (run (handleResetStep i) st) = ∅)
  /\ selectedCompanies (run (handleResetStep 2) st) = selectedCompanies st
  /\ expandedScreeningResults (run (handleResetStep 2) st) = expandedScreeningResults st.
Proof.
  split; [done|]. split; [|split; [|done]].
  - intros l Hq.
    rewrite (getSelectedCompanyList_array _ l) by done. f_equal.
    rewrite (filter_indexed_ext _ (fun _ => false)); [apply filter_indexed_none|].
    intros j _. done.
  - intros i [-> | ->]; done.
Qed.
End Selection.

(** *** The CSV document of the risk analysis *)

Section CsvDocument.
Import SourcingAgent Reference.

Lemma includes_cons (c x : N) (s : jstring) :
  includes c (x :: s) = (x =? c)%N || includes c s.
Proof. unfold includes. simpl. by rewrite N.eqb_sym. Qed.

Lemma parse_unquoted (f acc : jstring) (row : list jstring) (rest : jstring) :
  includes comma f = false -> includes newline f = false -> delimited rest ->
  parse_csv_from Unquoted acc row (f ++ rest) = after_field row (acc ++ f) rest.
Proof.
  revert acc. induction f as [|c f IH]; intros acc Hc Hn Hrest.
  - rewrite app_nil_r. simpl.
    destruct Hrest as [-> | [[rest' ->] | [rest' ->]]]; done.
  - rewrite includes_cons in Hc, Hn. apply orb_false_iff in Hc as [Hc1 Hc2].
    apply orb_false_iff in Hn as [Hn1 Hn2].
    cbn [app parse_csv_from]. rewrite Hc1, Hn1.
    rewrite IH by done. by rewrite <- app_assoc.
Qed.

Lemma parse_quoted (f acc : jstring) (row : list jstring) (rest : jstring) :
  delimited rest ->
  parse_csv_from Quoted acc row (double_quotes f ++ [dquote] ++ rest)
  = after_field row (acc ++ f) rest.
Proof.
  intros Hrest. revert acc. induction f as [|c f IH]; intros acc.
  - rewrite app_nil_r. simpl.
    destruct Hrest as [-> | [[rest' ->] | [rest' ->]]]; done.
  - cbn [double_quotes]. destruct (c =? dquote)%N eqn:Hc.
    + apply N.eqb_eq in Hc. subst c. cbn [app parse_csv_from].
      rewrite N.eqb_refl. rewrite IH. by rewrite <- app_assoc.
    + cbn [app parse_csv_from]. rewrite Hc. rewrite IH. by rewrite <- app_assoc.
Qed.

Lemma parse_field (f : jstring) (row : list jstring) (rest : jstring) :
  delimited rest ->
  parse_csv_from FieldStart [] row (escapeCSV f ++ rest) = after_field row f rest.
Proof.
  intros Hrest. unfold escapeCSV.
  destruct (includes comma f) eqn:Hc; simpl;
    [rewrite <- app_assoc; apply (parse_quoted f []); done|].
  destruct (includes dquote f) eqn:Hq; simpl;
    [rewrite <- app_assoc; apply (parse_quoted f []); done|].
  destruct (includes newline f) eqn:Hn; simpl;
    [rewrite <- app_assoc; apply (parse_quoted f []); done|].
  destruct f as [|c f].
  - simpl. destruct Hrest as [-> | [[rest' ->] | [rest' ->]]]; done.
  - rewrite includes_cons in Hc, Hq, Hn.
    apply orb_false_iff in Hc as [Hc1 Hc2].
    apply orb_false_iff in Hq as [Hq1 Hq2].
    apply orb_false_iff in Hn as [Hn1 Hn2].
    cbn [app parse_csv_from]. rewrite Hq1, Hc1, Hn1.
    apply (parse_unquoted f [c]); done.
Qed.

Lemma parse_record (r : list jstring) (f : jstring) (row : list jstring)
  (rest : jstring) :
  rest = [] \/ (exists rest', rest = newline :: rest') ->
  parse_csv_from FieldStart [] row (csv_record (f :: r) ++ rest)
  = match rest with
    | [] => [row ++ f :: r]
    | _ :: rest' => (row ++ f :: r) :: parse_csv_from FieldStart [] [] rest'
    end.
Proof.
  intros Hrest. revert f row. induction r as [|g r IH]; intros f row.
  - unfold csv_record. simpl. rewrite parse_field.
    + destruct Hrest as [-> | [rest' ->]]; done.
    + destruct Hrest as [-> | [rest' ->]]; [by left | right; right; by eexists].
  - unfold csv_record in *. cbn [map join]. cbn [map join] in IH.
    rewrite <- !app_assoc. rewrite parse_field by (right; left; by eexists).
    cbn [app after_field]. rewrite N.eqb_refl.
    rewrite IH. rewrite <- !app_assoc.
    destruct Hrest as [-> | [rest' ->]]; done.
Qed.

Lemma parse_records (rows : list (list jstring)) (row : list jstring) :
  row <> [] -> Forall (fun r => r <> []) rows ->
  parse_csv (join [newline] (map csv_record (row :: rows))) = row :: rows.
Proof.
  unfold parse_csv. revert row. induction rows as [|r rows IH]; intros row Hrow Hrows.
  - destruct row as [|f row]; [done|]. cbn [map join].
    rewrite <- (app_nil_r (csv_record (f :: row))). by rewrite parse_record by (by left).
  - apply Forall_cons in Hrows as [Hr Hrows].
    destruct row as [|f row]; [done|]. cbn [map join].
    cbn [map join] in IH.
    rewrite parse_record by (right; by eexists). cbn [app].
    f_equal. by apply IH.
Qed.

Section WithRuntime.
Context `{Runtime}.

Lemma escape_cells_strings (row : list jstring) :
  escape_cells (map JStr row) = Ok (map (fun s => JStr (escapeCSV s)) row).
Proof. induction row as [|s row IH]; [done|]. simpl. by rewrite IH. Qed.

Lemma join_texts_strings (row : list jstring) :
  join_texts (map JStr row) = Ok row.
Proof. induction row as [|s row IH]; [done|]. cbn [map join_texts]. by rewrite IH. Qed.

Lemma csv_line_strings (row : list jstring) :
  csv_line (map JStr row) = Ok (csv_record row).
Proof.
  unfold csv_line, csv_record. rewrite escape_cells_strings.
  rewrite <- (map_map escapeCSV JStr). by rewrite join_texts_strings.
Qed.

Lemma csv_lines_strings (rows : list (list jstring)) :
  csv_lines (map (map JStr) rows) = Ok (map csv_record rows).
Proof.
  induction rows as [|row rows IH]; [done|]. cbn [map csv_lines].
  by rewrite csv_line_strings, IH.
Qed.

Lemma csvContent_strings (rows : list (list jstring)) :
  csvContent (map (map JStr) rows)
  = Ok (join [newline] (map csv_record (csv_headers :: rows))).
Proof.
  unfold csvContent.
  change (map JStr csv_headers :: map (map JStr) rows)
    with (map (map JStr) (csv_headers :: rows)).
  by rewrite csv_lines_strings.
Qed.
End WithRuntime.

(** The rows the export builds *)

Lemma indexed_app {A B : Type} (f : nat -> A -> B) (n : nat) (l1 l2 : list A) :
  indexed f n (l1 ++ l2) = indexed f n l1 ++ indexed f (n + length l1) l2.
Proof.
  revert n. induction l1 as [|x l1 IH]; intros n; simpl.
  - by rewrite Nat.add_0_r.
  - rewrite IH. by replace (S n + length l1)%nat with (n + S (length l1))%nat by lia.
Qed.

Lemma indexed_length {A B : Type} (f : nat -> A -> B) (n : nat) (l : list A) :
  length (indexed f n l) = length l.
Proof. revert n. induction l as [|x l IH]; intros n; simpl; [done|]. by rewrite IH. Qed.

Lemma Forall_indexed {A B : Type} (P : B -> Prop) (f : nat -> A -> B) (n : nat)
  (l : list A) :
  Forall P (indexed f n l) -> Forall (fun x => exists i, P (f i x)) l.
Proof.
  revert n. induction l as [|x l IH]; intros n; simpl; [done|].
  intros [Hx Hl]%Forall_cons. constructor; [by exists n | by apply (IH (S n))].
Qed.

Lemma first_defined_single (v d : JsVal) : first_defined [v] d = js_coalesce v d.
Proof. unfold first_defined, js_coalesce. simpl. by destruct (is_nullish v). Qed.

Lemma export_row_row_of (n : nat) (company risk : JsVal) :
  is_nullish company = false -> is_nullish risk = false ->
  export_row n company risk = Ok (row_of n (company, risk)).
Proof.
  intros Hc Hr. unfold export_row, row_of. rewrite Hc, Hr.
  by rewrite !first_defined_single.
Qed.

Lemma export_risks_rows (n : nat) (company : JsVal) (risks : list JsVal)
  (rows : list (list JsVal)) :
  risks = [] \/ is_nullish company = false ->
  export_risks n company risks = Ok rows
  <-> Forall (fun risk => is_nullish risk = false) risks
      /\ rows = indexed row_of n (map (pair company) risks).
Proof.
  intros Hc. revert n rows. induction risks as [|risk risks IH]; intros n rows.
  - simpl. split; [by intros [= <-] | by intros [_ ->]].
  - destruct Hc as [|Hc]; [done|]. cbn [export_risks map indexed].
    destruct (is_nullish risk) eqn:Hr.
    + unfold export_row. rewrite Hc, Hr. split; [done|].
      intros [[Hr' _]%Forall_cons _]. congruence.
    + rewrite (export_row_row_of n company risk Hc Hr).
      destruct (export_risks (S n) company risks) as [rows'|e] eqn:Hrest.
      * apply (IH (or_intror Hc)) in Hrest as [Hall ->].
        split; [intros [= <-]; split; [by constructor | done]|].
        by intros [_ ->].
      * split; [done|]. intros [[_ Hall]%Forall_cons _].
        assert (export_risks (S n) company risks
                = Ok (indexed row_of (S n) (map (pair company) risks))) as Hok
            by (by apply (IH (or_intror Hc))).
        congruence.
Qed.

Lemma getRiskScores_array (company : JsVal) :
  getRiskScores company = JArr (risks_of company).
Proof.
  unfold risks_of, getRiskScores.
  destruct (negb (truthy company)); [done|].
  destruct (prop company (lit "risk_scores")); simpl; try done.
  by destruct (nonempty _).
Qed.

Lemma risks_of_nullish (company : JsVal) :
  risks_of company = [] \/ is_nullish company = false.
Proof. destruct company; try (by right); by left. Qed.

Lemma export_companies_indexed (n : nat) (companies : list JsVal)
  (rows : list (list JsVal)) :
  export_companies n companies = Ok rows
  <-> Forall (fun cr => is_nullish (snd cr) = false) (company_risks companies)
      /\ rows = indexed row_of n (company_risks companies).
Proof.
  revert n rows. induction companies as [|company companies IH]; intros n rows.
  - simpl. split; [by intros [= <-] | by intros [_ ->]].
  - cbn [export_companies]. rewrite getRiskScores_array.
    unfold company_risks. cbn [flat_map]. fold (company_risks companies).
    rewrite indexed_app, length_map, Forall_app.
    pose proof (export_risks_rows n company (risks_of company)) as Hrisks.
    destruct (export_risks n company (risks_of company)) as [rows1|e].
    + destruct (proj1 (Hrisks rows1 (risks_of_nullish company)) eq_refl) as [Hall1 ->].
      rewrite indexed_length, length_map.
      destruct (export_companies (n + length (risks_of company)) companies)
        as [more|e] eqn:Hmore.
      * apply IH in Hmore as [Hall2 ->]. split.
        -- intros [= <-]. split; [|done]. split; [|done].
           by apply Forall_map.
        -- by intros [_ ->].
      * split; [done|]. intros [[_ Hall2] _].
        assert (export_companies (n + length (risks_of company)) companies
                = Ok (indexed row_of (n + length (risks_of company))
                        (company_risks companies))) as Hok by (by apply IH).
        congruence.
    + split; [done|]. intros [[Hall1 _] _].
      assert (@Throw (list (list JsVal)) e
              = Ok (indexed row_of n (map (pair company) (risks_of company)))) as Hok.
      { apply Hrisks; [apply risks_of_nullish|]. split; [|done].
        by apply Forall_map in Hall1. }
      done.
Qed.

Lemma rows_have_six_cells (n : nat) (l : list (JsVal * JsVal)) :
  Forall (fun r : list JsVal => length r = 6%nat) (indexed row_of n l).
Proof.
  revert n. induction l as [|cr l IH]; intros n; simpl; constructor; [done | apply IH].
Qed.

Lemma indexed_lookup {A B : Type} (f : nat -> A -> B) (n : nat) (l : list A) (i : nat) :
  indexed f n l !! i = f (n + i)%nat <$> l !! i.
Proof.
  revert n i. induction l as [|x l IH]; intros n i; [done|].
  destruct i as [|i]; simpl.
  - by rewrite Nat.add_0_r.
  - rewrite IH. by replace (S n + i)%nat with (n + S i)%nat by lia.
Qed.

(** X13. The rows of the export are the risk records of the
    companies, company by company and record by record; building them
    fails exactly when a risk record is [null] or [undefined]. There
    is one row of six cells for every risk record, and the rows are
    numbered consecutively across the companies: the row at position
    [i] carries the number [n + i]. *)
Theorem export_companies_rows (n : nat) (companies : list JsVal)
  (rows : list (list JsVal)) :
  (export_companies n companies = Ok rows
   <-> Forall (fun cr => is_nullish (snd cr) = false) (company_risks companies)
       /\ rows = indexed row_of n (company_risks companies))
  /\ (export_companies n companies = Ok rows ->
      length rows = length (company_risks companies)
      /\ Forall (fun row => length row = 6%nat) rows
      /\ (forall i row, rows !! i = Some row ->
            row !! 0%nat = Some (JStr (index_key (n + i))))).
Proof.
  split; [apply export_companies_indexed|].
  intros Hrows. apply export_companies_indexed in Hrows as [_ ->].
  split; [apply indexed_length|]. split; [apply rows_have_six_cells|].
  intros i row. rewrite indexed_lookup.
  destruct (company_risks companies !! i) as [cr|]; [|done].
  by intros [= <-].
Qed.

Section WithRuntime.
Context `{Runtime}.

Lemma escape_cell_text (v cell : JsVal) : escape_cell v = Ok cell -> is_text v = true.
Proof. by destruct v. Qed.

Lemma escape_cells_text (row cells : list JsVal) :
  escape_cells row = Ok cells -> Forall (fun v => is_text v = true) row.
Proof.
  revert cells. induction row as [|v row IH]; intros cells; [done|]. simpl.
  destruct (escape_cell v) as [cell|e] eqn:Hv; [|done].
  destruct (escape_cells row) as [cells'|e]; [|done]. intros _.
  constructor; [by apply (escape_cell_text v cell) | by apply (IH cells')].
Qed.

Lemma csv_lines_text (rows : list (list JsVal)) (lines : list jstring) :
  csv_lines rows = Ok lines ->
  Forall (fun row => Forall (fun v => is_text v = true) row) rows.
Proof.
  revert lines. induction rows as [|row rows IH]; intros lines; [done|]. simpl.
  unfold csv_line at 1.
  destruct (escape_cells row) as [cells|e] eqn:Hrow; [|done].
  destruct (join_texts cells) as [texts|e]; [|done].
  destruct (csv_lines rows) as [lines'|e]; [|done]. intros _.
  constructor; [by apply (escape_cells_text row cells) | by apply (IH lines')].
Qed.

Lemma row_of_text (i n : nat) (cr : JsVal * JsVal) :
  Forall (fun v => is_text v = true) (row_of i cr) ->
  Forall (fun v => is_text v = true) (row_of n cr).
Proof.
  unfold row_of. intros [_ Hrest]%Forall_cons. by constructor.
Qed.

(** X14. The export has nothing to write exactly when the response
    holds no list of companies. And it writes a document only when
    every cell of every row is a string (or an array): one row whose
    company has no name, or whose risk record has no category, makes
    the whole export fail. *)
Theorem export_needs_text_cells (st : State) :
  (exportRiskAnalysisToCSV st = NoData <-> truthy (all_companies_of st) = false)
  /\ (forall content, exportRiskAnalysisToCSV st = Downloaded content ->
        exists companies,
          all_companies_of st = JArr companies
          /\ Forall (fun cr => is_nullish (snd cr) = false
                               /\ forall n, Forall (fun v => is_text v = true)
                                              (row_of n cr))
               (company_risks companies)).
Proof.
  unfold exportRiskAnalysisToCSV. fold (all_companies_of st).
  destruct (truthy (all_companies_of st)) eqn:Ht; simpl.
  - split.
    + split; [|done].
      destruct (all_companies_of st); try done.
      destruct (export_companies 1 elems); [|done]. by destruct (csvContent a).
    + intros content.
      destruct (all_companies_of st) as [| | | | |companies|]; try done.
      destruct (export_companies 1 companies) as [rows|e] eqn:Hrows; [|done].
      unfold csvContent.
      destruct (csv_lines _) as [lines|e] eqn:Hlines; [|done]. intros _.
      exists companies. split; [done|].
      apply export_companies_indexed in Hrows as [Hall ->].
      apply csv_lines_text in Hlines. apply Forall_cons in Hlines as [_ Hlines].
      apply Forall_indexed in Hlines.
      rewrite Forall_forall in Hall, Hlines. apply Forall_forall.
      intros cr Hcr. split; [by apply Hall|]. intros n.
      destruct (Hlines cr Hcr) as [i Hi]. by apply (row_of_text i).
  - split; [done|]. intros content. done.
Qed.

(** X15. When every cell of the rows is a string, the export writes a
    document that reads back, field by field, as the header row
    followed by the rows: what a comma, a double quote or a line feed
    inside a cell could break, the quoting repairs. *)
Theorem export_document_roundtrip (st : State) (companies : list JsVal)
  (rows : list (list jstring)) :
  all_companies_of st = JArr companies ->
  export_companies 1 companies = Ok (map (map JStr) rows) ->
  exists document,
    exportRiskAnalysisToCSV st = Downloaded document
    /\ parse_csv document = csv_headers :: rows.
Proof.
  intros Hall Hrows. unfold exportRiskAnalysisToCSV. fold (all_companies_of st).
  rewrite Hall. simpl. rewrite Hrows, csvContent_strings.
  eexists. split; [done|]. apply parse_records; [done|].
  apply export_companies_indexed in Hrows as [_ Hrows].
  assert (Hlen : Forall (fun r : list JsVal => length r = 6%nat)
                   (map (map JStr) rows)).
  { rewrite Hrows. apply rows_have_six_cells. }
  apply Forall_map in Hlen. apply (Forall_impl _ _ _ Hlen).
  intros r Hr ->. done.
Qed.
End WithRuntime.
End CsvDocument.

(** *** The link to a generated report *)

Section ReportLink.
Import SourcingAgent Reference.

Lemma split_on_nonempty (p : N -> bool) (cur s : jstring) : split_on p cur s <> [].
Proof.
  revert cur. induction s as [|c s IH]; intros cur; simpl; [done|].
  destruct (p c); [done | apply IH].
Qed.

Lemma last_cons_nonempty {A : Type} (x d : A) (l : list A) :
  l <> [] -> List.last (x :: l) d = List.last l d.
Proof. by destruct l. Qed.

Lemma last_split_on (p : N -> bool) (cur s : jstring) :
  let name := List.last (split_on p cur s) [] in
  (name = cur ++ s /\ forallb (fun x => negb (p x)) s = true)
  \/ (exists pre sep, s = pre ++ sep :: name /\ p sep = true
                      /\ forallb (fun x => negb (p x)) name = true).
Proof.
  cbv zeta. revert cur. induction s as [|c s IH]; intros cur.
  - left. simpl. by rewrite app_nil_r.
  - simpl. destruct (p c) eqn:Hc.
    + rewrite last_cons_nonempty by apply split_on_nonempty. right.
      destruct (IH []) as [[Hname Hs] | (pre & sep & Hs & Hsep & Hname)].
      * exists [], c. simpl in Hname. rewrite Hname. done.
      * exists (c :: pre), sep. split; [|done]. simpl. by f_equal.
    + destruct (IH (cur ++ [c])) as [[Hname Hs] | (pre & sep & Hs & Hsep & Hname)].
      * left. rewrite Hname, <- app_assoc. simpl. by rewrite Hs.
      * right. exists (c :: pre), sep. split; [|done]. simpl. by f_equal.
Qed.

Lemma encodeURIComponent_cons (c : N) (rest : jstring) :
  encodeURIComponent (c :: rest)
  = if is_uri_unreserved c then
      match encodeURIComponent rest with
      | Some encoded => Some (c :: encoded)
      | None => None
      end
    else if is_high_surrogate c then
      match rest with
      | d :: rest' =>
          if is_low_surrogate d then
            match encodeURIComponent rest' with
            | Some encoded => Some (flat_map percent (utf8 (code_point c d)) ++ encoded)
            | None => None
            end
          else None
      | [] => None
      end
    else if is_low_surrogate c then None
    else
      match encodeURIComponent rest with
      | Some encoded => Some (flat_map percent (utf8 c) ++ encoded)
      | None => None
      end.
Proof. done. Qed.

Lemma unreserved_spec (c : N) :
  is_uri_unreserved c = true
  <-> (48 <= c <= 57 \/ 65 <= c <= 90 \/ 97 <= c <= 122
       \/ c = 45 \/ c = 95 \/ c = 46 \/ c = 33 \/ c = 126 \/ c = 42 \/ c = 39
       \/ c = 40 \/ c = 41)%N.
Proof.
  unfold is_uri_unreserved. cbn [existsb].
  rewrite !orb_true_iff, !in_range_spec, !N.eqb_eq. intuition lia.
Qed.

Lemma unreserved_no_surrogate (c : N) :
  is_uri_unreserved c = true ->
  is_high_surrogate c = false /\ is_low_surrogate c = false.
Proof.
  rewrite unreserved_spec. intros Hc. unfold is_high_surrogate, is_low_surrogate.
  split; apply not_true_iff_false; rewrite in_range_spec; lia.
Qed.

(** A string can be encoded exactly when none of its characters is a
    surrogate on its own. *)
Lemma encodeURIComponent_well_formed (s : jstring) :
  is_Some (encodeURIComponent s) <-> well_formed s = true.
Proof.
  unfold well_formed.
  induction s as [| c | c d rest IH1 IH2] using pairs_ind.
  - done.
  - rewrite encodeURIComponent_cons. cbn [characters forallb lone_surrogate].
    destruct (is_uri_unreserved c) eqn:Hu.
    + destruct (unreserved_no_surrogate c Hu) as [-> ->]. done.
    + destruct (is_high_surrogate c); [split; [by intros [] | done]|].
      destruct (is_low_surrogate c); [split; [by intros [] | done]|]. done.
  - rewrite encodeURIComponent_cons, characters_pair.
    destruct (is_uri_unreserved c) eqn:Hu.
    + destruct (unreserved_no_surrogate c Hu) as [Hhi Hlo]. rewrite Hhi.
      cbn [andb forallb lone_surrogate]. rewrite Hhi, Hlo. cbn [orb negb andb].
      rewrite <- IH2.
      destruct (encodeURIComponent (d :: rest)); [done|]. split; by intros [].
    + destruct (is_high_surrogate c) eqn:Hhi; cbn [andb].
      * destruct (is_low_surrogate d).
        -- cbn [forallb lone_surrogate negb andb]. rewrite <- IH1.
           destruct (encodeURIComponent rest); [done|]. split; by intros [].
        -- cbn [forallb lone_surrogate]. rewrite Hhi. split; [by intros [] | done].
      * cbn [forallb lone_surrogate]. rewrite Hhi. cbn [orb].
        destruct (is_low_surrogate c); [split; [by intros [] | done]|].
        cbn [negb andb]. rewrite <- IH2.
        destruct (encodeURIComponent (d :: rest)); [done|]. split; by intros [].
Qed.

Lemma encodeURIComponent_unreserved (s : jstring) :
  forallb is_uri_unreserved s = true -> encodeURIComponent s = Some s.
Proof.
  induction s as [|c s IH]; [done|]. cbn [forallb].
  intros [Hc Hs]%andb_true_iff. rewrite encodeURIComponent_cons, Hc. by rewrite IH.
Qed.

Lemma hex_digit_unreserved (n : N) :
  (n < 16)%N -> is_uri_unreserved (hex_digit n) = true.
Proof.
  intros Hn. apply unreserved_spec. unfold hex_digit.
  destruct (N.ltb_spec n 10); lia.
Qed.

Lemma percent_safe (octet : N) :
  (octet < 256)%N ->
  Forall (fun c => is_uri_unreserved c = true \/ c = 37%N) (percent octet).
Proof.
  intros Ho. unfold percent.
  assert (octet / 16 < 16)%N by (apply N.Div0.div_lt_upper_bound; lia).
  assert (octet mod 16 < 16)%N by (apply N.mod_lt; lia).
  apply Forall_cons. split; [by right|].
  apply Forall_cons. split; [left; by apply hex_digit_unreserved|].
  apply Forall_cons. split; [left; by apply hex_digit_unreserved | constructor].
Qed.

Lemma utf8_octets (cp : N) :
  (cp < 1114112)%N -> Forall (fun octet => (octet < 256)%N) (utf8 cp).
Proof.
  intros Hcp. unfold utf8.
  destruct (N.ltb_spec cp 128); [repeat constructor; lia|].
  assert (Hmod : forall x, (x mod 64 < 64)%N) by (intros x; apply N.mod_lt; lia).
  destruct (N.ltb_spec cp 2048).
  { assert (cp / 64 < 32)%N by (apply N.Div0.div_lt_upper_bound; lia).
    pose proof (Hmod cp). repeat constructor; lia. }
  destruct (N.ltb_spec cp 65536).
  { assert (cp / 4096 < 16)%N by (apply N.Div0.div_lt_upper_bound; lia).
    pose proof (Hmod cp). pose proof (Hmod (cp / 64)%N). repeat constructor; lia. }
  assert (cp / 262144 < 8)%N by (apply N.Div0.div_lt_upper_bound; lia).
  pose proof (Hmod cp). pose proof (Hmod (cp / 64)%N). pose proof (Hmod (cp / 4096)%N).
  repeat constructor; lia.
Qed.

Lemma encoded_code_point_safe (cp : N) :
  (cp < 1114112)%N ->
  Forall (fun c => is_uri_unreserved c = true \/ c = 37%N) (flat_map percent (utf8 cp)).
Proof.
  intros Hcp. pose proof (utf8_octets cp Hcp) as Hoctets.
  induction Hoctets as [|octet octets Ho _ IH]; [constructor|].
  cbn [flat_map]. apply Forall_app. split; [by apply percent_safe | done].
Qed.

Lemma code_point_bound (c d : N) :
  is_high_surrogate c = true -> is_low_surrogate d = true ->
  (code_point c d < 1114112)%N.
Proof.
  unfold is_high_surrogate, is_low_surrogate, code_point.
  rewrite !in_range_spec. lia.
Qed.

(** What [encodeURIComponent] returns holds letters, digits, the nine
    marks and percent signs only. *)
Lemma encodeURIComponent_safe (s encoded : jstring) :
  Forall (fun c => (c < 65536)%N) s ->
  encodeURIComponent s = Some encoded ->
  Forall (fun c => is_uri_unreserved c = true \/ c = 37%N) encoded.
Proof.
  revert encoded. induction s as [| c | c d rest IH1 IH2] using pairs_ind;
    intros encoded Hunits.
  - by intros [= <-].
  - apply Forall_cons in Hunits as [Hc _]. rewrite encodeURIComponent_cons.
    destruct (is_uri_unreserved c) eqn:Hu;
      [intros [= <-]; apply Forall_cons; split; [by left | constructor]|].
    destruct (is_high_surrogate c); [done|]. destruct (is_low_surrogate c); [done|].
    intros [= <-]. rewrite app_nil_r. apply encoded_code_point_safe. lia.
  - pose proof Hunits as Hall.
    apply Forall_cons in Hunits as [Hc Hrest].
    pose proof Hrest as Hdrest. apply Forall_cons in Hrest as [Hd Hrest].
    rewrite encodeURIComponent_cons.
    destruct (is_uri_unreserved c) eqn:Hu.
    { destruct (encodeURIComponent (d :: rest)) as [e|] eqn:He; [|done].
      intros [= <-]. constructor; [by left | by apply IH2]. }
    destruct (is_high_surrogate c) eqn:Hhi.
    { destruct (is_low_surrogate d) eqn:Hlo; [|done].
      destruct (encodeURIComponent rest) as [e|] eqn:He; [|done]. intros [= <-].
      apply Forall_app. split; [|by apply IH1].
      apply encoded_code_point_safe. by apply code_point_bound. }
    destruct (is_low_surrogate c); [done|].
    destruct (encodeURIComponent (d :: rest)) as [e|] eqn:He; [|done].
    intros [= <-]. apply Forall_app. split; [|by apply IH2].
    apply encoded_code_point_safe. lia.
Qed.

(** X16. The report link. Without a path nothing is opened. A path
    that is not a string is opened as it is. Of a string path the part
    after its last slash or backslash is taken, the whole path when it
    has neither; that name holds no separator. When a character of the
    name is a surrogate on its own the name cannot be encoded and the
    path is opened as it is; otherwise the file of that name is asked
    of the server under [/report/files/], the name encoded: as it is
    when it holds letters, digits and the marks [-_.!~*'()] only, and
    in any case with no character but those and the percent sign. *)
Theorem openReportInBrowser_spec (filePath : JsVal) :
  (truthy filePath = false -> openReportInBrowser filePath = NoReportPath)
  /\ (truthy filePath = true -> is_string filePath = false ->
      openReportInBrowser filePath = OpenRawPath filePath)
  /\ (forall path,
        filePath = JStr path -> path <> [] ->
        exists name,
          forallb (fun x => negb (is_path_separator x)) name = true
          /\ (name = path
              \/ exists pre sep,
                   path = pre ++ sep :: name /\ is_path_separator sep = true)
          /\ (well_formed name = false ->
              openReportInBrowser filePath = OpenRawPath filePath)
          /\ (well_formed name = true ->
              exists encoded,
                encodeURIComponent name = Some encoded
                /\ openReportInBrowser filePath
                   = OpenFile (API.makeUrl (lit "/report/files/" ++ encoded))
                /\ (forallb is_uri_unreserved name = true -> encoded = name)
                /\ (Forall (fun c => (c < 65536)%N) name ->
                    Forall (fun c => is_uri_unreserved c = true \/ c = 37%N)
                      encoded))).
Proof.
  split; [unfold openReportInBrowser; by intros ->|].
  split; [unfold openReportInBrowser; intros ->; by destruct filePath|].
  intros path -> Hpath. unfold openReportInBrowser.
  replace (negb (truthy (JStr path))) with false by (by destruct path).
  cbv zeta.
  set (name := List.last (split_on is_path_separator [] path) []).
  exists name. pose proof (encodeURIComponent_well_formed name) as Hwf.
  destruct (last_split_on is_path_separator [] path)
    as [[Hname Hs] | (pre & sep & Hs & Hsep & Hname)]; fold name in Hname.
  - split; [by rewrite Hname|]. split; [by left|].
    destruct (encodeURIComponent name) as [encoded|] eqn:He.
    + split; [intros Hno; rewrite (proj1 Hwf) in Hno; [done | by eexists]|].
      intros _. exists encoded. split; [done|]. split; [done|].
      split; [intros Hu; apply encodeURIComponent_unreserved in Hu; congruence|].
      intros Hunits. by apply (encodeURIComponent_safe name).
    + split; [done|]. intros Hyes. apply Hwf in Hyes. by destruct Hyes.
  - fold name in Hs. split; [done|]. split; [right; by exists pre, sep|].
    destruct (encodeURIComponent name) as [encoded|] eqn:He.
    + split; [intros Hno; rewrite (proj1 Hwf) in Hno; [done | by eexists]|].
      intros _. exists encoded. split; [done|]. split; [done|].
      split; [intros Hu; apply encodeURIComponent_unreserved in Hu; congruence|].
      intros Hunits. by apply (encodeURIComponent_safe name).
    + split; [done|]. intros Hyes. apply Hwf in Hyes. by destruct Hyes.
Qed.
End ReportLink.

(** *** Display types and groups of the thinking panel *)

Section DisplayTypes.
Import AgentThinkingAccordion Reference.

Lemma upper_ascii_cases (c : N) :
  (in_range 97 122 c = true /\ upper_ascii c = (c - 32)%N
   /\ in_range 65 90 (c - 32) = true)
  \/ (in_range 97 122 c = false /\ upper_ascii c = c).
Proof.
  unfold upper_ascii, in_range.
  destruct (N.leb_spec 97 c), (N.leb_spec c 122); simpl; try (by right).
  left. split; [done|]. split; [done|].
  apply andb_true_iff. split; apply N.leb_le; lia.
Qed.

Lemma is_word_upper (c : N) : is_word (upper_ascii c) = is_word c.
Proof.
  destruct (upper_ascii_cases c) as [(Hlow & -> & Hup) | [_ ->]]; [|done].
  unfold is_word. rewrite Hlow, Hup. by rewrite !orb_true_r.
Qed.

Lemma upper_ascii_idem (c : N) : upper_ascii (upper_ascii c) = upper_ascii c.
Proof.
  destruct (upper_ascii_cases c) as [(Hlow & -> & Hup) | [Hlow ->]].
  - unfold upper_ascii. unfold in_range in *.
    apply andb_true_iff in Hup as [_ Hup%N.leb_le].
    destruct (N.leb_spec 97 (c - 32)); [lia | done].
  - unfold upper_ascii. by rewrite Hlow.
Qed.

Lemma upper_ascii_underscore (c : N) : c <> 95%N -> upper_ascii c <> 95%N.
Proof.
  intros Hc. destruct (upper_ascii_cases c) as [(Hlow & -> & Hup) | [_ ->]]; [|done].
  unfold in_range in Hup. apply andb_true_iff in Hup as [_ Hup%N.leb_le]. lia.
Qed.

Lemma capitalize_words_length (prev : bool) (s : jstring) :
  length (capitalize_words prev s) = length s.
Proof.
  revert prev. induction s as [|c s IH]; intros prev; simpl; [done|]. by rewrite IH.
Qed.

Lemma capitalize_words_idem (prev : bool) (s : jstring) :
  capitalize_words prev (capitalize_words prev s) = capitalize_words prev s.
Proof.
  revert prev. induction s as [|c s IH]; intros prev; [done|]. cbn [capitalize_words].
  destruct (is_word c && negb prev) eqn:Hc.
  - rewrite is_word_upper, Hc, upper_ascii_idem. by rewrite IH.
  - rewrite Hc. by rewrite IH.
Qed.

Lemma capitalize_words_no_underscore (prev : bool) (s : jstring) :
  Forall (fun c => c <> 95%N) s -> Forall (fun c => c <> 95%N) (capitalize_words prev s).
Proof.
  revert prev. induction s as [|c s IH]; intros prev Hs; [done|].
  apply Forall_cons in Hs as [Hc Hs]. cbn [capitalize_words]. constructor; [|by apply IH].
  destruct (is_word c && negb prev); [by apply upper_ascii_underscore | done].
Qed.

Lemma underscores_to_spaces_no_underscore (s : jstring) :
  Forall (fun c => c <> 95%N) (underscores_to_spaces s).
Proof.
  unfold underscores_to_spaces. apply Forall_map, Forall_forall. intros c _. simpl.
  destruct (N.eqb_spec c 95); done.
Qed.

Lemma underscores_to_spaces_id (s : jstring) :
  Forall (fun c => c <> 95%N) s -> underscores_to_spaces s = s.
Proof.
  induction s as [|c s IH]; [done|]. intros [Hc Hs]%Forall_cons.
  unfold underscores_to_spaces in *. simpl. rewrite IH by done.
  by destruct (N.eqb_spec c 95).
Qed.

Lemma title_idem (k : jstring) :
  capitalize_words false (underscores_to_spaces
    (capitalize_words false (underscores_to_spaces k)))
  = capitalize_words false (underscores_to_spaces k).
Proof.
  rewrite (underscores_to_spaces_id (capitalize_words _ _)).
  - apply capitalize_words_idem.
  - apply capitalize_words_no_underscore, underscores_to_spaces_no_underscore.
Qed.

Lemma no_underscore_includes (s : jstring) :
  Forall (fun c => c <> 95%N) s -> includes 95 s = false.
Proof.
  induction s as [|c s IH]; [done|]. intros [Hc Hs]%Forall_cons.
  unfold includes in *. simpl. rewrite (IH Hs).
  destruct c as [|p]; [done|]. destruct (Pos.eqb_spec 95 p); [|done]. congruence.
Qed.

Lemma title_length (k : jstring) :
  length (capitalize_words false (underscores_to_spaces k)) = length k.
Proof. unfold underscores_to_spaces. by rewrite capitalize_words_length, length_map. Qed.

(** X17. The display type of an event is a fixed point of the
    formatting: formatting it again changes nothing, it holds no
    underscore, and for an event with a type of its own it is as long
    as that type. The keys [toDisplayArray] shows for an object go
    through the same formatting. *)
Theorem getEventType_stable (item : EventItem) (content : jstring) :
  getEventType (ItemObject (getEventType item) content) = getEventType item
  /\ includes 95 (getEventType item) = false
  /\ (forall type c, type <> [] -> item = ItemObject type c ->
        length (getEventType item) = length type)
  /\ (forall k, DisplayArray.title_key (DisplayArray.title_key k)
                = DisplayArray.title_key k).
Proof.
  split; [|split; [|split]].
  - destruct item as [s|type c]; [done|]. cbn [getEventType].
    destruct type as [|x type]; [done|].
    replace (truthy (JStr (x :: type))) with true by done.
    destruct (capitalize_words false (underscores_to_spaces (x :: type))) as [|y t] eqn:Ht.
    { apply (f_equal length) in Ht. by rewrite title_length in Ht. }
    replace (truthy (JStr (y :: t))) with true by done.
    rewrite <- Ht. apply title_idem.
  - destruct item as [s|type c]; [done|]. cbn [getEventType].
    destruct (truthy (JStr type)); [|done].
    apply no_underscore_includes, capitalize_words_no_underscore,
      underscores_to_spaces_no_underscore.
  - intros type c Htype ->. cbn [getEventType]. destruct type as [|x type]; [done|].
    replace (truthy (JStr (x :: type))) with true by done. apply title_length.
  - intros k. apply title_idem.
Qed.

Lemma fold_group_step_current (l : list EventItem) (groups : list (list EventItem))
  (first : EventItem) (cur : list EventItem) :
  exists groups' first' cur',
    fold_left group_step l (groups, first :: cur) = (groups', first' :: cur').
Proof.
  revert groups first cur. induction l as [|x l IH]; intros groups first cur.
  - by exists groups, first, cur.
  - cbn [fold_left]. unfold group_step at 2.
    destruct (str_eqb (getEventType x) (getEventType first)).
    + apply (IH groups first (cur ++ [x])).
    + apply IH.
Qed.

Lemma groupedThinking_snoc_cases (y : EventItem) (l : list EventItem) (x : EventItem) :
  exists groups first cur,
    groupedThinking (y :: l) = groups ++ [first :: cur]
    /\ groupedThinking ((y :: l) ++ [x])
       = if str_eqb (getEventType x) (getEventType first)
         then groups ++ [first :: cur ++ [x]]
         else groups ++ [first :: cur; [x]].
Proof.
  unfold groupedThinking. rewrite fold_left_app. cbn [fold_left].
  change (group_step ([], []) y) with (@nil (list EventItem), [y]).
  destruct (fold_group_step_current l [] y []) as (groups & first & cur & ->).
  exists groups, first, cur. split; [done|].
  unfold group_step. destruct (str_eqb (getEventType x) (getEventType first)); [done|].
  by rewrite <- app_assoc.
Qed.

(** X18. The groups grow at the end only. When one more item arrives,
    every group but the last stays as it was; the item joins the last
    group when its display type is that of the first item of that
    group, and opens a new group of its own otherwise. *)
Theorem groupedThinking_snoc (y : EventItem) (l : list EventItem) (x : EventItem) :
  exists groups first cur,
    groupedThinking (y :: l) = groups ++ [first :: cur]
    /\ groupedThinking ((y :: l) ++ [x])
       = if str_eqb (getEventType x) (getEventType first)
         then groups ++ [first :: cur ++ [x]]
         else groups ++ [first :: cur; [x]].
Proof.
  unfold groupedThinking. rewrite fold_left_app. cbn [fold_left].
  change (group_step ([], []) y) with (@nil (list EventItem), [y]).
  destruct (fold_group_step_current l [] y []) as (groups & first & cur & Hfold).
  rewrite Hfold. exists groups, first, cur. split; [done|].
  unfold group_step.
  destruct (str_eqb (getEventType x) (getEventType first)) eqn:Hsame.
  - done.
  - by rewrite <- app_assoc.
Qed.
End DisplayTypes.

(** *** Display lists *)

Section DisplayLists.
Import DisplayArray Reference.
Context `{Runtime}.

Lemma stringable_coalesce (v : JsVal) :
  stringable (js_coalesce v (JStr [])) = stringable v.
Proof. by destruct v. Qed.

Lemma display_item_throws (item : JsVal) :
  (exists e, display_item item = Throw e) <-> undisplayable item = true.
Proof.
  unfold display_item, undisplayable, ToString.
  destruct item as [| |b|x|s|l|ps];
    try (split; [by intros [e ?] | done]); try (split; [done | by eexists]).
  - destruct (Object_entries _) as [|[k v] r]; [split; [by intros [e ?] | done]|].
    rewrite stringable_coalesce.
    destruct (stringable v); [split; [by intros [e ?] | done] | split; [done | by eexists]].
  - destruct (Object_entries _) as [|[k v] r]; [split; [by intros [e ?] | done]|].
    rewrite stringable_coalesce.
    destruct (stringable v); [split; [by intros [e ?] | done] | split; [done | by eexists]].
Qed.

Lemma display_item_entry (item entry : JsVal) :
  display_item item = Ok entry -> exists key value, entry = display_entry key value.
Proof.
  unfold display_item, ToString.
  destruct item as [| |b|x|s|l|ps];
    try (intros [= <-]; by eexists _, _); try done;
    (destruct (Object_entries _) as [|[k v] r];
     [intros [= <-]; by eexists _, _|]);
    destruct (stringable _); [|done | |done]; intros [= <-]; by eexists _, _.
Qed.

Lemma display_items_spec (items : list JsVal) :
  match display_items items with
  | Throw e => e = TypeError /\ existsb undisplayable items = true
  | Ok entries =>
      existsb undisplayable items = false /\ length entries = length items
      /\ Forall (fun entry => exists key value, entry = display_entry key value) entries
  end.
Proof.
  induction items as [|item items IH]; cbn [display_items existsb]; [by split|].
  pose proof (display_item_throws item) as Hthrows.
  destruct (display_item item) as [entry|e] eqn:Hitem.
  - assert (undisplayable item = false) as ->.
    { apply not_true_iff_false. intros Hu. by apply Hthrows in Hu as [e ?]. }
    destruct (display_items items) as [entries|e]; [|done].
    destruct IH as (Hnot & Hlen & Hall). split; [done|]. split.
    + simpl. by rewrite Hlen.
    + constructor; [by apply (display_item_entry item) | done].
  - rewrite (proj1 Hthrows) by (by eexists). split; [|done].
    revert Hitem. unfold display_item, ToString.
    destruct item as [| |b|x|s|l|ps]; try done; try (by intros [= <-]);
      (destruct (Object_entries _) as [|[k v] r]; [done|]);
      destruct (stringable _); try done; by intros [= <-].
Qed.

Lemma display_properties_spec (props : list (jstring * JsVal)) :
  match display_properties props with
  | Throw e =>
      e = TypeError /\ existsb (fun kv => negb (stringable (snd kv))) props = true
  | Ok entries =>
      existsb (fun kv => negb (stringable (snd kv))) props = false
      /\ entries
         = map (fun kv => display_entry (title_key (fst kv)) (string_of (snd kv))) props
  end.
Proof.
  induction props as [|[k v] props IH]; cbn [display_properties existsb]; [done|].
  unfold display_property, ToString. cbn [fst snd].
  destruct (stringable v); cbn [negb orb]; [|done].
  destruct (display_properties props) as [entries|e]; [|done].
  destruct IH as [Hnot ->]. done.
Qed.

(** X19. The display list of a value is a list of entries with a key
    and a value that are strings, one entry per element for an array
    and one per property for an object, whose key is formatted and
    whose value is converted to a string. Building it fails, with a
    type error, exactly on an array that holds an element that is
    [null] or that is an object or array whose first value cannot be
    converted to a string, and on an object that has a value that
    cannot be converted. *)
Theorem toDisplayArray_spec (obj : JsVal) :
  ((exists e, toDisplayArray obj = Throw e)
   <-> (exists items, obj = JArr items /\ existsb undisplayable items = true)
       \/ (exists props,
             obj = JObj props
             /\ existsb (fun kv => negb (stringable (snd kv))) props = true))
  /\ (forall e, toDisplayArray obj = Throw e -> e = TypeError)
  /\ (forall v, toDisplayArray obj = Ok v ->
        exists entries,
          v = JArr entries
          /\ Forall (fun entry => exists key value, entry = display_entry key value)
               entries
          /\ (forall items, obj = JArr items -> length entries = length items)
          /\ (forall props, obj = JObj props ->
                entries
                = map (fun kv => display_entry (title_key (fst kv))
                                   (string_of (snd kv))) props)).
Proof.
  assert (Hprim : forall key,
             toDisplayArray obj = Ok (JArr []) \/ toDisplayArray obj
                                                  = Ok (JArr [display_entry key []]) ->
             (forall l, obj <> JArr l) -> (forall ps, obj <> JObj ps) ->
             ((exists e, toDisplayArray obj = Throw e)
              <-> (exists items, obj = JArr items /\ existsb undisplayable items = true)
                  \/ (exists props,
                        obj = JObj props
                        /\ existsb (fun kv => negb (stringable (snd kv))) props = true))
             /\ (forall e, toDisplayArray obj = Throw e -> e = TypeError)
             /\ (forall v, toDisplayArray obj = Ok v ->
                   exists entries,
                     v = JArr entries
                     /\ Forall (fun entry =>
                                  exists key value, entry = display_entry key value)
                          entries
                     /\ (forall items, obj = JArr items -> length entries = length items)
                     /\ (forall props, obj = JObj props ->
                           entries
                           = map (fun kv => display_entry (title_key (fst kv))
                                              (string_of (snd kv))) props))).
  { intros key Hv Harr Hobj. split; [|split].
    - split.
      + intros [e He]. destruct Hv as [Hv | Hv]; congruence.
      + intros [(l & Hl & _) | (ps & Hps & _)]; [by destruct (Harr l) | by destruct (Hobj ps)].
    - intros e He. destruct Hv as [Hv | Hv]; congruence.
    - intros v Hok. destruct Hv as [Hv | Hv]; rewrite Hv in Hok; injection Hok as <-.
      + exists []. split; [done|]. split; [done|].
        split; [intros l Hl; by destruct (Harr l) | intros ps Hps; by destruct (Hobj ps)].
      + eexists. split; [done|].
        split; [constructor; [by eexists _, _ | done]|].
        split; [intros l Hl; by destruct (Harr l) | intros ps Hps; by destruct (Hobj ps)]. }
  destruct obj as [| |b|x|s|items|props].
  - apply (Hprim []); [by left | done | done].
  - apply (Hprim []); [by left | done | done].
  - apply (Hprim (string_of (JBool b))); [|done|done].
    unfold toDisplayArray. destruct b; [by right | by left].
  - apply (Hprim (string_of (JNum x))); [|done|done].
    unfold toDisplayArray. destruct (negb _); [by left | by right].
  - apply (Hprim s); [|done|done].
    unfold toDisplayArray. destruct (negb _); [by left | by right].
  - clear Hprim. unfold toDisplayArray. cbn [truthy negb].
    pose proof (display_items_spec items) as Hitems.
    destruct (display_items items) as [entries|e].
    + destruct Hitems as (Hnot & Hlen & Hall). split; [|split].
      * split; [by intros [e ?]|].
        intros [(l & [= <-] & Hin) | (ps & ? & _)]; [congruence | done].
      * done.
      * intros v [= <-]. exists entries. split; [done|]. split; [done|].
        split; [by intros l [= <-] | done].
    + destruct Hitems as [-> Hin]. split; [|split; [by intros e [= <-] | done]].
      split; [intros _; left; by exists items | by eexists].
  - clear Hprim. unfold toDisplayArray. cbn [truthy negb].
    pose proof (display_properties_spec props) as Hprops.
    destruct (display_properties props) as [entries|e].
    + destruct Hprops as [Hnot ->]. split; [|split].
      * split; [by intros [e ?]|].
        intros [(l & ? & _) | (ps & [= <-] & Hin)]; [done | congruence].
      * done.
      * intros v [= <-]. eexists. split; [done|]. split; [|split; [done|]].
        -- apply Forall_map, Forall_forall. intros kv _. by eexists _, _.
        -- by intros ps [= <-].
    + destruct Hprops as [-> Hin]. split; [|split; [by intros e [= <-] | done]].
      split; [intros _; right; by exists props | by eexists].
Qed.
End DisplayLists.


(** *** Editing the extracted parameters *)

Section ParameterEditing.
Import MandateParams Reference.

Lemma truthy_string (s : jstring) : truthy (JStr s) = true <-> s <> [].
Proof. by destruct s. Qed.

Lemma delete_param_lookup (key k : jstring) (params : gmap jstring jstring) :
  delete_param key params !! k = if decide (key = k) then None else params !! k.
Proof.
  unfold delete_param. destruct (params !! key) eqn:Hkey.
  - rewrite lookup_delete. by case_decide.
  - case_decide; by subst.
Qed.

Lemma subprocess_params_delete (section : ParamSection) (key : jstring) (ed : Editor)
  (name k : jstring) :
  subprocess_params (handleDeleteParameter section key ed) name !! k
  = if decide (key = k) then None else subprocess_params ed name !! k.
Proof.
  unfold subprocess_params, params_of, handleDeleteParameter. simpl.
  rewrite lookup_fmap.
  destruct (editedParamsBySubprocess ed !! name) as [params|]; simpl.
  - apply delete_param_lookup.
  - rewrite lookup_empty. by case_decide.
Qed.

Lemma bucket_delete (section section' : ParamSection) (key : jstring) (ed : Editor) :
  bucket section' (handleDeleteParameter section key ed)
  = if decide (section' = section) then delete key (bucket section' ed)
    else bucket section' ed.
Proof. by destruct section, section'. Qed.

Lemma handleAddParameter_others (ed : Editor) :
  trim (newParamName ed) <> [] ->
  (forall name k, k <> trim (newParamName ed) ->
     subprocess_params (handleAddParameter ed) name !! k = subprocess_params ed name !! k)
  /\ (forall section k, k <> trim (newParamName ed) ->
        bucket section (handleAddParameter ed) !! k = bucket section ed !! k).
Proof.
  intros Hkey. unfold handleAddParameter.
  apply truthy_string in Hkey. rewrite Hkey. cbn [negb]. split.
  - intros name k Hk. unfold subprocess_params, params_of.
    destruct (truthy (JStr (addParamSubprocessName ed))); [|done].
    cbn [editedParamsBySubprocess]. rewrite lookup_insert. case_decide as Hname; [|done]. subst name. simpl.
    by rewrite lookup_insert, decide_False.
  - intros section k Hk.
    destruct section, (addParamSection ed) as [[]|]; simpl; try done;
      by rewrite lookup_insert, decide_False.
Qed.

(** X20. Adding a parameter stores the trimmed value under the trimmed
    name, for the subprocess the dialog was opened for and in the
    bucket of its section, leaves every other parameter as it was, and
    closes and empties the dialog; a name that is blank after trimming
    adds nothing and leaves the dialog open. *)
Theorem handleAddParameter_adds (ed : Editor) :
  let ed' := handleAddParameter ed in
  let key := trim (newParamName ed) in
  let value := trim (newParamValue ed) in
  let sub := addParamSubprocessName ed in
  (key = [] -> ed' = ed)
  /\ (key <> [] ->
      addParamModalOpen ed' = false /\ newParamName ed' = [] /\ newParamValue ed' = []
      /\ (sub <> [] -> subprocess_params ed' sub !! key = Some value)
      /\ (forall section, addParamSection ed = Some section ->
            bucket section ed' !! key = Some value)
      /\ (forall name k, k <> key ->
            subprocess_params ed' name !! k = subprocess_params ed name !! k)
      /\ (forall section k, k <> key -> bucket section ed' !! k = bucket section ed !! k)
      /\ (forall name, name <> sub ->
            editedParamsBySubprocess ed' !! name = editedParamsBySubprocess ed !! name)).
Proof.
  cbv zeta. unfold handleAddParameter.
  destruct (truthy (JStr (trim (newParamName ed)))) eqn:Hkey; cbn [negb].
  - pose proof (proj1 (truthy_string _) Hkey) as Hkey'. split; [done|]. intros _.
    split; [done|]. split; [done|]. split; [done|].
    split; [|split; [|split; [|split]]].
    + intros Hsub. apply truthy_string in Hsub.
      unfold subprocess_params, params_of. cbn [editedParamsBySubprocess]. rewrite Hsub.
      rewrite lookup_insert, decide_True by done. simpl.
      by rewrite lookup_insert, decide_True.
    + intros section ->. destruct section; simpl; by rewrite lookup_insert, decide_True.
    + intros name k Hk.
      destruct (handleAddParameter_others ed Hkey') as [Hsub _].
      specialize (Hsub name k Hk). unfold handleAddParameter in Hsub.
      by rewrite Hkey in Hsub.
    + intros section k Hk.
      destruct (handleAddParameter_others ed Hkey') as [_ Hbucket].
      specialize (Hbucket section k Hk). unfold handleAddParameter in Hbucket.
      by rewrite Hkey in Hbucket.
    + intros name Hname. cbn [editedParamsBySubprocess].
      destruct (truthy (JStr (addParamSubprocessName ed))); [|done].
      by rewrite lookup_insert, decide_False.
  - split; [done|]. intros Hne. apply truthy_string in Hne. congruence.
Qed.

(** X21. Deleting a parameter removes its name from the parameters of
    every subprocess, not only of the one it is shown under, and from
    the bucket of the section; every other parameter, every list of
    subprocesses and the buckets of the other sections stay; deleting
    it again changes nothing. *)
Theorem handleDeleteParameter_removes (section : ParamSection) (key : jstring)
  (ed : Editor) :
  let ed' := handleDeleteParameter section key ed in
  (forall name, subprocess_params ed' name !! key = None)
  /\ bucket section ed' !! key = None
  /\ (forall name k, k <> key ->
        subprocess_params ed' name !! k = subprocess_params ed name !! k)
  /\ (forall k, k <> key -> bucket section ed' !! k = bucket section ed !! k)
  /\ (forall section', section' <> section -> bucket section' ed' = bucket section' ed)
  /\ dom (editedParamsBySubprocess ed') = dom (editedParamsBySubprocess ed)
  /\ handleDeleteParameter section key ed' = ed'.
Proof.
  cbv zeta. split; [|split; [|split; [|split; [|split; [|split]]]]].
  - intros name. by rewrite subprocess_params_delete, decide_True.
  - rewrite bucket_delete, decide_True by done. by rewrite lookup_delete, decide_True.
  - intros name k Hk. by rewrite subprocess_params_delete, decide_False.
  - intros k Hk. rewrite bucket_delete, decide_True by done.
    by rewrite lookup_delete, decide_False.
  - intros section' Hs. by rewrite bucket_delete, decide_False.
  - simpl. apply dom_fmap_L.
  - unfold handleDeleteParameter. simpl. f_equal.
    + rewrite <- map_fmap_compose. apply map_fmap_ext. intros name params _. simpl.
      apply map_eq. intros k. rewrite !delete_param_lookup. by case_decide.
    + destruct section; try done; apply map_eq; intros k;
        rewrite !lookup_delete; by case_decide.
    + destruct section; try done; apply map_eq; intros k;
        rewrite !lookup_delete; by case_decide.
    + destruct section; try done; apply map_eq; intros k;
        rewrite !lookup_delete; by case_decide.
Qed.

(** X22. A parameter that was added can be taken back: deleting it in
    its section right after leaves the parameters of every subprocess
    and the bucket of the section as they were before it was added,
    up to the name itself, which is then gone from each of them; the
    buckets of the other sections are as they were. *)
Theorem add_then_delete (section : ParamSection) (ed : Editor) :
  addParamSection ed = Some section ->
  trim (newParamName ed) <> [] ->
  let key := trim (newParamName ed) in
  let ed'' := handleDeleteParameter section key (handleAddParameter ed) in
  (forall name k,
     subprocess_params ed'' name !! k
     = if decide (key = k) then None else subprocess_params ed name !! k)
  /\ (forall section',
        bucket section' ed''
        = if decide (section' = section) then delete key (bucket section' ed)
          else bucket section' ed).
Proof.
  intros Hsec Hkey. cbv zeta.
  destruct (handleAddParameter_others ed Hkey) as (Hsub & Hbucket).
  split.
  - intros name k. rewrite subprocess_params_delete. case_decide; [done|].
    apply Hsub. congruence.
  - intros section'. rewrite bucket_delete. case_decide as Hs.
    + subst section'. apply map_eq. intros k. rewrite !lookup_delete.
      case_decide; [done|]. apply Hbucket. congruence.
    + apply map_eq. intros k.
      unfold handleAddParameter.
      apply truthy_string in Hkey. rewrite Hkey. simpl. rewrite Hsec.
      by destruct section, section'.
Qed.
End ParameterEditing.

(** *** The upload form and its parse stream *)

Section UploadForm.
Import FundMandate MandateForm Reference.

Lemma form_step_ok (fm : Form) (ev : FormEvent) : form_ok fm -> form_ok (form_step fm ev).
Proof.
  intros [Hfile Hpending]. destruct ev as [file|value| | | |event|]; simpl.
  - unfold handleFileSelect. destruct (validateFile file) eqn:Hv; [done|].
    split; [|done]. simpl. by intros file' [= <-].
  - done.
  - unfold handleSubmit.
    destruct (selectedFile fm) as [file|] eqn:Hsel; [|done].
    destruct (truthy (JStr (trim (description fm)))) eqn:Hd; [|done].
    simpl. split; [done|]. simpl. intros file' text [= <- <-].
    split; [by apply Hfile|]. split; [by destruct (trim (description fm))|].
    apply trim_idem.
  - done.
  - done.
  - unfold parse_onmessage. destruct event as [v|e]; [|done].
    destruct (strict_eq_str _ _ && _); [|done]. split; [done|]. done.
  - done.
Qed.

(** X23. Whatever happens on the form, in whatever order, a file it
    holds as selected has passed the validation, and the data of a
    pending submission are such a file and a trimmed description that
    is not empty. *)
Theorem form_stays_ok (events : list FormEvent) :
  form_ok (fold_left form_step events initial_form).
Proof.
  assert (Hgen : forall fm, form_ok fm -> form_ok (fold_left form_step events fm)).
  { induction events as [|ev events IH]; intros fm Hfm; [done|].
    simpl. apply IH. by apply form_step_ok. }
  apply Hgen. by split.
Qed.

(** X24. The message that completes the parse keeps the criteria of
    the event as the parsed result, under a message that is never
    empty, closes the socket and empties the form; submitting the
    emptied form again is refused with both errors, and starts no
    analysis. *)
Theorem parse_completion_resets_form (v : JsVal) (fm : Form) :
  strict_eq_str (prop v (lit "type")) (lit "analysis_complete") = true ->
  truthy (prop v (lit "criteria")) = true ->
  let fm' := parse_onmessage (Ok v) fm in
  let fm'' := handleSubmit fm' in
  prop (parsedResult fm') (lit "criteria") = prop v (lit "criteria")
  /\ truthy (prop (parsedResult fm') (lit "message")) = true
  /\ streamingEvents fm' = streamingEvents fm ++ [v]
  /\ isSubmitted fm' = true /\ isSubmitting fm' = false
  /\ showStreamingPanel fm' = false /\ socketClosed fm' = true
  /\ selectedFile fm' = None /\ description fm' = []
  /\ error_file fm'' = Some (lit "Please select a PDF file")
  /\ error_description fm'' = Some (lit "Please provide a description")
  /\ pendingSubmitData fm'' = pendingSubmitData fm
  /\ isAnalyzing fm'' = isAnalyzing fm.
Proof.
  intros Htype Hcriteria. cbv zeta. unfold parse_onmessage.
  rewrite Htype, Hcriteria. cbn [andb].
  split; [done|]. split; [|done].
  cbn [parsedResult]. unfold js_or.
  destruct (truthy (prop v (lit "message"))) eqn:Hm; simpl; by rewrite ?Hm.
Qed.

Lemma parse_onmessage_events (v : JsVal) (fm : Form) :
  streamingEvents (parse_onmessage (Ok v) fm) = streamingEvents fm ++ [v].
Proof. unfold parse_onmessage. by destruct (strict_eq_str _ _ && _). Qed.

(** X25. The parse stream holds every parsed message since the parse
    was started, in arrival order, whatever the messages are; a message
    that does not parse changes nothing; and no message raises a
    loading flag or reopens the socket. *)
Theorem parse_stream_collects (msgs : list JsVal) (fm : Form) :
  streamingEvents
    (fold_left (fun fm v => parse_onmessage (Ok v) fm) msgs (start_parse fm)) = msgs
  /\ (forall e, parse_onmessage (Throw e) fm = fm)
  /\ (forall ev,
        let fm' := parse_onmessage ev fm in
        (isSubmitting fm' = true -> isSubmitting fm = true)
        /\ (showStreamingPanel fm' = true -> showStreamingPanel fm = true)
        /\ (socketClosed fm = true -> socketClosed fm' = true)
        /\ pendingSubmitData fm' = pendingSubmitData fm).
Proof.
  split; [|split; [done|]].
  - assert (Hgen : forall fm0,
               streamingEvents
                 (fold_left (fun fm v => parse_onmessage (Ok v) fm) msgs fm0)
               = streamingEvents fm0 ++ msgs).
    { induction msgs as [|v msgs IH]; intros fm0; cbn [fold_left];
        [by rewrite app_nil_r|].
      rewrite IH, parse_onmessage_events. by rewrite <- app_assoc. }
    by rewrite Hgen.
  - intros [v|e]; cbv zeta; [|done]. unfold parse_onmessage.
    by destruct (strict_eq_str _ _ && _).
Qed.
End UploadForm.

(** *** The cleaned text of an event *)

Section CleanText.
Import SourcingAgent Reference.


Lemma not_emoji_unit (c : N) : is_emoji c = false -> in_range 9728 10175 c = false.
Proof.
  intros Hc. destruct (in_range 9728 10175 c) eqn:Hr; [|done].
  apply in_range_spec in Hr.
  assert (in_range 9728 9983 c = true \/ in_range 9984 10175 c = true) as [Hin | Hin]
    by (rewrite !in_range_spec; lia);
    unfold is_emoji in Hc; rewrite Hin in Hc;
    by rewrite ?orb_true_r, ?orb_true_l in Hc.
Qed.

Lemma surrogate_unit (c : N) :
  is_high_surrogate c = true \/ is_low_surrogate c = true ->
  in_range 9728 10175 c = false.
Proof.
  unfold is_high_surrogate, is_low_surrogate.
  intros Hc. destruct (in_range 9728 10175 c) eqn:Hr; [|done].
  apply in_range_spec in Hr. rewrite !in_range_spec in Hc. lia.
Qed.

Lemma remove_emoji_units (s : jstring) :
  Forall (fun c => in_range 9728 10175 c = false) (remove_emoji s)
  /\ sublist (remove_emoji s) s.
Proof.
  induction s as [| c | c d rest [IH1 IH1'] [IH2 IH2']] using pairs_ind.
  - split; [done | constructor].
  - simpl. destruct (is_emoji c) eqn:Hc.
    + split; [done | by apply sublist_cons].
    + split; [|done]. constructor; [by apply not_emoji_unit | done].
  - cbn [remove_emoji].
    destruct (is_high_surrogate c && is_low_surrogate d) eqn:Hpair.
    + apply andb_true_iff in Hpair as [Hhi Hlo].
      destruct (is_emoji (code_point c d)).
      * split; [done | by do 2 apply sublist_cons].
      * split; [|by do 2 apply sublist_skip].
        constructor; [apply surrogate_unit; by left|].
        constructor; [apply surrogate_unit; by right | done].
    + destruct (is_emoji c) eqn:Hc.
      * split; [done | by apply sublist_cons].
      * split; [|by apply sublist_skip].
        constructor; [by apply not_emoji_unit | done].
Qed.

Lemma strip_number_colon_suffix (s rest : jstring) :
  strip_number_colon s = Some rest -> exists pre, s = pre ++ rest.
Proof.
  unfold strip_number_colon.
  destruct (take_while is_digit s) as [|t ts]; [done|].
  destruct (drop_while_suffix is_digit s) as [pre1 Hs].
  destruct (drop_while is_digit s) as [|c after]; [done|].
  destruct (c =? 58)%N; [|done]. intros [= <-].
  destruct (drop_while_suffix is_space after) as [pre2 Hafter].
  exists (pre1 ++ c :: pre2). rewrite Hs at 1. rewrite Hafter at 1.
  by rewrite <- app_assoc.
Qed.

Lemma strip_step_label_suffix (s : jstring) : exists pre, s = pre ++ strip_step_label s.
Proof.
  unfold strip_step_label.
  destruct (strip_step_word s) as [rest|] eqn:Hword; [|by exists []].
  destruct (strip_number_colon (drop_while is_space rest)) as [rest'|] eqn:Hnum;
    [|by exists []].
  apply strip_number_colon_suffix in Hnum as [pre2 Hnum].
  destruct (drop_while_suffix is_space rest) as [pre1 Hrest].
  unfold strip_step_word in Hword.
  destruct s as [|c1 [|c2 [|c3 [|c4 s]]]]; try done.
  destruct (_ && _); [|done]. injection Hword as <-.
  exists ([c1; c2; c3; c4] ++ pre1 ++ pre2). rewrite <- !app_assoc. simpl.
  do 4 f_equal. rewrite Hrest at 1. by rewrite Hnum at 1.
Qed.

Lemma strip_leading_symbols_suffix (s : jstring) :
  exists pre, s = pre ++ strip_leading_symbols s.
Proof.
  unfold strip_leading_symbols.
  destruct (drop_while_suffix (fun c => negb (is_word c) && negb (is_space c)) s)
    as [pre1 Hs].
  destruct (drop_while_suffix is_space
              (drop_while (fun c => negb (is_word c) && negb (is_space c)) s))
    as [pre2 Hrest].
  exists (pre1 ++ pre2). rewrite Hs at 1. rewrite Hrest at 1. by rewrite app_assoc.
Qed.

(** X26. The cleaned text of a content adds nothing: it is what is
    left of the content when characters are taken out, in the order
    they had. It neither begins nor ends with white space, and none of
    its characters lies in the symbol ranges U+2600 to U+27BF. *)
Theorem clean_text_spec (content : jstring) :
  sublist (clean_text content) content
  /\ Forall (fun c => in_range 9728 10175 c = false) (clean_text content)
  /\ (forall c rest, clean_text content = c :: rest -> is_space c = false)
  /\ (forall front c, clean_text content = front ++ [c] -> is_space c = false).
Proof.
  unfold clean_text.
  set (s1 := strip_leading_symbols content).
  set (s2 := strip_step_label s1).
  destruct (remove_emoji_units s2) as [Hunits Hsub].
  destruct (trim_infix (remove_emoji s2)) as (pre & post & Htrim).
  split; [|split; [|split]].
  - transitivity (remove_emoji s2).
    + rewrite Htrim at 2. apply sublist_inserts_l, sublist_inserts_r. done.
    + transitivity s2; [done|]. transitivity s1.
      * destruct (strip_step_label_suffix s1) as [p Hp]. fold s2 in Hp.
        clearbody s2. rewrite Hp. by apply sublist_inserts_l.
      * destruct (strip_leading_symbols_suffix content) as [p Hp]. fold s1 in Hp.
        clearbody s1. rewrite Hp. by apply sublist_inserts_l.
  - rewrite Htrim in Hunits. apply Forall_app in Hunits as [_ Hunits].
    by apply Forall_app in Hunits as [Hunits _].
  - apply trim_head.
  - apply trim_last.
Qed.
End CleanText.

(** *** The agent thinking of a screening run *)

Section ScreeningThinking.
Import SourcingAgent Reference.
Context `{Runtime}.








End ScreeningThinking.

(** *** The expanded group of the thinking panel *)

Section ExpandedGroup.
Import AgentThinkingAccordion Reference.

(** X28. When an arriving item opens a new group, the panel expands
    that group, which holds the item alone, and a click on its header
    collapses it again; when the item joins the last group, the panel
    leaves the expanded group to the user's choice, so that a group
    the user collapsed stays collapsed while items of its type keep
    arriving. *)
Theorem expand_effect_on_arrival (y : EventItem) (l : list EventItem) (x : EventItem)
  (expanded : option nat) :
  let old := y :: l in
  let new := old ++ [x] in
  let last_type :=
    from_option getEventType [] (head (default [] (last (groupedThinking old)))) in
  (getEventType x = last_type -> expand_effect old new expanded = expanded)
  /\ (getEventType x <> last_type ->
      exists index,
        expand_effect old new expanded = Some index
        /\ groupedThinking new !! index = Some [x]
        /\ S index = length (groupedThinking new)
        /\ toggleGroupAccordion index (expand_effect old new expanded) = None).
Proof.
  cbv zeta. unfold expand_effect.
  destruct (groupedThinking_snoc_cases y l x) as (groups & first & cur & Hold & Hnew).
  rewrite Hold, Hnew, last_snoc. simpl.
  split.
  - intros ->. rewrite str_eqb_refl. rewrite !length_app. simpl.
    by rewrite Nat.eqb_refl.
  - intros Hne. rewrite (proj2 (str_eqb_neq _ _) Hne). rewrite !length_app. simpl.
    assert ((length groups + 2 =? length groups + 1)%nat = false) as ->
      by (apply Nat.eqb_neq; lia).
    assert ((0 <? length groups + 2)%nat = true) as -> by (apply Nat.ltb_lt; lia).
    exists (length groups + 1)%nat.
    assert (Hidx : (length groups + 2 - 1 = length groups + 1)%nat) by lia.
    rewrite Hidx. split; [done|]. split; [|split; [lia|]].
    + replace (groups ++ [first :: cur; [x]]) with ((groups ++ [first :: cur]) ++ [[x]])
        by (by rewrite <- app_assoc).
      rewrite lookup_app_r by (rewrite length_app; simpl; lia).
      rewrite length_app. simpl.
      by replace (length groups + 1 - (length groups + 1))%nat with 0%nat by lia.
    + unfold toggleGroupAccordion. by rewrite bool_decide_eq_true_2.
Qed.
End ExpandedGroup.

(** *** The addresses of the sockets *)

Section Addresses.
Import API.

Lemma startsWith_app (p s : jstring) : startsWith p (p ++ s) = true.
Proof. induction p as [|a p IH]; [done|]. simpl. by rewrite N.eqb_refl. Qed.

Lemma startsWith_spec (p s : jstring) :
  startsWith p s = true <-> exists rest, s = p ++ rest.
Proof.
  split.
  - revert s. induction p as [|a p IH]; intros s Hs; [by exists s|].
    destruct s as [|b s]; [done|]. simpl in Hs.
    apply andb_true_iff in Hs as [Hab%N.eqb_eq Hs]. subst b.
    destruct (IH s Hs) as [rest ->]. by exists rest.
  - intros [rest ->]. apply startsWith_app.
Qed.

(** X29. The address of a socket keeps the host and the path of the
    address of the server and answers its scheme: [wss] for a base
    under [https], [ws] for one under [http]; so the sockets of this
    client open under [ws] at the host of its base address. A base
    that names no scheme is kept whole as the host. *)
Theorem wsUrl_follows_scheme (host path : jstring) :
  wsUrl_from (lit "https://" ++ host) path = lit "wss://" ++ host ++ path
  /\ wsUrl_from (lit "http://" ++ host) path = lit "ws://" ++ host ++ path
  /\ makeUrl_from (lit "http://" ++ host) path = lit "http://" ++ host ++ path
  /\ wsUrl path = lit "ws://localhost:8000" ++ path
  /\ (forall base, startsWith (lit "http") base = false ->
        wsUrl_from base path = lit "ws://" ++ base ++ path).
Proof.
  split; [done|]. split; [done|]. split; [by unfold makeUrl_from; rewrite <- app_assoc|].
  split; [done|].
  intros base Hbase. unfold wsUrl_from, strip_scheme.
  assert (Hnot : forall p, startsWith (lit "http") p = true ->
                           startsWith p base = false).
  { intros p Hp. destruct (startsWith p base) eqn:Hpre; [|done].
    apply startsWith_spec in Hp as [r1 ->]. apply startsWith_spec in Hpre as [r2 ->].
    rewrite <- app_assoc in Hbase. by rewrite startsWith_app in Hbase. }
  rewrite (Hnot (lit "https://")), (Hnot (lit "http://")), (Hnot (lit "https")) by done.
  done.
Qed.
End Addresses.

(** *** The further properties on the example data *)

Section FurtherExamples.
Import SourcingAgent Reference.

Lemma navigation_keeps_step_in_range_witness :
  let st := sourced_state in
  (0 <= currentStep st <= 3)%Z
  /\ (0 <= currentStep (@nextStep example_runtime st) <= 3)%Z
  /\ (0 <= currentStep (prevStep st) <= 3)%Z
  /\ (forall index, (0 <= currentStep (navigateToStep example_params index st) <= 3)%Z).
Proof.
  cbv zeta.
  assert (Hst : (0 <= currentStep sourced_state <= 3)%Z) by (vm_compute; split; discriminate).
  split; [exact Hst|].
  exact (@navigation_keeps_step_in_range example_runtime example_params sourced_state Hst).
Defined.

Lemma nextStep_implies_navigable_witness :
  let st := sourced_state in
  currentStep (@nextStep example_runtime st) <> currentStep st
  /\ param_list example_params (currentStep st + 1) <> []
  /\ currentStep (navigateToStep example_params (currentStep st + 1) st)
     = currentStep (@nextStep example_runtime st).
Proof.
  cbv zeta.
  assert (H1 : currentStep (@nextStep example_runtime sourced_state)
               <> currentStep sourced_state) by (vm_compute; discriminate).
  assert (H2 : param_list example_params (currentStep sourced_state + 1) <> [])
    by (vm_compute; discriminate).
  split; [exact H1|]. split; [exact H2|].
  exact (@nextStep_implies_navigable example_runtime example_params sourced_state H1 H2).
Defined.

Lemma empty_result_opens_step_bar_only_witness :
  let st := screened_state in
  (0 <= currentStep st <= 2)%Z
  /\ result_list (currentStep st) st = JArr []
  /\ @nextStep example_runtime st = st
  /\ (param_list example_params (currentStep st + 1) <> [] ->
      currentStep (navigateToStep example_params (currentStep st + 1) st)
      = (currentStep st + 1)%Z).
Proof.
  cbv zeta.
  assert (H1 : (0 <= currentStep screened_state <= 2)%Z)
    by (vm_compute; split; discriminate).
  assert (H2 : result_list (currentStep screened_state) screened_state = JArr [])
    by (vm_compute; reflexivity).
  split; [exact H1|]. split; [exact H2|].
  exact (@empty_result_opens_step_bar_only example_runtime example_params
           screened_state H1 H2).
Defined.

Lemma reset_blocks_later_steps_witness :
  let st' := run (handleResetStep 0) sourced_state in
  (0 <= 0 <= 2)%Z
  /\ (forall j, (0 < j)%Z -> navigateToStep example_params j st' = st')
  /\ @nextStep example_runtime st' = st'.
Proof.
  cbv zeta.
  assert (H0 : (0 <= 0 <= 2)%Z) by lia.
  split; [exact H0|].
  exact (@reset_blocks_later_steps example_runtime example_params sourced_state 0 H0).
Defined.

Lemma stream_lifecycle_witness :
  let st2 :=
    @deliver example_runtime (map (pair Screening) [thinking_event])
      (run (start_stream Screening) initial_state) in
  let st4 :=
    run (onclose Screening)
      (run (@onmessage example_runtime Screening (Ok final_result_event)) st2) in
  completes Screening final_result_event = true
  /\ stream_of st4 1 = [thinking_event] ++ [final_result_event]
  /\ truthy (response_of 1 st4) = true
  /\ payload_kept Screening final_result_event st4
  /\ isStepCompleted st4 1 = true
  /\ (closes Screening final_result_event = true -> 1%Z ∈ closedSockets st4)
  /\ (closes Screening final_result_event = false ->
      closedSockets st4 = closedSockets st2)
  /\ isSubmitting st4 = false
  /\ showStreamingPanel st4 = false
  /\ currentStep st4 = currentStep initial_state.
Proof.
  cbv zeta.
  assert (Hv : completes Screening final_result_event = true)
    by (vm_compute; reflexivity).
  split; [exact Hv|].
  exact (@stream_lifecycle example_runtime Screening [thinking_event]
           final_result_event initial_state Hv).
Defined.

Lemma aggregation_stalls_on_null_witness :
  let st := null_event_state in
  let later := @deliver example_runtime [(Sourcing, thinking_event)] st in
  stream_of st (currentStep st) !! 0%nat = Some JNull
  /\ is_nullish JNull = true
  /\ (processed_count st (currentStep st) <= 0)%nat
  /\ @aggregation_effect example_runtime later = later.
Proof.
  cbv zeta.
  assert (H1 : stream_of null_event_state (currentStep null_event_state) !! 0%nat
               = Some JNull) by (vm_compute; reflexivity).
  assert (H2 : is_nullish JNull = true) by reflexivity.
  assert (H3 : (processed_count null_event_state (currentStep null_event_state)
                <= 0)%nat) by (vm_compute; apply le_n).
  split; [exact H1|]. split; [exact H2|]. split; [exact H3|].
  exact (@aggregation_stalls_on_null example_runtime null_event_state 0 JNull
           [(Sourcing, thinking_event)] H1 H2 H3).
Defined.

Lemma onSelectAll_selection_witness :
  let st := sourced_state in
  qualified_of st = JArr [example_company]
  /\ getSelectedCompanyList (run (onSelectAll true) st) = Ok [example_company]
  /\ getSelectedCompanyList (run (onSelectAll false) st) = Ok []
  /\ (forall i : nat,
        getSelectedCompanyList
          (run (onSelectAll true;; toggleCompanySelect (Z.of_nat i)) st)
        = Ok (delete i [example_company])).
Proof.
  cbv zeta.
  assert (Hq : qualified_of sourced_state = JArr [example_company])
    by (vm_compute; reflexivity).
  split; [exact Hq|].
  exact (onSelectAll_selection sourced_state [example_company] Hq).
Defined.

Lemma export_document_roundtrip_witness :
  let st := risk_analysed_state in
  let rows :=
    [[lit "1"; lit "Acme, Inc."; lit "SAFE"; lit "liquidity"; lit "SAFE";
      lit "rated " ++ [dquote] ++ lit "ok" ++ [dquote]]] in
  all_companies_of st = JArr [example_company]
  /\ export_companies 1 [example_company] = Ok (map (map JStr) rows)
  /\ exists document,
       @exportRiskAnalysisToCSV example_runtime st = Downloaded document
       /\ parse_csv document = csv_headers :: rows.
Proof.
  cbv zeta.
  assert (H1 : all_companies_of risk_analysed_state = JArr [example_company])
    by (vm_compute; reflexivity).
  assert (H2 : export_companies 1 [example_company]
               = Ok (map (map JStr)
                       [[lit "1"; lit "Acme, Inc."; lit "SAFE"; lit "liquidity";
                         lit "SAFE";
                         lit "rated " ++ [dquote] ++ lit "ok" ++ [dquote]]]))
    by (vm_compute; reflexivity).
  split; [exact H1|]. split; [exact H2|].
  exact (@export_document_roundtrip example_runtime risk_analysed_state
           [example_company] _ H1 H2).
Defined.

Lemma add_then_delete_witness :
  let ed := example_editor in
  let key := trim (MandateParams.newParamName ed) in
  let ed'' :=
    MandateParams.handleDeleteParameter MandateParams.RiskSection key
      (MandateParams.handleAddParameter ed) in
  MandateParams.addParamSection ed = Some MandateParams.RiskSection
  /\ trim (MandateParams.newParamName ed) <> []
  /\ (forall name k,
        subprocess_params ed'' name !! k
        = if decide (key = k) then None else subprocess_params ed name !! k)
  /\ (forall section',
        bucket section' ed''
        = if decide (section' = MandateParams.RiskSection)
          then delete key (bucket section' ed)
          else bucket section' ed).
Proof.
  cbv zeta.
  assert (H1 : MandateParams.addParamSection example_editor
               = Some MandateParams.RiskSection) by reflexivity.
  assert (H2 : trim (MandateParams.newParamName example_editor) <> [])
    by (vm_compute; discriminate).
  split; [exact H1|]. split; [exact H2|].
  exact (add_then_delete MandateParams.RiskSection example_editor H1 H2).
Defined.

Lemma parse_completion_resets_form_witness :
  let v := parse_complete_event in
  let fm := parsing_form in
  let fm' := MandateForm.parse_onmessage (Ok v) fm in
  let fm'' := MandateForm.handleSubmit fm' in
  strict_eq_str (prop v (lit "type")) (lit "analysis_complete") = true
  /\ truthy (prop v (lit "criteria")) = true
  /\ prop (MandateForm.parsedResult fm') (lit "criteria") = prop v (lit "criteria")
  /\ truthy (prop (MandateForm.parsedResult fm') (lit "message")) = true
  /\ MandateForm.streamingEvents fm' = MandateForm.streamingEvents fm ++ [v]
  /\ MandateForm.isSubmitted fm' = true /\ MandateForm.isSubmitting fm' = false
  /\ MandateForm.showStreamingPanel fm' = false /\ MandateForm.socketClosed fm' = true
  /\ MandateForm.selectedFile fm' = None /\ MandateForm.description fm' = []
  /\ MandateForm.error_file fm'' = Some (lit "Please select a PDF file")
  /\ MandateForm.error_description fm'' = Some (lit "Please provide a description")
  /\ MandateForm.pendingSubmitData fm'' = MandateForm.pendingSubmitData fm
  /\ MandateForm.isAnalyzing fm'' = MandateForm.isAnalyzing fm.
Proof.
  cbv zeta.
  assert (H1 : strict_eq_str (prop parse_complete_event (lit "type"))
                 (lit "analysis_complete") = true) by (vm_compute; reflexivity).
  assert (H2 : truthy (prop parse_complete_event (lit "criteria")) = true)
    by (vm_compute; reflexivity).
  split; [exact H1|]. split; [exact H2|].
  exact (parse_completion_resets_form parse_complete_event parsing_form H1 H2).
Defined.


Example parsing_form_pending :
  MandateForm.pendingSubmitData parsing_form
  = Some ({| FundMandate.file_type := lit "application/pdf";
             FundMandate.file_size := 2048 |}, lit "Growth fund")
  /\ MandateForm.isSubmitting parsing_form = true
  /\ MandateForm.socketClosed parsing_form = false.
Proof. vm_compute. done. Qed.

Example export_of_example_company :
  @exportRiskAnalysisToCSV example_runtime risk_analysed_state
  = Downloaded
      (lit "S.No.,Company Name,Overall Status,Category,Status,Reason" ++ [newline]
         ++ lit "1," ++ [dquote] ++ lit "Acme, Inc." ++ [dquote]
         ++ lit ",SAFE,liquidity,SAFE,"
         ++ [dquote] ++ lit "rated " ++ [dquote; dquote] ++ lit "ok"
         ++ [dquote; dquote; dquote]).
Proof. vm_compute. reflexivity. Qed.

Example export_without_name_fails :
  @exportRiskAnalysisToCSV example_runtime
    (with_riskAnalysisResponse
       (fun _ => JObj [(lit "all_companies",
                        JArr [JObj [(lit "risk_scores",
                                     JArr [JObj [(lit "category",
                                                  JStr (lit "liquidity"))]])]])])
       initial_state)
  = ExportFailed.
Proof. vm_compute. reflexivity. Qed.

Example openReportInBrowser_cases :
  openReportInBrowser
    (JStr (lit "C:" ++ [92%N] ++ lit "reports" ++ [92%N] ++ lit "fund report.pdf"))
  = OpenFile (API.makeUrl (lit "/report/files/fund%20report.pdf"))
  /\ openReportInBrowser (JStr (lit "/srv/reports/fund.pdf"))
     = OpenFile (API.makeUrl (lit "/report/files/fund.pdf"))
  /\ openReportInBrowser (JStr (lit "fund.pdf"))
     = OpenFile (API.makeUrl (lit "/report/files/fund.pdf"))
  /\ openReportInBrowser (JStr (lit "reports/"))
     = OpenFile (API.makeUrl (lit "/report/files/"))
  /\ openReportInBrowser (JStr (lit "/srv/" ++ [55357%N]))
     = OpenRawPath (JStr (lit "/srv/" ++ [55357%N]))
  /\ openReportInBrowser (JArr []) = OpenRawPath (JArr [])
  /\ openReportInBrowser (JStr []) = NoReportPath
  /\ openReportInBrowser JNull = NoReportPath.
Proof. vm_compute. done. Qed.

Example encodeURIComponent_cases :
  encodeURIComponent (lit "a b/c") = Some (lit "a%20b%2Fc")
  /\ encodeURIComponent [233%N] = Some (lit "%C3%A9")
  /\ encodeURIComponent [8364%N] = Some (lit "%E2%82%AC")
  /\ encodeURIComponent [55357; 56832]%N = Some (lit "%F0%9F%98%80")
  /\ encodeURIComponent [56832; 55357]%N = None.
Proof. vm_compute. done. Qed.

Example toDisplayArray_cases :
  @DisplayArray.toDisplayArray example_runtime
    (JObj [(lit "min_revenue", JStr (lit "10M"))])
  = Ok (JArr [DisplayArray.display_entry (lit "Min Revenue") (lit "10M")])
  /\ @DisplayArray.toDisplayArray example_runtime (JArr [JStr (lit "a"); JNull])
     = Throw TypeError
  /\ @DisplayArray.toDisplayArray example_runtime
       (JObj [(lit "a", JObj [(lit "toString", JNum 1)])])
     = Throw TypeError
  /\ @DisplayArray.toDisplayArray example_runtime
       (JArr [JObj [(lit "a", JObj [(lit "toString", JNum 1)])]])
     = Throw TypeError
  /\ @DisplayArray.toDisplayArray example_runtime
       (JArr [JObj [(lit "sector", JStr (lit "tech"))]; JObj []])
     = Ok (JArr [DisplayArray.display_entry (lit "sector") (lit "tech");
                 DisplayArray.display_entry [] []]).
Proof. vm_compute. done. Qed.
End FurtherExamples.
